(** * Neuromorphic computing assignment 3, option B: the LIF simulator,
      the analytical rate function and the NEF decoder

    A shallow embedding of the notebook [NMCA3 Option B.ipynb]:

    - [run_LIF_network], the Euler simulator of a population of leaky
      integrate-and-fire neurons (voltage, spikes, filtered spikes);
    - [LIF_io], the analytical input-output (rate) function with its two
      masking assignments;
    - the closed form of the regularised least-squares decoder, which the
      notebook gives as a formula only.

    The notebook computes with numpy arrays.  Arrays are modelled with their
    rank (scalar, one-dimensional, two-dimensional) and numpy's broadcasting,
    and the exceptions numpy and Python raise are values of an error monad.
    The simulator is compiled by numba in nopython mode, where an index
    that leaves its array is not checked: such a read is a third outcome,
    undefined behaviour.

    The code is generic in the element type (the dtype), so that what is
    proved of its structure holds for every arithmetic.  The dtype the
    notebook runs on is [float], the IEEE 754 binary64 numbers: Rocq's
    primitive floats, with their round-to-nearest-even operations.  What
    depends on the arithmetic (signs, bounds, the masks of [LIF_io]) is
    proved of binary64 itself, from the specification of its operations
    ([SpecFloat]).  The logarithm is not an operation of binary64: [np.log]
    calls the C library, and [LIF_io] takes it as a parameter. *)

From Stdlib Require Import ZArith List Arith Lia Bool Reals Lra Psatz Floats.
From mathcomp Require boot order algebra.
Import ListNotations.

Set Implicit Arguments.

(** * Exceptions *)

(** The exceptions the modelled code can raise: numpy's and numba's
    [ValueError] on shapes that do not broadcast, [IndexError] on a bad
    index, [TypeError] on an operation the object does not support, and
    Python's [ZeroDivisionError]. *)
Inductive exn : Type := ValueError | IndexError | TypeError | ZeroDivisionError.

(** The outcome of a call: a value, an exception, or [Undefined]:
    [run_LIF_network] is compiled by numba without bounds checks, and after
    an access past the end of an array nothing is known of the call (it may
    return arrays or crash). *)
Inductive result (A : Type) : Type :=
| Ok (a : A)
| Raise (e : exn)
| Undefined.

Arguments Ok {A} a.
Arguments Raise {A} e.
Arguments Undefined {A}.

Definition bind {A B : Type} (m : result A) (k : A -> result B) : result B :=
  match m with
  | Ok a => k a
  | Raise e => Raise e
  | Undefined => Undefined
  end.

Definition fmap {A B : Type} (f : A -> B) (m : result A) : result B :=
  bind m (fun a => Ok (f a)).

Notation "x <- m ;; k" := (bind m (fun x => k))
  (at level 61, m at next level, right associativity).

Definition is_ok {A : Type} (m : result A) : bool :=
  match m with Ok _ => true | _ => false end.

Fixpoint mapM {A B : Type} (f : A -> result B) (l : list A) : result (list B) :=
  match l with
  | [] => Ok []
  | a :: l' => b <- f a ;; bs <- mapM f l' ;; Ok (b :: bs)
  end.

(** * Arrays and broadcasting *)

(** A value of the notebook is a scalar, a one-dimensional array or a
    two-dimensional array (a list of rows, in numpy's row-major order). *)
Inductive ndarray (A : Type) : Type :=
| Scalar (a : A)
| Vec (v : list A)
| Mat (m : list (list A)).

Arguments Scalar {A} a.
Arguments Vec {A} v.
Arguments Mat {A} m.

(** [len(a)]: the size of the first axis; a scalar has none. *)
Definition len {A : Type} (a : ndarray A) : result nat :=
  match a with
  | Scalar _ => Raise TypeError
  | Vec v => Ok (length v)
  | Mat m => Ok (length m)
  end.

(** [a[k]] for a nonnegative integer [k]: an element of a one-dimensional
    array, a row of a two-dimensional one. *)
Definition item {A : Type} (a : ndarray A) (k : nat) : result (ndarray A) :=
  match a with
  | Scalar _ => Raise IndexError
  | Vec v => match nth_error v k with
             | Some e => Ok (Scalar e)
             | None => Raise IndexError
             end
  | Mat m => match nth_error m k with
             | Some row => Ok (Vec row)
             | None => Raise IndexError
             end
  end.

Definition zip_with {A B C : Type} (f : A -> B -> C) (v : list A) (w : list B) : list C :=
  map (fun p => f (fst p) (snd p)) (combine v w).

(** Broadcasting along one axis: two axes of equal size are paired
    elementwise, an axis of size one is stretched over the other, and
    anything else is a [ValueError]. *)
Definition zipB {A B C : Type} (f : A -> B -> result C)
    (v : list A) (w : list B) : result (list C) :=
  if length v =? length w then mapM (fun p => f (fst p) (snd p)) (combine v w)
  else match v, w with
       | [a], _ => mapM (f a) w
       | _, [b] => mapM (fun a => f a b) v
       | _, _ => Raise ValueError
       end.

(** An elementwise binary operation with broadcasting; the shapes are
    aligned on the last axis, as numpy does. *)
Definition lift2 {A B C : Type} (f : A -> B -> C)
    (x : ndarray A) (y : ndarray B) : result (ndarray C) :=
  let f1 := fun a b => Ok (f a b) in
  match x, y with
  | Scalar a, Scalar b => Ok (Scalar (f a b))
  | Scalar a, Vec w => Ok (Vec (map (f a) w))
  | Vec v, Scalar b => Ok (Vec (map (fun a => f a b) v))
  | Vec v, Vec w => fmap Vec (zipB f1 v w)
  | Scalar a, Mat n => Ok (Mat (map (map (f a)) n))
  | Mat m, Scalar b => Ok (Mat (map (map (fun a => f a b)) m))
  | Vec v, Mat n => fmap Mat (mapM (fun row => zipB f1 v row) n)
  | Mat m, Vec w => fmap Mat (mapM (fun row => zipB f1 row w) m)
  | Mat m, Mat n => fmap Mat (zipB (zipB f1) m n)
  end.

(** An elementwise unary operation. *)
Definition lift1 {A B : Type} (f : A -> B) (x : ndarray A) : ndarray B :=
  match x with
  | Scalar a => Scalar (f a)
  | Vec v => Vec (map f v)
  | Mat m => Mat (map (map f) m)
  end.

(** The values stored by an assignment [target[...] = a] into a
    one-dimensional target of [n] entries: [a] is broadcast to shape [(n,)],
    after leading axes of size one are dropped. *)
Definition fit {A : Type} (n : nat) (v : list A) : result (list A) :=
  if length v =? n then Ok v
  else match v with
       | [c] => Ok (repeat c n)
       | _ => Raise ValueError
       end.

Definition broadcast_to {A : Type} (n : nat) (a : ndarray A) : result (list A) :=
  match a with
  | Scalar c => Ok (repeat c n)
  | Vec v => fit n v
  | Mat [row] => fit n row
  | Mat _ => Raise ValueError
  end.

(** Whether every position at which [mask] holds is a position of an array
    of length [n]. *)
Definition in_bounds (n : nat) (mask : list bool) : bool :=
  forallb (fun p => negb (snd p) || (fst p <? n))
    (combine (seq 0 (length mask)) mask).

(** [a[mask]] for a one-dimensional [a] and a boolean [mask], as numba
    compiles it: the entries of [a] at the positions where the mask holds.
    The length of the mask is not compared with that of [a] (numpy would
    raise an [IndexError]); a mask that holds at a position past the end of
    [a] makes the compiled code read out of bounds. *)
Definition bool_index {A : Type} (a : list A) (mask : list bool) : result (list A) :=
  if in_bounds (length a) mask
  then Ok (map fst (filter snd (combine a mask)))
  else Undefined.

(** [l] with entry [k] replaced by [v] (unchanged when [k] is out of range;
    the modelled code only writes in range). *)
Fixpoint update {A : Type} (l : list A) (k : nat) (v : A) : list A :=
  match l, k with
  | [], _ => []
  | _ :: l', O => v :: l'
  | a :: l', S k' => a :: update l' k' v
  end.

(** * Element types *)

(** The arithmetic the simulator uses on array elements: the constants 0
    and 1, [+], [*], unary [-] and the comparison [>=]. *)
Class Dtype (num : Type) : Type := {
  zero : num;
  one : num;
  add : num -> num -> num;
  mul : num -> num -> num;
  neg : num -> num;
  geb : num -> num -> bool
}.

(** The further operations of the analytical rate function: [-], [/],
    [<=], [==] and [np.isnan]. *)
Class Elementary (num : Type) {dtype : Dtype num} : Type := {
  sub : num -> num -> num;
  div : num -> num -> num;
  leb : num -> num -> bool;
  eqb : num -> num -> bool;
  is_nan : num -> bool
}.

Arguments Elementary num {dtype}.

(** ** binary64 *)

(** numpy's default dtype, float64: Rocq's primitive floats are the same
    IEEE 754 binary64 numbers, with round-to-nearest-even arithmetic. *)
#[export] Instance float64 : Dtype float := {|
  zero := 0%float;
  one := 1%float;
  add := PrimFloat.add;
  mul := PrimFloat.mul;
  neg := PrimFloat.opp;
  geb := fun v t => PrimFloat.leb t v
|}.

#[export] Instance float64_elementary : Elementary float := {|
  sub := PrimFloat.sub;
  div := PrimFloat.div;
  leb := PrimFloat.leb;
  eqb := PrimFloat.eqb;
  is_nan := PrimFloat.is_nan
|}.

(** * The values of binary64 *)

(** Rocq specifies the operations of its primitive floats by [SpecFloat]:
    a finite number is a sign, a mantissa [m] and an exponent [e], of value
    [m * 2^e], and every operation rounds the exact result to the nearest
    number of the format (ties to even).  The definitions below name what
    the proofs about binary64 use of this. *)

Unset Implicit Arguments.

Definition bpow (e : Z) : R := powerRZ 2 e.

(** The value of the mantissa [m] at the exponent [e]. *)
Definition F2R (m e : Z) : R := (IZR m * bpow e)%R.

Arguments bpow : simpl never.
Arguments F2R : simpl never.

(** The real [v >= 0] lies in the interval [[m * 2^e, (m + 1) * 2^e)], and
    [exact] tells whether it is its lower end. *)
Definition located (v : R) (m e : Z) (exact : bool) : Prop :=
  (0 <= m)%Z /\ (F2R m e <= v < F2R (m + 1) e)%R /\ (exact = true <-> v = F2R m e).

Definition rec_exact (r : shr_record) : bool := negb (shr_r r || shr_s r).

Definition loc_exact (l : location) : bool :=
  match l with loc_Exact => true | _ => false end.

Abbreviation fexp64 := (SpecFloat.fexp prec emax).

(** The positive numbers of the format. *)
Definition Rep (f : R) : Prop :=
  exists m e, bounded prec emax m e = true /\ f = F2R (Zpos m) e.

(** What an operation returns for a result of sign [s] and exact magnitude
    [v]: the magnitude of the returned number lies between the numbers of
    the format below and above [v]. *)
Inductive rounded (s : bool) (v : R) : spec_float -> Prop :=
| rounded_zero :
    (forall f, Rep f -> (f <= v)%R -> False) -> rounded s v (S754_zero s)
| rounded_finite m e :
    (forall f, Rep f -> (f <= v)%R -> (f <= F2R (Zpos m) e)%R) ->
    (forall f, Rep f -> (v <= f)%R -> (F2R (Zpos m) e <= f)%R) ->
    rounded s v (S754_finite s m e)
| rounded_infinity :
    (forall f, Rep f -> (v <= f)%R -> False) -> rounded s v (S754_infinity s).

(** The signed value of a finite number. *)
Definition signed (s : bool) (m : positive) (e : Z) : R :=
  if s then (- F2R (Zpos m) e)%R else F2R (Zpos m) e.

(** The invariant of the filtered spikes: a zero, or a positive number of
    at most [2^53]. *)
Definition filtered_ok (a : float) : Prop :=
  match Prim2SF a with
  | S754_zero _ => True
  | S754_finite false m e => (F2R (Zpos m) e <= bpow 53)%R
  | _ => False
  end.

(** The values the quotient [u / (u - T)] takes below a threshold
    [T >= 0]: NaN, a zero, a negative number, a positive number of at most
    1, or [+inf] (at [u = T <> 0]). *)
Inductive quotient_class (q : float) : Prop :=
| q_nan : Prim2SF q = S754_nan -> quotient_class q
| q_zero s : Prim2SF q = S754_zero s -> quotient_class q
| q_negative m e : Prim2SF q = S754_finite true m e -> quotient_class q
| q_neg_infinity : Prim2SF q = S754_infinity true -> quotient_class q
| q_le_one m e :
    Prim2SF q = S754_finite false m e -> (F2R (Zpos m) e <= 1)%R -> quotient_class q
| q_infinity : Prim2SF q = S754_infinity false -> quotient_class q.

Set Implicit Arguments.

(** * The simulator *)

Section Simulator.

Context {num : Type} {dtype : Dtype num}.

(** A two-dimensional state array of shape [(N, nT)]: one row per neuron,
    one column per time point. *)
Definition matrix : Type := list (list num).

(** [np.zeros((N, nT))] *)
Definition zeros (N nT : nat) : matrix := repeat (repeat zero nT) N.

(** [M[j, k]] *)
Definition get (M : matrix) (j k : nat) : num := nth k (nth j M []) zero.

(** [M[:, k]], read *)
Definition column (M : matrix) (k : nat) : list num :=
  map (fun row => nth k row zero) M.

(** [M[:, k] = a] *)
Definition assign_column (M : matrix) (k : nat) (a : ndarray num) : result matrix :=
  vals <- broadcast_to (length M) a ;;
  Ok (zip_with (fun row v => update row k v) M vals).

(** [M[j, k] = c] *)
Definition set_entry (M : matrix) (j k : nat) (c : num) : matrix :=
  update M j (update (nth j M []) k c).

(** [M[idx, k] = c] for an array [idx] of row indices and a scalar [c] *)
Definition assign_entries (M : matrix) (idx : list nat) (k : nat) (c : num) : matrix :=
  fold_left (fun M' j => set_entry M' j k c) idx M.

(** The shape [(N, nT)]. *)
Definition has_shape (N nT : nat) (M : matrix) : Prop :=
  length M = N /\ Forall (fun row => length row = nT) M.

Definition add_ := lift2 add.
Definition mul_ := lift2 mul.
Definition neg_ := lift1 neg.

(** The body of the loop, at time step [i]:
<<
        V[:, i] = V[:, i-1] + dt*(-V[:, i-1] + F*x[i-1] + b)
        r[:, i] = r[:, i-1] + dt*(-r[:, i-1]) + s[:, i-1]
        spiking_neurons = np.arange(N)[V[:, i] >= T]
        V[spiking_neurons, i] = 0 # reset
        s[spiking_neurons, i] = 1 # set spikes
>> *)
Definition update_voltage (x F : ndarray num) (b : list num) (dt : num)
    (i : nat) (V : matrix) : result matrix :=
  xi <- item x (i - 1) ;;
  Fx <- mul_ F xi ;;
  t1 <- add_ (neg_ (Vec (column V (i - 1)))) Fx ;;
  t2 <- add_ t1 (Vec b) ;;
  t3 <- mul_ (Scalar dt) t2 ;;
  t4 <- add_ (Vec (column V (i - 1))) t3 ;;
  assign_column V i t4.

Definition update_filtered (dt : num) (i : nat) (s r : matrix) : result matrix :=
  u1 <- mul_ (Scalar dt) (neg_ (Vec (column r (i - 1)))) ;;
  u2 <- add_ (Vec (column r (i - 1))) u1 ;;
  u3 <- add_ u2 (Vec (column s (i - 1))) ;;
  assign_column r i u3.

Definition step (x F : ndarray num) (b T : list num) (dt : num) (N : nat)
    (i : nat) (st : matrix * matrix * matrix) : result (matrix * matrix * matrix) :=
  let '(V, s, r) := st in
  V1 <- update_voltage x F b dt i V ;;
  r1 <- update_filtered dt i s r ;;
  mask <- zipB (fun v t => Ok (geb v t)) (column V1 i) T ;;
  spiking_neurons <- bool_index (seq 0 N) mask ;;
  let V2 := assign_entries V1 spiking_neurons i zero in
  let s1 := assign_entries s spiking_neurons i one in
  Ok (V2, s1, r1).

(** [for i in range(lo, hi): st = body(i, st)] *)
Definition for_range {S : Type} (lo hi : nat) (body : nat -> S -> result S)
    (st : S) : result S :=
  fold_left (fun acc i => st' <- acc ;; body i st') (seq lo (hi - lo)) (Ok st).

(** [run_LIF_network(x, F, b, T, dt)], returning [(V, s, r)].  The source
    compiles the function with numba in nopython mode and gives [dt] the
    default [1e-3]; the model follows numpy's broadcasting, which the
    compiled code keeps, reads the boolean index as the compiled code does
    ([bool_index]), and takes [dt] explicitly. *)
Definition run_LIF_network (x F : ndarray num) (b T : list num) (dt : num)
    : result (matrix * matrix * matrix) :=
  nT <- len x ;;
  N <- len F ;;
  let V := zeros N nT in
  let s := zeros N nT in
  let r := zeros N nT in
  for_range 1 nT (step x F b T dt N) (V, s, r).

(** The right-hand side [V[:, i-1] + dt*(-V[:, i-1] + F*x[i-1] + b)] for
    one-dimensional [x], [F] and [b] of matching lengths. *)
Definition pre_column (x F b : list num) (dt : num) (V : matrix) (i : nat) : list num :=
  zip_with add (column V (i - 1))
    (map (mul dt)
       (zip_with add
          (zip_with add (map neg (column V (i - 1)))
                        (map (fun f => mul f (nth (i - 1) x zero)) F))
          b)).

(** The right-hand side [r[:, i-1] + dt*(-r[:, i-1]) + s[:, i-1]]. *)
Definition filtered_column (dt : num) (s r : matrix) (i : nat) : list num :=
  zip_with add
    (zip_with add (column r (i - 1)) (map (mul dt) (map neg (column r (i - 1)))))
    (column s (i - 1)).

(** The voltage of neuron [j] at step [i] before spike detection, from the
    stored voltages of step [i-1]. *)
Definition pre_reset (x F b : list num) (dt : num) (V : matrix) (j i : nat) : num :=
  add (get V j (i - 1))
      (mul dt (add (add (neg (get V j (i - 1)))
                        (mul (nth j F zero) (nth (i - 1) x zero)))
                   (nth j b zero))).

(** What the loop has stored for neuron [j] in column [i], in terms of
    column [i-1]. *)
Definition stored (x F b T : list num) (dt : num) (V s r : matrix) (j i : nat) : Prop :=
  let p := pre_reset x F b dt V j i in
  get V j i = (if geb p (nth j T zero) then zero else p) /\
  get s j i = (if geb p (nth j T zero) then one else zero) /\
  get r j i = add (add (get r j (i - 1)) (mul dt (neg (get r j (i - 1)))))
                  (get s j (i - 1)).

(** The state before iteration [i]: the arrays have their shape, column 0
    and the columns from [i] on are still zero, and the columns before [i]
    hold what their iterations stored. *)
Definition loop_invariant (x F b T : list num) (dt : num) (N nT : nat)
    (i : nat) (st : matrix * matrix * matrix) : Prop :=
  let '(V, s, r) := st in
  has_shape N nT V /\ has_shape N nT s /\ has_shape N nT r /\
  (forall j k, j < N -> k = 0 \/ i <= k ->
     get V j k = zero /\ get s j k = zero /\ get r j k = zero) /\
  (forall j k, j < N -> 1 <= k < i -> stored x F b T dt V s r j k).

End Simulator.

Arguments matrix num : clear implicits.

(** * The example cell *)

Section Example.

Context {num : Type} {dtype : Dtype num}.

(** [np.ones(n)] *)
Definition ones (n : nat) : list num := repeat one n.

(** [v*c] for a one-dimensional [v] and a scalar [c] *)
Definition times (v : list num) (c : num) : list num := map (fun a => mul a c) v.

(** The cell that simulates the example population, with its settings as
    parameters (the notebook takes [N = 10], the weight [0.4], the bias
    factor [2], the input [5] and [dt = 1e-3]):
<<
F = np.ones(N)*0.4 # input weights
b = np.zeros(N)*2 # biases
T = np.ones(N) # thresholds
x = np.ones(nT)*5
V, s, r = run_LIF_network(x, F, b, T, dt=dt)
>> *)
Definition single_neuron_example (nT N : nat) (w c x0 dt : num)
    : result (matrix num * matrix num * matrix num) :=
  let F := times (ones N) w in
  let b := times (repeat zero N) c in
  let T := ones N in
  let x := times (ones nT) x0 in
  run_LIF_network (Vec x) (Vec F) b T dt.

End Example.

(** * The analytical rate function *)

(** An argument of [LIF_io]: a Python [float], or a numpy value (an array
    or a numpy scalar). *)
Inductive value (A : Type) : Type :=
| PyFloat (a : A)
| Numpy (a : ndarray A).

Arguments PyFloat {A} a.
Arguments Numpy {A} a.

(** A Python float next to a numpy value is read as a scalar. *)
Definition as_numpy {A : Type} (v : value A) : ndarray A :=
  match v with
  | PyFloat a => Scalar a
  | Numpy a => a
  end.

(** A scalar parameter [c], given as a Python float ([py = true]) or as a
    numpy scalar. *)
Definition scalar {A : Type} (py : bool) (c : A) : value A :=
  if py then PyFloat c else Numpy (Scalar c).

(** The entry [e] after an assignment of [c] under the mask bit [m]. *)
Definition where_ {A : Type} (c : A) (e : A) (m : bool) : A := if m then c else e.

Definition assign_row_mask {A : Type} (c : A) (row : list A) (mask : list bool)
    : result (list A) :=
  if length mask =? length row then Ok (zip_with (where_ c) row mask)
  else Raise IndexError.

(** [a[mask] = c] for a boolean [mask] and a scalar [c].  A numpy scalar
    supports no item assignment; a mask of the array's shape selects
    entries, a one-dimensional mask on a two-dimensional array selects rows,
    and a scalar mask selects all or nothing. *)
Definition assign_mask {A : Type} (a : ndarray A) (mask : ndarray bool) (c : A)
    : result (ndarray A) :=
  match a, mask with
  | Scalar _, _ => Raise TypeError
  | Vec v, Scalar m => Ok (Vec (map (fun e => where_ c e m) v))
  | Vec v, Vec m => fmap Vec (assign_row_mask c v m)
  | Vec _, Mat _ => Raise IndexError
  | Mat rows, Scalar m => Ok (Mat (map (map (fun e => where_ c e m)) rows))
  | Mat rows, Vec m =>
      if length m =? length rows
      then Ok (Mat (zip_with (fun row mj => map (fun e => where_ c e mj) row) rows m))
      else Raise IndexError
  | Mat rows, Mat m =>
      if length m =? length rows
      then fmap Mat (mapM (fun p => assign_row_mask c (fst p) (snd p)) (combine rows m))
      else Raise IndexError
  end.

Section RateFunction.

Context {num : Type} {dtype : Dtype num} {elementary : Elementary num}.

(** [np.log]: numpy calls the logarithm of the C library on every
    element. *)
Variable log : num -> num.

(** A binary operator: Python's on two Python floats, numpy's as soon as
    one operand is a numpy value (the other one is then read as a
    scalar); numpy gives back a numpy value. *)
Definition binop (op : num -> num -> num) (x y : value num) : result (value num) :=
  match x, y with
  | PyFloat a, PyFloat c => Ok (PyFloat (op a c))
  | _, _ => fmap Numpy (lift2 op (as_numpy x) (as_numpy y))
  end.

(** [x / y]: Python raises [ZeroDivisionError] when the divisor is a float
    equal to zero; numpy divides (with a warning) and returns an infinity
    or NaN. *)
Definition truediv (x y : value num) : result (value num) :=
  match x, y with
  | PyFloat a, PyFloat c =>
      if eqb c zero then Raise ZeroDivisionError else Ok (PyFloat (div a c))
  | _, _ => fmap Numpy (lift2 div (as_numpy x) (as_numpy y))
  end.

(** [f*x + b] *)
Definition drive (x f b : value num) : result (value num) :=
  fx <- binop mul f x ;;
  binop add fx b.

(**
<<
def LIF_io(x, f, b, T):
    out = np.log((f*x+b) / (f*x+b-T))
    rate = 1/out
    rate[out<=0] = 0
    rate[np.isnan(rate)] = 0
    return rate
>>
    numpy's floating-point warnings (division by zero, invalid value) are
    warnings, not exceptions, and leave the computed values in place.
    [np.log] returns a numpy value also for a Python float, so that [out]
    and [rate] are numpy values. *)
Definition LIF_io (x f b T : value num) : result (ndarray num) :=
  u <- drive x f b ;;
  u' <- drive x f b ;;
  d <- binop sub u' T ;;
  q <- truediv u d ;;
  let out := lift1 log (as_numpy q) in
  rate <- lift2 div (Scalar one) out ;;
  m1 <- lift2 leb out (Scalar zero) ;;
  rate1 <- assign_mask rate m1 zero ;;
  rate2 <- assign_mask rate1 (lift1 is_nan rate1) zero ;;
  Ok rate2.

(** The drive [f*x + b] of one input, and what the last three lines of
    [LIF_io] make of one value [out] of the logarithm. *)
Definition drive1 (f b x : num) : num := add (mul f x) b.

Definition masked_rate (out : num) : num :=
  let rate := div one out in
  let rate' := where_ zero rate (leb out zero) in
  where_ zero rate' (is_nan rate').

(** The rate of one input, for scalar parameters: what [LIF_io] computes
    at each position of an array [x]. *)
Definition rate_of_drive (u T : num) : num :=
  masked_rate (log (div u (sub u T))).

Definition rate1 (f b T x : num) : num := rate_of_drive (drive1 f b x) T.

End RateFunction.

(** ** The logarithm of the C library *)

(** What the results below use of [np.log] on binary64: the special values
    that C99 (Annex F) fixes ([log(NaN)] and the logarithm of a negative
    number are NaN, [log(+-0) = -inf], [log(+inf) = +inf]) and the sign of
    the logarithm up to 1.  The digits of the result are left open. *)
Record log_spec (log : float -> float) : Prop := {
  log_nan : forall y, PrimFloat.is_nan y = true -> PrimFloat.is_nan (log y) = true;
  log_negative : forall y, (y <? 0)%float = true -> PrimFloat.is_nan (log y) = true;
  log_zero : forall y, (y =? 0)%float = true -> log y = neg_infinity;
  log_le_one : forall y, (0 <? y)%float = true -> (y <=? 1)%float = true ->
               (log y <=? 0)%float = true;
  log_infinity : log infinity = infinity
}.

(** A function with these properties: the special values and the sign of
    the logarithm, and no more ([-1] below 1, [1] above). *)
Definition sign_log (y : float) : float :=
  if PrimFloat.is_nan y then nan
  else if (y <? 0)%float then nan
  else if (y =? 0)%float then neg_infinity
  else if (y <? 1)%float then (-1)%float
  else if (y =? 1)%float then 0%float
  else if (y =? infinity)%float then infinity
  else 1%float.

(** * The decoder *)

(** The notebook leaves the decoder to the reader and gives its closed form
    as a formula; matrices are MathComp's, over an arbitrary real field. *)
Module Decoder.

Import mathcomp.boot.boot mathcomp.order.order mathcomp.algebra.algebra.
Import GRing.Theory Num.Theory Order.Theory.
Local Open Scope ring_scope.

Section Fit.

Variable K : realFieldType.
Variables (N nSamples p : nat).

(** Modelled from the spec: the matrix [R R^T + lambda I] of the closed
    form, for the activities [R] (one row per neuron, one column per
    sample). *)
Definition gram (R : 'M[K]_(N, nSamples)) (lam : K) : 'M[K]_N :=
  R *m R^T + lam%:M.

(** Modelled from the spec: the decoder fit has no code in the notebook (the
    cells of exercises 2 and 3 are empty); it is the closed form
    [D = Y R^T (R R^T + lambda I)^-1], for the targets [Y] (the inputs [X]
    or a function of them). *)
Definition decoder (Y : 'M[K]_(p, nSamples)) (R : 'M[K]_(N, nSamples)) (lam : K)
    : 'M[K]_(p, N) :=
  Y *m R^T *m invmx (gram R lam).

(** Modelled from the spec: the squared norm of the loss, the sum of the
    squared entries (for one output dimension, the squared Euclidean norm
    of a row). *)
Definition sqnorm {m n : nat} (A : 'M[K]_(m, n)) : K :=
  \sum_i \sum_j (A i j) ^+ 2.

(** Modelled from the spec: the loss [|Y - D R|^2 + lambda |D|^2] that the
    decoder is said to minimise. *)
Definition loss (Y : 'M[K]_(p, nSamples)) (R : 'M[K]_(N, nSamples)) (lam : K)
    (D : 'M[K]_(p, N)) : K :=
  sqnorm (Y - D *m R) + lam * sqnorm D.

End Fit.

Arguments gram {K N nSamples} R lam.
Arguments decoder {K N nSamples p} Y R lam.
Arguments sqnorm {K m n} A.
Arguments loss {K N nSamples p} Y R lam D.

End Decoder.

(** * Lists, broadcasting and updates *)

Lemma mapM_pure {A B : Type} (f : A -> B) (l : list A) :
  mapM (fun a => Ok (f a)) l = Ok (map f l).
Proof.
  induction l as [|a l IH]; simpl; [reflexivity|].
  now rewrite IH.
Qed.

Lemma mapM_length {A B : Type} (f : A -> result B) (l : list A) (l' : list B) :
  mapM f l = Ok l' -> length l' = length l.
Proof.
  revert l'; induction l as [|a l IH]; simpl; intros l' E.
  - now inversion E.
  - destruct (f a); simpl in E; [|discriminate..].
    destruct (mapM f l); simpl in E; [|discriminate..].
    inversion E; subst; simpl. now rewrite (IH _ eq_refl).
Qed.

Lemma nth_map_in {A B : Type} (f : A -> B) (d : A) (d' : B) (l : list A) j :
  j < length l -> nth j (map f l) d' = f (nth j l d).
Proof.
  revert j; induction l as [|a l IH]; intros [|j]; simpl; try lia; auto.
  intros; apply IH; lia.
Qed.

Section ListFacts.

Context {A B C : Type}.

Lemma zip_with_length (f : A -> B -> C) (v : list A) (w : list B) :
  length v = length w -> length (zip_with f v w) = length v.
Proof.
  intros E. unfold zip_with.
  rewrite length_map, length_combine. lia.
Qed.

Lemma zip_with_nth (f : A -> B -> C) (v : list A) (w : list B) j da db dc :
  j < length v -> j < length w ->
  nth j (zip_with f v w) dc = f (nth j v da) (nth j w db).
Proof.
  revert w j; induction v as [|a v IH]; intros [|b w] [|j]; simpl;
    try lia; intros; [reflexivity|].
  apply IH; lia.
Qed.

Lemma zipB_same_length (f : A -> B -> C) (v : list A) (w : list B) :
  length v = length w ->
  zipB (fun a b => Ok (f a b)) v w = Ok (zip_with f v w).
Proof.
  intros E. unfold zipB.
  rewrite (proj2 (Nat.eqb_eq _ _) E).
  apply (mapM_pure (fun p => f (fst p) (snd p))).
Qed.

Lemma update_length (l : list A) k v : length (update l k v) = length l.
Proof.
  revert k; induction l as [|a l IH]; intros [|k]; simpl; auto.
Qed.

Lemma update_nth_eq (l : list A) k v d :
  k < length l -> nth k (update l k v) d = v.
Proof.
  revert k; induction l as [|a l IH]; intros [|k]; simpl; try lia; auto.
  intros; apply IH; lia.
Qed.

Lemma update_nth_neq (l : list A) k k' v d :
  k <> k' -> nth k' (update l k v) d = nth k' l d.
Proof.
  revert k k'; induction l as [|a l IH]; intros [|k] [|k']; simpl;
    try lia; auto.
Qed.

Lemma update_overflow (l : list A) k v : length l <= k -> update l k v = l.
Proof.
  revert k; induction l as [|a l IH]; intros [|k]; simpl; try lia; auto.
  intros; f_equal; apply IH; lia.
Qed.

Lemma update_Forall (P : A -> Prop) (l : list A) k v :
  Forall P l -> P v -> Forall P (update l k v).
Proof.
  intros Hl Hv; revert k; induction Hl as [|a l Ha Hl IH]; intros [|k];
    simpl; auto.
Qed.

Lemma nth_Forall (P : A -> Prop) (l : list A) k d :
  Forall P l -> P d -> P (nth k l d).
Proof.
  intros Hl Hd; revert k; induction Hl as [|a l Ha Hl IH]; intros [|k];
    simpl; auto.
Qed.

End ListFacts.

Lemma in_bounds_short (n : nat) (mask : list bool) :
  length mask <= n -> in_bounds n mask = true.
Proof.
  intros H. unfold in_bounds. apply forallb_forall. intros [k c] Hin.
  apply in_combine_l, in_seq in Hin. cbn [fst snd].
  rewrite (proj2 (Nat.ltb_lt k n)) by lia. apply orb_true_r.
Qed.

(** A mask of the length of the array selects without reading out of
    bounds. *)
Lemma bool_index_same_length {A : Type} (a : list A) (mask : list bool) :
  length mask = length a ->
  bool_index a mask = Ok (map fst (filter snd (combine a mask))).
Proof.
  intros H. unfold bool_index. now rewrite in_bounds_short by lia.
Qed.

Lemma selected_iff (mask : list bool) (N j : nat) :
  length mask = N ->
  In j (map fst (filter snd (combine (seq 0 N) mask))) <->
  j < N /\ nth j mask false = true.
Proof.
  intros <-.
  assert (G : forall (m : list bool) (lo : nat),
    In j (map fst (filter snd (combine (seq lo (length m)) m))) <->
    lo <= j < lo + length m /\ nth (j - lo) m false = true).
  { induction m as [|c m IH]; intros lo; simpl.
    - split; [tauto|lia].
    - assert (Hcase : j < lo \/ j = lo \/ S lo <= j) by lia.
      destruct Hcase as [Hlt|[->|Hgt]].
      + destruct c; simpl; rewrite ?IH; intuition lia.
      + rewrite Nat.sub_diag.
        destruct c; simpl; rewrite ?IH; intuition (try lia; try discriminate).
      + replace (j - lo) with (S (j - S lo)) by lia.
        destruct c; simpl; rewrite ?IH; intuition lia. }
  rewrite (G mask 0), Nat.sub_0_r. simpl.
  split; intros [? ?]; (split; [lia|assumption]).
Qed.

(** * State arrays *)

Section MatrixFacts.

Context {num : Type} {dtype : Dtype num}.

Lemma column_length (M : matrix num) k : length (column M k) = length M.
Proof. apply length_map. Qed.

Lemma column_nth (M : matrix num) k j : nth j (column M k) zero = get M j k.
Proof.
  unfold column, get. revert j.
  induction M as [|row M IH]; intros [|j]; simpl; auto; now destruct k.
Qed.

Lemma zeros_shape N nT : has_shape N nT (zeros N nT).
Proof.
  split; unfold zeros.
  - apply repeat_length.
  - apply Forall_forall. intros row Hin.
    apply repeat_spec in Hin. subst. apply repeat_length.
Qed.

Lemma get_zeros N nT j k : get (zeros N nT) j k = zero.
Proof.
  unfold get, zeros.
  destruct (le_lt_dec N j) as [Hge|Hlt].
  - rewrite (nth_overflow (repeat _ _)) by (rewrite repeat_length; assumption).
    now destruct k.
  - rewrite nth_repeat_lt by assumption.
    destruct (le_lt_dec nT k).
    + apply nth_overflow. now rewrite repeat_length.
    + now apply nth_repeat_lt.
Qed.

Lemma shape_row N nT (M : matrix num) j :
  has_shape N nT M -> j < N -> length (nth j M []) = nT.
Proof.
  intros [HN Hrows] Hj.
  rewrite Forall_forall in Hrows. apply Hrows, nth_In. lia.
Qed.

Lemma write_column_shape N nT (M : matrix num) k (vals : list num) :
  has_shape N nT M -> length vals = N ->
  has_shape N nT (zip_with (fun row v => update row k v) M vals).
Proof.
  intros [HN Hrows] Hv. split.
  - rewrite zip_with_length; lia.
  - unfold zip_with. apply Forall_forall. intros row Hin.
    apply in_map_iff in Hin. destruct Hin as [[row0 v] [<- Hin]]. simpl.
    rewrite update_length. apply in_combine_l in Hin.
    rewrite Forall_forall in Hrows. now apply Hrows.
Qed.

Lemma write_column_get N nT (M : matrix num) k (vals : list num) j k' :
  has_shape N nT M -> length vals = N -> j < N -> k < nT ->
  get (zip_with (fun row v => update row k v) M vals) j k' =
  if k' =? k then nth j vals zero else get M j k'.
Proof.
  intros HM Hv Hj Hk. unfold get.
  rewrite (zip_with_nth _ M vals [] zero) by (destruct HM; lia).
  destruct (Nat.eqb_spec k' k) as [->|Hne].
  - apply update_nth_eq. now rewrite (shape_row HM Hj).
  - apply update_nth_neq. congruence.
Qed.

Lemma set_entry_shape N nT (M : matrix num) j k c :
  has_shape N nT M -> has_shape N nT (set_entry M j k c).
Proof.
  intros [HN Hrows]. unfold set_entry.
  destruct (le_lt_dec (length M) j) as [Hge|Hlt].
  - rewrite update_overflow by assumption. now split.
  - split; [now rewrite update_length|].
    apply update_Forall; [assumption|].
    rewrite update_length.
    rewrite Forall_forall in Hrows. now apply Hrows, nth_In.
Qed.

Lemma set_entry_get N nT (M : matrix num) j k c j' k' :
  has_shape N nT M -> j < N -> k < nT ->
  get (set_entry M j k c) j' k' =
  if (j' =? j) && (k' =? k) then c else get M j' k'.
Proof.
  intros HM Hj Hk. unfold get, set_entry.
  destruct (Nat.eqb_spec j' j) as [->|Hne]; simpl.
  - rewrite update_nth_eq by (destruct HM; lia).
    destruct (Nat.eqb_spec k' k) as [->|Hne].
    + apply update_nth_eq. now rewrite (shape_row HM Hj).
    + apply update_nth_neq. congruence.
  - rewrite update_nth_neq by congruence. reflexivity.
Qed.

Lemma assign_entries_shape N nT (M : matrix num) idx k c :
  has_shape N nT M -> has_shape N nT (assign_entries M idx k c).
Proof.
  unfold assign_entries. revert M.
  induction idx as [|j idx IH]; simpl; intros M HM; [assumption|].
  apply IH. now apply set_entry_shape.
Qed.

Lemma assign_entries_get N nT (M : matrix num) idx k c j' k' :
  has_shape N nT M -> Forall (fun j => j < N) idx -> k < nT ->
  get (assign_entries M idx k c) j' k' =
  if existsb (Nat.eqb j') idx && (k' =? k) then c else get M j' k'.
Proof.
  unfold assign_entries. intros HM Hidx Hk. revert M HM.
  induction Hidx as [|j idx Hj Hidx IH]; simpl; intros M HM; [reflexivity|].
  rewrite IH by now apply set_entry_shape.
  rewrite (set_entry_get (N:=N) (nT:=nT)) by assumption.
  destruct (existsb (Nat.eqb j') idx), (j' =? j), (k' =? k); reflexivity.
Qed.

Lemma write_column_Forall (P : num -> Prop) (M : matrix num) k (vals : list num) :
  Forall (Forall P) M -> Forall P vals ->
  Forall (Forall P) (zip_with (fun row v => update row k v) M vals).
Proof.
  intros HM Hv. unfold zip_with. apply Forall_forall. intros row Hin.
  apply in_map_iff in Hin. destruct Hin as [[row0 v] [<- Hin]]. simpl.
  rewrite Forall_forall in HM, Hv.
  apply update_Forall.
  - apply HM. eapply in_combine_l; eassumption.
  - apply Hv. eapply in_combine_r; eassumption.
Qed.

Lemma assign_entries_Forall (P : num -> Prop) (M : matrix num) idx k c :
  Forall (Forall P) M -> P c -> Forall (Forall P) (assign_entries M idx k c).
Proof.
  unfold assign_entries. intros HM Hc. revert M HM.
  induction idx as [|j idx IH]; simpl; intros M HM; [assumption|].
  apply IH. unfold set_entry.
  apply update_Forall; [assumption|].
  apply update_Forall; [|assumption].
  apply nth_Forall; [assumption|constructor].
Qed.

End MatrixFacts.

(** * Loops *)

Section ForRange.

Context {S : Type}.

Lemma fold_raise (body : nat -> S -> result S) (l : list nat) (e : exn) :
  fold_left (fun acc i => st' <- acc ;; body i st') l (Raise e) = Raise e.
Proof. induction l as [|i l IH]; simpl; auto. Qed.

Lemma fold_undefined (body : nat -> S -> result S) (l : list nat) :
  fold_left (fun acc i => st' <- acc ;; body i st') l Undefined = Undefined.
Proof. induction l as [|i l IH]; simpl; auto. Qed.

Lemma for_range_invariant (P : nat -> S -> Prop) lo hi body st :
  lo <= hi -> P lo st ->
  (forall i st0, lo <= i < hi -> P i st0 ->
     exists st1, body i st0 = Ok st1 /\ P (Datatypes.S i) st1) ->
  exists st', for_range lo hi body st = Ok st' /\ P hi st'.
Proof.
  intros Hle H0 Hstep. unfold for_range.
  assert (G : forall n, lo + n <= hi ->
            exists st', fold_left (fun acc i => st' <- acc ;; body i st')
                          (seq lo n) (Ok st) = Ok st' /\ P (lo + n) st').
  { induction n as [|n IH]; intros Hn.
    - exists st. rewrite Nat.add_0_r. now split.
    - destruct IH as [st0 [E0 P0]]; [lia|].
      destruct (Hstep (lo + n) st0) as [st1 [E1 P1]]; [lia|assumption|].
      exists st1. rewrite seq_S, fold_left_app, E0. simpl.
      rewrite E1. split; [reflexivity|]. now rewrite Nat.add_succ_r. }
  destruct (G (hi - lo)) as [st' [E HP]]; [lia|].
  exists st'. split; [assumption|].
  now replace hi with (lo + (hi - lo)) by lia.
Qed.

Lemma for_range_preserves (P : S -> Prop) lo hi body st st' :
  P st ->
  (forall i st0 st1, P st0 -> body i st0 = Ok st1 -> P st1) ->
  for_range lo hi body st = Ok st' -> P st'.
Proof.
  intros H0 Hstep. unfold for_range.
  generalize (seq lo (hi - lo)). intros l. revert st H0.
  induction l as [|i l IH]; simpl; intros st H0 E.
  - now inversion E; subst.
  - destruct (body i st) as [st1|e|] eqn:E1.
    + eapply IH; [|eassumption]. eapply Hstep; eassumption.
    + now rewrite fold_raise in E.
    + now rewrite fold_undefined in E.
Qed.

Lemma for_range_ext lo hi (body body' : nat -> S -> result S) st :
  (forall i st0, lo <= i < hi -> body i st0 = body' i st0) ->
  for_range lo hi body st = for_range lo hi body' st.
Proof.
  intros Hext. unfold for_range.
  assert (Hin : forall i, In i (seq lo (hi - lo)) -> lo <= i < hi)
    by (intros i Hi; apply in_seq in Hi; lia).
  revert Hin. generalize (seq lo (hi - lo)) (Ok st).
  intros l. induction l as [|i l IH]; simpl; intros acc Hin; [reflexivity|].
  rewrite IH by (intros; apply Hin; now right).
  destruct acc as [st0|e|]; simpl; [|reflexivity..].
  now rewrite Hext by (apply Hin; now left).
Qed.

End ForRange.

(** * One step of the loop *)

Lemma existsb_selected (mask : list bool) (N j : nat) :
  length mask = N ->
  existsb (Nat.eqb j) (map fst (filter snd (combine (seq 0 N) mask))) =
  (j <? N) && nth j mask false.
Proof.
  intros HN. apply eq_iff_eq_true.
  rewrite existsb_exists, andb_true_iff, Nat.ltb_lt, <- (selected_iff mask j HN).
  split.
  - intros [j0 [Hin Heq]]. apply Nat.eqb_eq in Heq. now subst.
  - intros Hin. exists j. split; [assumption|apply Nat.eqb_refl].
Qed.

Lemma selected_bound (mask : list bool) (N : nat) :
  Forall (fun j => j < N) (map fst (filter snd (combine (seq 0 N) mask))).
Proof.
  apply Forall_forall. intros j Hin.
  apply in_map_iff in Hin. destruct Hin as [[j0 c] [<- Hin]].
  apply filter_In in Hin. destruct Hin as [Hin _].
  apply in_combine_l, in_seq in Hin. simpl. lia.
Qed.

Ltac lens :=
  repeat (rewrite ?zip_with_length, ?length_map, ?column_length; try lia).

Section StepFacts.

Context {num : Type} {dtype : Dtype num}.

Variables (xs Fs b T : list num) (dt : num) (N nT : nat).

Lemma pre_column_length (V : matrix num) i :
  length V = N -> length Fs = N -> length b = N ->
  length (pre_column xs Fs b dt V i) = N.
Proof.
  intros HV HF Hb. unfold pre_column.
  repeat (rewrite ?zip_with_length, ?length_map, ?column_length; try lia).
Qed.

Lemma pre_column_nth (V : matrix num) i j :
  length V = N -> length Fs = N -> length b = N -> j < N ->
  nth j (pre_column xs Fs b dt V i) zero = pre_reset xs Fs b dt V j i.
Proof.
  intros HV HF Hb Hj. unfold pre_column, pre_reset.
  assert (Hc : length (column V (i - 1)) = N) by now rewrite column_length.
  assert (L1 : length (zip_with add (map neg (column V (i - 1)))
                 (map (fun f => mul f (nth (i - 1) xs zero)) Fs)) = N)
    by (rewrite zip_with_length; rewrite !length_map; lia).
  assert (L2 : length (zip_with add (zip_with add (map neg (column V (i - 1)))
                 (map (fun f => mul f (nth (i - 1) xs zero)) Fs)) b) = N)
    by (rewrite zip_with_length; lia).
  rewrite (zip_with_nth _ _ _ zero zero) by (rewrite ?length_map; lia).
  rewrite (nth_map_in (mul dt) zero) by lia.
  rewrite (zip_with_nth _ _ _ zero zero) by lia.
  rewrite (zip_with_nth _ _ _ zero zero) by (rewrite ?length_map; lia).
  rewrite (nth_map_in neg zero) by lia.
  rewrite (nth_map_in (fun f => mul f (nth (i - 1) xs zero)) zero) by lia.
  now rewrite column_nth.
Qed.

Lemma filtered_column_length (s r : matrix num) i :
  length s = length r -> length (filtered_column dt s r i) = length r.
Proof.
  intros Hs. unfold filtered_column.
  repeat (rewrite ?zip_with_length, ?length_map, ?column_length; try lia).
Qed.

Lemma filtered_column_nth (s r : matrix num) i j :
  length s = length r -> j < length r ->
  nth j (filtered_column dt s r i) zero =
  add (add (get r j (i - 1)) (mul dt (neg (get r j (i - 1))))) (get s j (i - 1)).
Proof.
  intros Hs Hj. unfold filtered_column.
  assert (L1 : length (zip_with add (column r (i - 1))
                 (map (mul dt) (map neg (column r (i - 1))))) = length r)
    by (rewrite zip_with_length; rewrite ?length_map, ?column_length; lia).
  rewrite (zip_with_nth _ _ _ zero zero) by (rewrite ?column_length; lia).
  rewrite (zip_with_nth _ _ _ zero zero)
    by (rewrite ?length_map, ?column_length; lia).
  rewrite (nth_map_in (mul dt) zero) by (rewrite length_map, column_length; lia).
  rewrite (nth_map_in neg zero) by (rewrite column_length; lia).
  now rewrite !column_nth.
Qed.

Lemma update_voltage_vec (V : matrix num) i :
  length V = N -> length Fs = N -> length b = N -> i - 1 < length xs ->
  update_voltage (Vec xs) (Vec Fs) b dt i V =
  Ok (zip_with (fun row v => update row i v) V (pre_column xs Fs b dt V i)).
Proof.
  intros HV HF Hb Hi.
  assert (Hlen := pre_column_length V i HV HF Hb).
  unfold update_voltage, pre_column in *. simpl.
  rewrite (nth_error_nth' xs zero Hi). simpl.
  unfold add_, mul_, neg_. simpl.
  rewrite zipB_same_length by lens. simpl.
  rewrite zipB_same_length by lens. simpl.
  rewrite zipB_same_length by lens. simpl.
  unfold assign_column. simpl. unfold fit.
  rewrite HV, Hlen, Nat.eqb_refl. reflexivity.
Qed.

Lemma update_filtered_ok (s r : matrix num) i :
  length s = length r ->
  update_filtered dt i s r =
  Ok (zip_with (fun row v => update row i v) r (filtered_column dt s r i)).
Proof.
  intros Hs.
  assert (Hlen := filtered_column_length s r i Hs).
  unfold update_filtered, filtered_column in *.
  unfold add_, mul_, neg_. simpl.
  rewrite zipB_same_length by lens. simpl.
  rewrite zipB_same_length by lens. simpl. unfold assign_column. simpl. unfold fit.
  rewrite Hlen, Nat.eqb_refl. reflexivity.
Qed.

End StepFacts.

Section LoopFacts.

Context {num : Type} {dtype : Dtype num}.

Variables (xs Fs b T : list num) (dt : num) (N nT : nat).

Hypothesis Hx : length xs = nT.
Hypothesis HF : length Fs = N.
Hypothesis Hb : length b = N.
Hypothesis HT : length T = N.

(** A well-shaped step succeeds, and changes column [i] only. *)
Lemma step_vec (V s r : matrix num) i :
  has_shape N nT V -> has_shape N nT s -> has_shape N nT r -> 1 <= i < nT ->
  exists V' s' r',
    step (Vec xs) (Vec Fs) b T dt N i (V, s, r) = Ok (V', s', r') /\
    has_shape N nT V' /\ has_shape N nT s' /\ has_shape N nT r' /\
    forall j k, j < N ->
      let p := pre_reset xs Fs b dt V j i in
      get V' j k = (if k =? i
                    then if geb p (nth j T zero) then zero else p
                    else get V j k) /\
      get s' j k = (if k =? i
                    then if geb p (nth j T zero) then one else get s j i
                    else get s j k) /\
      get r' j k = (if k =? i
                    then add (add (get r j (i - 1)) (mul dt (neg (get r j (i - 1)))))
                             (get s j (i - 1))
                    else get r j k).
Proof.
  intros HV Hs Hr Hi.
  assert (LV : length V = N) by apply HV.
  assert (Ls : length s = length r) by (destruct Hs, Hr; congruence).
  assert (Lr : length r = N) by apply Hr.
  assert (Lp : length (pre_column xs Fs b dt V i) = N)
    by (apply pre_column_length; assumption).
  assert (Lf : length (filtered_column dt s r i) = length r)
    by (apply filtered_column_length; assumption).
  set (V1 := zip_with (fun row v => update row i v) V (pre_column xs Fs b dt V i)).
  set (r1 := zip_with (fun row v => update row i v) r (filtered_column dt s r i)).
  assert (HV1 : has_shape N nT V1) by (apply write_column_shape; assumption).
  assert (Hr1 : has_shape N nT r1) by (apply write_column_shape; [assumption|lia]).
  set (mask := zip_with geb (column V1 i) T).
  assert (Lm : length mask = N)
    by (unfold mask; rewrite zip_with_length; rewrite column_length;
        destruct HV1; lia).
  set (sp := map fst (filter snd (combine (seq 0 N) mask))).
  exists (assign_entries V1 sp i zero), (assign_entries s sp i one), r1.
  split; [|split; [|split; [|split]]].
  - unfold step.
    rewrite update_voltage_vec with (N:=N) by (assumption || lia).
    cbn [bind]. rewrite update_filtered_ok by assumption. cbn [bind].
    fold V1 r1.
    rewrite zipB_same_length by (rewrite column_length; destruct HV1; lia).
    cbn [bind]. fold mask.
    rewrite bool_index_same_length by now rewrite length_seq.
    reflexivity.
  - now apply assign_entries_shape.
  - now apply assign_entries_shape.
  - assumption.
  - intros j k Hj p.
    assert (Hsel : existsb (Nat.eqb j) sp = geb p (nth j T zero)).
    { unfold sp. rewrite existsb_selected by assumption.
      rewrite (proj2 (Nat.ltb_lt _ _) Hj). simpl.
      unfold mask.
      rewrite (zip_with_nth _ _ _ zero zero)
        by (rewrite ?column_length; destruct HV1; lia).
      rewrite column_nth. unfold V1.
      rewrite write_column_get with (N:=N) (nT:=nT) by (assumption || lia).
      rewrite Nat.eqb_refl.
      now rewrite pre_column_nth with (N:=N) by assumption. }
    rewrite assign_entries_get with (N:=N) (nT:=nT)
      by (assumption || apply selected_bound || lia).
    rewrite assign_entries_get with (N:=N) (nT:=nT)
      by (assumption || apply selected_bound || lia).
    rewrite Hsel. unfold V1, r1.
    rewrite !write_column_get with (N:=N) (nT:=nT) by (assumption || lia).
    rewrite pre_column_nth with (N:=N) by assumption.
    rewrite filtered_column_nth by (assumption || lia).
    fold p.
    destruct (Nat.eqb_spec k i) as [->|Hne]; simpl;
      rewrite ?andb_false_r; destruct (geb p (nth j T zero)); auto.
Qed.

Lemma pre_reset_ext (V V' : matrix num) j i :
  get V' j (i - 1) = get V j (i - 1) ->
  pre_reset xs Fs b dt V' j i = pre_reset xs Fs b dt V j i.
Proof. unfold pre_reset. now intros ->. Qed.

Lemma step_invariant i st :
  1 <= i < nT -> loop_invariant xs Fs b T dt N nT i st ->
  exists st', step (Vec xs) (Vec Fs) b T dt N i st = Ok st' /\
              loop_invariant xs Fs b T dt N nT (S i) st'.
Proof.
  destruct st as [[V s] r]. intros Hi (HV & Hs & Hr & Hzero & Hstored).
  destruct (step_vec HV Hs Hr Hi) as (V' & s' & r' & E & HV' & Hs' & Hr' & Hget).
  exists (V', s', r'). split; [assumption|].
  assert (Hkeep : forall j k, j < N -> k <> i ->
            get V' j k = get V j k /\ get s' j k = get s j k /\
            get r' j k = get r j k).
  { intros j k Hj Hk. destruct (Hget j k Hj) as (EV & Es & Er).
    rewrite (proj2 (Nat.eqb_neq k i) Hk) in EV, Es, Er. now repeat split. }
  split; [assumption|split; [assumption|split; [assumption|split]]].
  - intros j k Hj Hk.
    destruct (Hkeep j k Hj) as (-> & -> & ->); [lia|].
    apply Hzero; [assumption|lia].
  - intros j k Hj Hk.
    destruct (Hkeep j (k - 1) Hj) as (EV1 & Es1 & Er1); [lia|].
    unfold stored. rewrite (pre_reset_ext _ _ _ _ EV1), Es1, Er1.
    destruct (Nat.eq_dec k i) as [->|Hne].
    + destruct (Hget j i Hj) as (EV & Es & Er).
      rewrite Nat.eqb_refl in EV, Es, Er.
      destruct (Hzero j i Hj) as (_ & Z & _); [lia|].
      rewrite Z in Es. now repeat split.
    + destruct (Hkeep j k Hj Hne) as (-> & -> & ->).
      apply Hstored; [assumption|lia].
Qed.

(** The whole run on one-dimensional inputs of matching lengths. *)
Lemma run_vec :
  exists V s r,
    run_LIF_network (Vec xs) (Vec Fs) b T dt = Ok (V, s, r) /\
    has_shape N nT V /\ has_shape N nT s /\ has_shape N nT r /\
    (forall j, j < N ->
       get V j 0 = zero /\ get s j 0 = zero /\ get r j 0 = zero) /\
    (forall j i, j < N -> 1 <= i < nT -> stored xs Fs b T dt V s r j i).
Proof.
  unfold run_LIF_network. simpl. rewrite Hx, HF.
  assert (H0 : loop_invariant xs Fs b T dt N nT 1
                 (zeros N nT, zeros N nT, zeros N nT)).
  { split; [apply zeros_shape|split; [apply zeros_shape|split; [apply zeros_shape|]]].
    split.
    - intros j k _ _. repeat split; apply get_zeros.
    - intros j k _ Hk. lia. }
  destruct (le_lt_dec nT 0) as [Hz|Hpos].
  - exists (zeros N nT), (zeros N nT), (zeros N nT).
    unfold for_range. replace (nT - 1) with 0 by lia. simpl.
    destruct H0 as (HV & Hs & Hr & Hzero & _).
    split; [reflexivity|].
    split; [assumption|split; [assumption|split; [assumption|split]]].
    + intros j Hj. apply Hzero; [assumption|now left].
    + intros j i _ Hi. lia.
  - destruct (@for_range_invariant _ (loop_invariant xs Fs b T dt N nT)
                1 nT (step (Vec xs) (Vec Fs) b T dt N)
                (zeros N nT, zeros N nT, zeros N nT))
      as ([[V s] r] & E & (HV & Hs & Hr & Hzero & Hstored)).
    + lia.
    + exact H0.
    + intros i st Hi Hinv. now apply step_invariant.
    + exists V, s, r.
      split; [assumption|].
      split; [assumption|split; [assumption|split; [assumption|split]]].
      * intros j Hj. apply Hzero; [assumption|now left].
      * intros j i Hj Hi. now apply Hstored.
Qed.

End LoopFacts.

(** * Invariants of every run *)

Section AnyRun.

Context {num : Type} {dtype : Dtype num}.

Variables (P Q : num -> Prop) (dt : num).

Hypothesis P_zero : P zero.
Hypothesis P_one : P one.
Hypothesis Q_zero : Q zero.
Hypothesis Q_step : forall a c, Q a -> P c -> Q (add (add a (mul dt (neg a))) c).

Lemma get_Forall (R : num -> Prop) (M : matrix num) j k :
  Forall (Forall R) M -> R zero -> R (get M j k).
Proof.
  intros HM H0. unfold get. apply nth_Forall; [|assumption].
  apply (nth_Forall (P:=Forall R)); [assumption|constructor].
Qed.

Lemma filtered_column_Forall (s r : matrix num) i :
  length s = length r -> Forall (Forall P) s -> Forall (Forall Q) r ->
  Forall Q (filtered_column dt s r i).
Proof.
  intros Ls Hs Hr. apply Forall_nth. intros j d Hj.
  rewrite filtered_column_length in Hj by assumption.
  rewrite (nth_indep _ d zero) by now rewrite filtered_column_length.
  rewrite filtered_column_nth by assumption.
  apply Q_step; now apply get_Forall.
Qed.

Lemma assign_entries_length (M : matrix num) idx k c :
  length (assign_entries M idx k c) = length M.
Proof.
  unfold assign_entries. revert M.
  induction idx as [|j idx IH]; simpl; intros M; [reflexivity|].
  rewrite IH. unfold set_entry. apply update_length.
Qed.

(** Whatever the inputs, a step that succeeds keeps the spikes in [P] and
    the filtered spikes in [Q]. *)
Lemma step_keeps (x F : ndarray num) (b T : list num) N i
    (V s r V' s' r' : matrix num) :
  step x F b T dt N i (V, s, r) = Ok (V', s', r') ->
  length s = length r -> Forall (Forall P) s -> Forall (Forall Q) r ->
  length s' = length r' /\ Forall (Forall P) s' /\ Forall (Forall Q) r'.
Proof.
  intros E Ls Hs Hr. unfold step in E.
  destruct (update_voltage x F b dt i V) as [V1| |]; [|discriminate..].
  cbn [bind] in E. rewrite update_filtered_ok in E by assumption.
  cbn [bind] in E.
  destruct (zipB _ (column V1 i) T) as [mask| |]; [|discriminate..].
  cbn [bind] in E.
  destruct (bool_index (seq 0 N) mask) as [sp| |]; [|discriminate..].
  cbn [bind] in E. inversion E; subst; clear E.
  split; [|split].
  - rewrite assign_entries_length, zip_with_length;
      rewrite ?filtered_column_length; auto.
  - now apply assign_entries_Forall.
  - apply write_column_Forall; [assumption|].
    now apply filtered_column_Forall.
Qed.

Lemma zeros_Forall (R : num -> Prop) N nT : R zero -> Forall (Forall R) (zeros N nT).
Proof.
  intros H0. unfold zeros. apply Forall_forall. intros row Hin.
  apply repeat_spec in Hin. subst. apply Forall_forall. intros e He.
  apply repeat_spec in He. now subst.
Qed.

Lemma run_keeps (x F : ndarray num) (b T : list num) (V s r : matrix num) :
  run_LIF_network x F b T dt = Ok (V, s, r) ->
  Forall (Forall P) s /\ Forall (Forall Q) r.
Proof.
  unfold run_LIF_network. intros E.
  destruct (len x) as [nT| |]; [|discriminate..]. cbn [bind] in E.
  destruct (len F) as [N| |]; [|discriminate..]. cbn [bind] in E.
  apply (for_range_preserves
           (fun st : matrix num * matrix num * matrix num =>
              let '(_, s0, r0) := st in
              length s0 = length r0 /\ Forall (Forall P) s0 /\ Forall (Forall Q) r0))
    in E.
  - tauto.
  - split; [reflexivity|]. split; now apply zeros_Forall.
  - intros i [[V0 s0] r0] [[V1 s1] r1] (Ls & Hs & Hr) Estep.
    eapply step_keeps; eassumption.
Qed.

End AnyRun.

Lemma zip_with_map_same {A B C D : Type} (h : B -> C -> D) (f : A -> B) (g : A -> C)
    (l : list A) :
  zip_with h (map f l) (map g l) = map (fun a => h (f a) (g a)) l.
Proof.
  unfold zip_with. induction l as [|a l IH]; simpl; [reflexivity|].
  now rewrite IH.
Qed.

Lemma mapM_combine_map {A B C D : Type} (f : B * C -> result D)
    (g : A -> B) (h : A -> C) (k : A -> D) (l : list A) :
  (forall a, f (g a, h a) = Ok (k a)) ->
  mapM f (combine (map g l) (map h l)) = Ok (map k l).
Proof.
  intros Hf. induction l as [|a l IH]; simpl; [reflexivity|].
  now rewrite Hf, IH.
Qed.

(** * Two-dimensional weights *)

Section MatWeights.

Context {A B C : Type}.

Lemma item_rank (a : ndarray A) k xi :
  item a k = Ok xi -> forall m, xi <> Mat m.
Proof.
  destruct a as [c|v|rows]; simpl; intros E m; try discriminate.
  - destruct (nth_error v k); inversion E; discriminate.
  - destruct (nth_error rows k); inversion E; discriminate.
Qed.

Lemma lift2_rows_l (f : A -> B -> C) (m : list (list A)) (y : ndarray B) z :
  (forall n, y <> Mat n) -> lift2 f (Mat m) y = Ok z ->
  exists m', z = Mat m' /\ length m' = length m.
Proof.
  intros Hy. destruct y as [c|w|n]; simpl; intros E.
  - inversion E. eexists; split; [reflexivity|apply length_map].
  - unfold fmap in E.
    destruct (mapM _ m) as [m'| |] eqn:Em; simpl in E; [|discriminate..].
    inversion E. eexists; split; [reflexivity|]. eapply mapM_length, Em.
  - now elim (Hy n).
Qed.

Lemma lift2_rows_r (f : A -> B -> C) (x : ndarray A) (n : list (list B)) z :
  (forall m, x <> Mat m) -> lift2 f x (Mat n) = Ok z ->
  exists n', z = Mat n' /\ length n' = length n.
Proof.
  intros Hx. destruct x as [c|v|m]; simpl; intros E.
  - inversion E. eexists; split; [reflexivity|apply length_map].
  - unfold fmap in E.
    destruct (mapM _ n) as [n'| |] eqn:En; simpl in E; [|discriminate..].
    inversion E. eexists; split; [reflexivity|]. eapply mapM_length, En.
  - now elim (Hx m).
Qed.

Lemma broadcast_to_rows (n : nat) (m : list (list A)) :
  2 <= length m -> broadcast_to n (Mat m) = Raise ValueError.
Proof. destruct m as [|row [|row' m]]; simpl; intros; try lia; reflexivity. Qed.

End MatWeights.

Section MatRun.

Context {num : Type} {dtype : Dtype num}.

(** With two or more rows of weights the right-hand side of the voltage
    update is two-dimensional, and cannot be stored in the column [V[:, i]]. *)
Lemma update_voltage_rows (x : ndarray num) (Fm : list (list num)) b dt i (V : matrix num) :
  2 <= length Fm -> is_ok (update_voltage x (Mat Fm) b dt i V) = false.
Proof.
  intros HK. unfold update_voltage, add_, mul_, neg_.
  destruct (item x (i - 1)) as [xi| |] eqn:Exi; [|reflexivity..]. cbn [bind].
  destruct (lift2 mul (Mat Fm) xi) as [Fx| |] eqn:E1; [|reflexivity..]. cbn [bind].
  apply lift2_rows_l in E1; [|eapply item_rank; eassumption].
  destruct E1 as (m1 & -> & L1).
  destruct (lift2 add _ (Mat m1)) as [t1| |] eqn:E2; [|reflexivity..]. cbn [bind].
  apply lift2_rows_r in E2; [|discriminate]. destruct E2 as (m2 & -> & L2).
  destruct (lift2 add (Mat m2) (Vec b)) as [t2| |] eqn:E3; [|reflexivity..]. cbn [bind].
  apply lift2_rows_l in E3; [|discriminate]. destruct E3 as (m3 & -> & L3).
  destruct (lift2 mul (Scalar dt) (Mat m3)) as [t3| |] eqn:E4; [|reflexivity..]. cbn [bind].
  apply lift2_rows_r in E4; [|discriminate]. destruct E4 as (m4 & -> & L4).
  destruct (lift2 add _ (Mat m4)) as [t4| |] eqn:E5; [|reflexivity..]. cbn [bind].
  apply lift2_rows_r in E5; [|discriminate]. destruct E5 as (m5 & -> & L5).
  unfold assign_column. rewrite broadcast_to_rows by lia. reflexivity.
Qed.

Lemma run_rows (x : ndarray num) (Fm : list (list num)) b T dt nT :
  len x = Ok nT -> 2 <= nT -> 2 <= length Fm ->
  is_ok (run_LIF_network x (Mat Fm) b T dt) = false.
Proof.
  intros Hx HnT HK. unfold run_LIF_network. rewrite Hx. cbn [bind len].
  unfold for_range.
  replace (nT - 1) with (S (nT - 2)) by lia. cbn [seq fold_left bind].
  unfold step at 2.
  pose proof (@update_voltage_rows x Fm b dt 1 (zeros (length Fm) nT) HK) as Hu.
  destruct (update_voltage x (Mat Fm) b dt 1 (zeros (length Fm) nT)) as [V1|e|];
    [discriminate| |]; cbn [bind].
  - now rewrite fold_raise.
  - now rewrite fold_undefined.
Qed.

End MatRun.

(** * The simulator: what a run stores *)

Lemma float_one_neq_zero : (one : float) <> zero.
Proof.
  intros H. apply (f_equal (fun z => PrimFloat.eqb z 0)) in H.
  vm_compute in H. discriminate.
Qed.

(** A voltage exactly at the threshold spikes: with [x = 2], [F = 1],
    [b = 0] and [dt = 0.5] the voltage reaches 1.0, the threshold. *)
Example tie_spikes :
  run_LIF_network (Vec [2; 2]%float) (Vec [1]%float) [0]%float [1]%float 0.5%float
  = Ok ([[0; 0]]%float, [[0; 1]]%float, [[0; 0]]%float).
Proof. vm_compute. reflexivity. Qed.

(** C5: for inputs [x] of length [nT] and a population of [N] neurons ([F],
    [b] and [T] of length [N]), the call returns three arrays of shape
    [(N, nT)], and column 0 of each is zero. *)
Theorem run_LIF_network_shape {num : Type} {dtype : Dtype num}
    (x F b T : list num) (dt : num) :
  length b = length F -> length T = length F ->
  exists V s r,
    run_LIF_network (Vec x) (Vec F) b T dt = Ok (V, s, r) /\
    has_shape (length F) (length x) V /\
    has_shape (length F) (length x) s /\
    has_shape (length F) (length x) r /\
    forall j, j < length F ->
      get V j 0 = zero /\ get s j 0 = zero /\ get r j 0 = zero.
Proof.
  intros Hb HT.
  destruct (run_vec x F b T dt eq_refl eq_refl Hb HT)
    as (V & s & r & E & HV & Hs & Hr & H0 & _).
  exists V, s, r. repeat (split; [assumption|]). assumption.
Qed.

Lemma run_LIF_network_shape_witness :
  exists V s r : matrix float,
    run_LIF_network (Vec [2; 2; 2]%float) (Vec [1; 0.25]%float)
      [0; 0]%float [1; 1]%float 0.5%float = Ok (V, s, r) /\
    has_shape 2 3 V /\ has_shape 2 3 s /\ has_shape 2 3 r /\
    forall j, j < 2 ->
      get V j 0 = 0%float /\ get s j 0 = 0%float /\ get r j 0 = 0%float.
Proof.
  exact (run_LIF_network_shape [2; 2; 2]%float [1; 0.25]%float
           [0; 0]%float [1; 1]%float 0.5%float eq_refl eq_refl).
Defined.

(** C2: at every step [i] in [1..nT-1] and for every neuron [j], a spike is
    recorded exactly when the voltage computed at step [i] is at or above
    the threshold ([>=]); the stored voltage of a spiking neuron is 0, and
    the stored voltage of the others is the computed one. *)
Theorem spike_iff_threshold {num : Type} {dtype : Dtype num}
    (x F b T : list num) (dt : num) :
  one <> zero -> length b = length F -> length T = length F ->
  exists V s r,
    run_LIF_network (Vec x) (Vec F) b T dt = Ok (V, s, r) /\
    forall j i, j < length F -> 1 <= i < length x ->
      let p := pre_reset x F b dt V j i in
      (get s j i = one <-> geb p (nth j T zero) = true) /\
      (geb p (nth j T zero) = true -> get V j i = zero) /\
      (geb p (nth j T zero) = false -> get V j i = p).
Proof.
  intros H01 Hb HT.
  destruct (run_vec x F b T dt eq_refl eq_refl Hb HT)
    as (V & s & r & E & _ & _ & _ & _ & Hst).
  exists V, s, r. split; [assumption|].
  intros j i Hj Hi p. destruct (Hst j i Hj Hi) as (EV & Es & _).
  fold p in EV, Es. rewrite EV, Es.
  destruct (geb p (nth j T zero)); intuition congruence.
Qed.

Lemma spike_iff_threshold_witness :
  exists V s r : matrix float,
    run_LIF_network (Vec [2; 2; 2]%float) (Vec [1; 0.25]%float)
      [0; 0]%float [1; 1]%float 0.5%float = Ok (V, s, r) /\
    forall j i, j < 2 -> 1 <= i < 3 ->
      let p := pre_reset [2; 2; 2]%float [1; 0.25]%float [0; 0]%float 0.5%float V j i in
      (get s j i = 1%float <-> PrimFloat.leb (nth j [1; 1]%float 0%float) p = true) /\
      (PrimFloat.leb (nth j [1; 1]%float 0%float) p = true -> get V j i = 0%float) /\
      (PrimFloat.leb (nth j [1; 1]%float 0%float) p = false -> get V j i = p).
Proof.
  exact (spike_iff_threshold [2; 2; 2]%float [1; 0.25]%float
           [0; 0]%float [1; 1]%float 0.5%float
           float_one_neq_zero eq_refl eq_refl).
Defined.

(** C3: at every step [i] in [1..nT-1] and for every neuron, the filtered
    spike train is [r[i] = r[i-1] + dt*(-r[i-1]) + s[i-1]]: the spike of the
    previous step enters as it is, not multiplied by [dt]. *)
Theorem filtered_rate_recurrence {num : Type} {dtype : Dtype num}
    (x F b T : list num) (dt : num) :
  length b = length F -> length T = length F ->
  exists V s r,
    run_LIF_network (Vec x) (Vec F) b T dt = Ok (V, s, r) /\
    forall j i, j < length F -> 1 <= i < length x ->
      get r j i =
      add (add (get r j (i - 1)) (mul dt (neg (get r j (i - 1)))))
          (get s j (i - 1)).
Proof.
  intros Hb HT.
  destruct (run_vec x F b T dt eq_refl eq_refl Hb HT)
    as (V & s & r & E & _ & _ & _ & _ & Hst).
  exists V, s, r. split; [assumption|].
  intros j i Hj Hi. now destruct (Hst j i Hj Hi) as (_ & _ & Er).
Qed.

Lemma filtered_rate_recurrence_witness :
  exists V s r : matrix float,
    run_LIF_network (Vec [2; 2; 2]%float) (Vec [1; 0.25]%float)
      [0; 0]%float [1; 1]%float 0.5%float = Ok (V, s, r) /\
    forall j i, j < 2 -> 1 <= i < 3 ->
      get r j i =
      (get r j (i - 1) + 0.5 * (- get r j (i - 1)) + get s j (i - 1))%float.
Proof.
  exact (filtered_rate_recurrence [2; 2; 2]%float [1; 0.25]%float
           [0; 0]%float [1; 1]%float 0.5%float eq_refl eq_refl).
Defined.

(** C4, as stated, fails at a spike: with [x = 2], [F = 1], [b = 0], [T = 1]
    and [dt = 1] the update gives [0 + 1*(-0 + 1*2 + 0) = 2 >= 1] at step 1,
    and the stored voltage is the reset value 0, not 2. *)
Lemma stored_voltage_counterexample :
  run_LIF_network (Vec [2; 2]%float) (Vec [1]%float) [0]%float [1]%float 1%float
  = Ok ([[0; 0]]%float, [[0; 1]]%float, [[0; 0]]%float) /\
  pre_reset [2; 2]%float [1]%float [0]%float 1%float [[0; 0]]%float 0 1 = 2%float /\
  get [[0; 0]]%float 0 1 <> pre_reset [2; 2]%float [1]%float [0]%float 1%float [[0; 0]]%float 0 1.
Proof.
  split; [vm_compute; reflexivity|]. split; [vm_compute; reflexivity|].
  intros H. apply (f_equal (fun z => PrimFloat.eqb z 0)) in H.
  vm_compute in H. discriminate.
Qed.

(** C4, amended: at every step [i] in [1..nT-1] the voltage computed for
    neuron [j] is [V[i-1] + dt*(-V[i-1] + F*x[i-1] + b)], from the stored
    voltage of step [i-1]; the stored [V[i]] is that value for every neuron
    that does not reach its threshold at step [i], and 0 for the others. *)
Theorem stored_voltage {num : Type} {dtype : Dtype num}
    (x F b T : list num) (dt : num) :
  length b = length F -> length T = length F ->
  exists V s r,
    run_LIF_network (Vec x) (Vec F) b T dt = Ok (V, s, r) /\
    forall j i, j < length F -> 1 <= i < length x ->
      let p := add (get V j (i - 1))
                 (mul dt (add (add (neg (get V j (i - 1)))
                                   (mul (nth j F zero) (nth (i - 1) x zero)))
                              (nth j b zero))) in
      get V j i = if geb p (nth j T zero) then zero else p.
Proof.
  intros Hb HT.
  destruct (run_vec x F b T dt eq_refl eq_refl Hb HT)
    as (V & s & r & E & _ & _ & _ & _ & Hst).
  exists V, s, r. split; [assumption|].
  intros j i Hj Hi. now destruct (Hst j i Hj Hi) as (EV & _ & _).
Qed.

Lemma stored_voltage_witness :
  exists V s r : matrix float,
    run_LIF_network (Vec [2; 2; 2]%float) (Vec [1; 0.25]%float)
      [0; 0]%float [1; 1]%float 0.5%float = Ok (V, s, r) /\
    forall j i, j < 2 -> 1 <= i < 3 ->
      let p := (get V j (i - 1)
                + 0.5 * (- get V j (i - 1)
                         + nth j [1; 0.25] 0 * nth (i - 1) [2; 2; 2] 0
                         + nth j [0; 0] 0))%float in
      get V j i = if PrimFloat.leb (nth j [1; 1]%float 0%float) p then 0%float else p.
Proof.
  exact (stored_voltage [2; 2; 2]%float [1; 0.25]%float
           [0; 0]%float [1; 1]%float 0.5%float eq_refl eq_refl).
Defined.

(** C7: the comment at the call site promises input signals of shape
    [(K, nT)] with weights of shape [(K, N)]; the function does not keep
    it.  It takes [nT = len(x) = K] and [N = len(F) = K].  For [K >= 2]
    the product [F*x[0]] is two-dimensional (or does not broadcast) and
    cannot be stored in the column [V[:, 1]]: the first iteration fails
    and no call returns, for any element type; for the shapes [(2, 3)] and
    [(2, 2)] it raises a [ValueError].  For [K = 1] the loop is empty and
    the call returns three [1 x 1] arrays of zeros, whatever [nT] and [N]
    are (here [nT = 3], [N = 2]). *)
Theorem multi_dimensional_input_fails :
  (forall (num : Type) (dtype : Dtype num) (xm Fm : list (list num))
          (b T : list num) (dt : num),
     length xm = length Fm -> 2 <= length Fm ->
     is_ok (run_LIF_network (Mat xm) (Mat Fm) b T dt) = false) /\
  run_LIF_network (Mat [[2; 2; 2]; [2; 2; 2]]%float)
    (Mat [[1; 0.25]; [1; 0.25]]%float) [0; 0]%float [1; 1]%float 0.5%float
  = Raise ValueError /\
  run_LIF_network (Mat [[2; 2; 2]]%float)
    (Mat [[1; 0.25]]%float) [0; 0]%float [1; 1]%float 0.5%float
  = Ok ([[0]], [[0]], [[0]])%float.
Proof.
  split; [|split; vm_compute; reflexivity].
  intros num dtype xm Fm b T dt HK H2.
  apply run_rows with (nT := length xm); [reflexivity|lia|assumption].
Qed.

(** C9: the last element of the input is never read: two inputs of the
    same length that agree on all but the last index give the same result
    (the same three arrays, or the same exception). *)
Theorem last_input_unused {num : Type} {dtype : Dtype num}
    (x x' : list num) (F : ndarray num) (b T : list num) (dt : num) :
  length x = length x' ->
  firstn (length x - 1) x = firstn (length x - 1) x' ->
  run_LIF_network (Vec x) F b T dt = run_LIF_network (Vec x') F b T dt.
Proof.
  intros Hlen Hpre. unfold run_LIF_network. cbn [len bind].
  rewrite <- Hlen.
  destruct (len F) as [N|e|]; [|reflexivity..]. cbn [bind].
  apply for_range_ext. intros i [[V s] r] Hi.
  unfold step, update_voltage. cbn [item].
  replace (nth_error x' (i - 1)) with (nth_error x (i - 1)); [reflexivity|].
  rewrite <- (firstn_skipn (length x - 1) x) at 1.
  rewrite <- (firstn_skipn (length x - 1) x') at 1.
  rewrite Hpre.
  assert (Hlt : i - 1 < length (firstn (length x - 1) x'))
    by (rewrite length_firstn; lia).
  now rewrite !nth_error_app1 by assumption.
Qed.

Lemma last_input_unused_witness :
  run_LIF_network (Vec [2; 2; 7]%float) (Vec [1; 0.25]%float)
    [0; 0]%float [1; 1]%float 0.5%float
  = run_LIF_network (Vec [2; 2; 9]%float) (Vec [1; 0.25]%float)
      [0; 0]%float [1; 1]%float 0.5%float.
Proof.
  exact (last_input_unused [2; 2; 7]%float [2; 2; 9]%float
           (Vec [1; 0.25]%float) [0; 0]%float [1; 1]%float 0.5%float
           eq_refl eq_refl).
Defined.

(** * binary64: rounding *)

(** The operations of [SpecFloat] return a number next to the exact
    result: every number of the format below the exact result is below the
    returned one, and every number of the format above it is above
    ([rounded]).  This is proved of the rounding function, and from it of
    the four operations. *)

Unset Implicit Arguments.

(** ** Powers of two *)

Section Pow.
Local Open Scope R_scope.

Lemma bpow_pos e : 0 < bpow e.
Proof. apply powerRZ_lt. lra. Qed.

Lemma bpow_add a b : bpow (a + b) = bpow a * bpow b.
Proof. apply powerRZ_add. lra. Qed.

Lemma bpow_0 : bpow 0 = 1.
Proof. reflexivity. Qed.

Lemma bpow_1 : bpow 1 = 2.
Proof. unfold bpow. simpl. lra. Qed.

Lemma bpow_succ e : bpow (e + 1) = 2 * bpow e.
Proof. rewrite bpow_add, bpow_1. lra. Qed.

Lemma bpow_IZR k : (0 <= k)%Z -> bpow k = IZR (2 ^ k).
Proof.
  intros H. unfold bpow.
  rewrite <- (Z2Nat.id k H). rewrite <- pow_powerRZ.
  now rewrite pow_IZR.
Qed.

Lemma bpow_ge_1 k : (0 <= k)%Z -> 1 <= bpow k.
Proof.
  intros H. rewrite bpow_IZR by assumption. apply IZR_le.
  assert (0 < 2 ^ k)%Z by (apply Z.pow_pos_nonneg; lia). lia.
Qed.

Lemma bpow_le a b : (a <= b)%Z -> bpow a <= bpow b.
Proof.
  intros H. replace b with (a + (b - a))%Z by lia. rewrite bpow_add.
  pose proof (bpow_ge_1 (b - a) ltac:(lia)). pose proof (bpow_pos a). nra.
Qed.

Lemma bpow_lt a b : (a < b)%Z -> bpow a < bpow b.
Proof.
  intros H. replace b with (a + 1 + (b - a - 1))%Z by lia.
  rewrite bpow_add, bpow_succ.
  pose proof (bpow_ge_1 (b - a - 1) ltac:(lia)).
  pose proof (bpow_pos a). nra.
Qed.

Lemma bpow_lt_inv a b : bpow a < bpow b -> (a < b)%Z.
Proof.
  intros H. destruct (Z_lt_le_dec a b) as [L|L]; [assumption|].
  apply bpow_le in L. lra.
Qed.

Lemma F2R_0 e : F2R 0 e = 0.
Proof. unfold F2R. lra. Qed.

Lemma F2R_succ_exp m e : F2R m (e + 1) = F2R (2 * m) e.
Proof. unfold F2R. rewrite bpow_succ, mult_IZR. lra. Qed.

Lemma F2R_le m m' e : (m <= m')%Z -> F2R m e <= F2R m' e.
Proof.
  intros H. unfold F2R. apply IZR_le in H. pose proof (bpow_pos e). nra.
Qed.

Lemma F2R_lt m m' e : (m < m')%Z -> F2R m e < F2R m' e.
Proof.
  intros H. unfold F2R. apply IZR_lt in H. pose proof (bpow_pos e). nra.
Qed.

Lemma F2R_lt_inv m m' e : F2R m e < F2R m' e -> (m < m')%Z.
Proof.
  intros H. destruct (Z_lt_le_dec m m') as [L|L]; [assumption|].
  apply (F2R_le _ _ e) in L. lra.
Qed.

Lemma F2R_le_inv m m' e : F2R m e <= F2R m' e -> (m <= m')%Z.
Proof.
  intros H. destruct (Z_le_gt_dec m m') as [L|L]; [assumption|].
  assert (m' < m)%Z by lia. apply (F2R_lt _ _ e) in H0. lra.
Qed.

(** Moving a factor [2^k] between mantissa and exponent. *)
Lemma F2R_shift m e k : (0 <= k)%Z -> F2R (m * 2 ^ k) e = F2R m (e + k).
Proof.
  intros H. unfold F2R. rewrite mult_IZR, bpow_add, <- bpow_IZR by assumption. lra.
Qed.

End Pow.

(** ** Digits *)

Lemma digits2_pos_spec p :
  (2 ^ (Zpos (digits2_pos p) - 1) <= Zpos p < 2 ^ Zpos (digits2_pos p))%Z.
Proof.
  induction p as [p IH|p IH|]; cbn [digits2_pos].
  - rewrite Pos2Z.inj_succ.
    replace (Z.succ (Zpos (digits2_pos p)) - 1)%Z
      with (Z.succ (Zpos (digits2_pos p) - 1)) by lia.
    rewrite !Z.pow_succ_r by lia. lia.
  - rewrite Pos2Z.inj_succ.
    replace (Z.succ (Zpos (digits2_pos p)) - 1)%Z
      with (Z.succ (Zpos (digits2_pos p) - 1)) by lia.
    rewrite !Z.pow_succ_r by lia. lia.
  - simpl. lia.
Qed.

Lemma Zdigits2_nonneg m : (0 <= Zdigits2 m)%Z.
Proof. destruct m; simpl; lia. Qed.

Lemma Zdigits2_bpow m :
  (0 < m)%Z -> (bpow (Zdigits2 m - 1) <= IZR m < bpow (Zdigits2 m))%R.
Proof.
  intros H. destruct m as [|p|p]; try lia. cbn [Zdigits2].
  pose proof (digits2_pos_spec p) as [L U].
  rewrite !bpow_IZR by lia. split; [apply IZR_le|apply IZR_lt]; assumption.
Qed.

Lemma Zdigits2_upper m : (0 <= m)%Z -> (IZR m < bpow (Zdigits2 m))%R.
Proof.
  intros H. destruct (Z.eq_dec m 0) as [->|Hne].
  - cbn [Zdigits2]. rewrite bpow_0. lra.
  - apply Zdigits2_bpow. lia.
Qed.

(** A lower bound on the value gives a lower bound on the digits. *)
Lemma Zdigits2_ge m k : (0 <= m)%Z -> (bpow k <= IZR m)%R -> (k < Zdigits2 m)%Z.
Proof.
  intros H L. apply bpow_lt_inv.
  pose proof (Zdigits2_upper m H). lra.
Qed.

Lemma Zdigits2_le m k : (0 < m)%Z -> (IZR m < bpow k)%R -> (Zdigits2 m <= k)%Z.
Proof.
  intros H U.
  pose proof (Zdigits2_bpow m H) as [L _].
  assert (B : (bpow (Zdigits2 m - 1) < bpow k)%R) by lra.
  apply bpow_lt_inv in B. lia.
Qed.

(** ** Locations *)

Lemma rec_exact_of_loc m l : rec_exact (shr_record_of_loc m l) = loc_exact l.
Proof. destruct l as [|[| |]]; reflexivity. Qed.

Lemma shr_m_of_loc m l : shr_m (shr_record_of_loc m l) = m.
Proof. destruct l as [|[| |]]; reflexivity. Qed.

Lemma loc_exact_of_rec r : loc_exact (loc_of_shr_record r) = rec_exact r.
Proof. destruct r as [m [|] [|]]; reflexivity. Qed.

Lemma shr_1_located v e r :
  located v (shr_m r) e (rec_exact r) ->
  located v (shr_m (shr_1 r)) (e + 1) (rec_exact (shr_1 r)).
Proof.
  destruct r as [m r s]. unfold located, rec_exact. cbn [shr_m shr_r shr_s].
  intros (Hm & Hv & Hx).
  assert (E : forall k, F2R k (e + 1) = F2R (2 * k) e) by (intros; apply F2R_succ_exp).
  pose proof (bpow_pos e) as Hb.
  destruct m as [|[p|p|]|p]; try lia; cbn [shr_1 shr_m shr_r shr_s].
  - (* 0 *)
    split; [lia|]. rewrite !E. split.
    + split.
      * replace (2 * 0)%Z with 0%Z by lia. tauto.
      * apply Rlt_le_trans with (F2R (0 + 1) e); [tauto|apply F2R_le; lia].
    + replace (2 * 0)%Z with 0%Z by lia.
      rewrite <- Hx. simpl. destruct (r || s); simpl; tauto.
  - (* 2p+1 *)
    split; [lia|]. rewrite !E. split.
    + split.
      * apply Rle_trans with (F2R (Zpos p~1) e); [apply F2R_le; lia|tauto].
      * replace (2 * (Zpos p + 1))%Z with (Zpos p~1 + 1)%Z by lia. tauto.
    + split; [discriminate|]. intros Ev. exfalso.
      assert (F2R (2 * Zpos p) e < F2R (Zpos p~1) e)%R by (apply F2R_lt; lia). lra.
  - (* 2p *)
    split; [lia|]. rewrite !E. split.
    + split.
      * replace (2 * Zpos p)%Z with (Zpos p~0) by lia. tauto.
      * apply Rlt_le_trans with (F2R (Zpos p~0 + 1) e); [tauto|apply F2R_le; lia].
    + replace (2 * Zpos p)%Z with (Zpos p~0) by lia.
      rewrite <- Hx. simpl. destruct (r || s); simpl; tauto.
  - (* 1 *)
    split; [lia|]. rewrite !E. split.
    + split.
      * apply Rle_trans with (F2R 1 e); [apply F2R_le; lia|tauto].
      * replace (2 * (0 + 1))%Z with (1 + 1)%Z by lia. tauto.
    + split; [discriminate|]. intros Ev. exfalso.
      assert (F2R (2 * 0) e < F2R 1 e)%R by (apply F2R_lt; lia). lra.
Qed.

Lemma iter_shr_located p : forall v e r,
  located v (shr_m r) e (rec_exact r) ->
  located v (shr_m (iter_pos shr_1 p r)) (e + Zpos p)
    (rec_exact (iter_pos shr_1 p r)).
Proof.
  induction p as [p IH|p IH|]; intros v e r H; cbn [iter_pos].
  - apply shr_1_located in H. apply IH in H. apply IH in H.
    replace (e + Zpos p~1)%Z with (e + 1 + Zpos p + Zpos p)%Z by lia. exact H.
  - apply IH in H. apply IH in H.
    replace (e + Zpos p~0)%Z with (e + Zpos p + Zpos p)%Z by lia. exact H.
  - now apply shr_1_located.
Qed.

(** Shifting to a larger exponent keeps the location. *)
Lemma shr_located v m e l n :
  located v m e (loc_exact l) -> (0 <= n)%Z ->
  let '(r, e') := shr (shr_record_of_loc m l) e n in
  e' = (e + n)%Z /\ located v (shr_m r) e' (rec_exact r).
Proof.
  intros H Hn. unfold shr. destruct n as [|p|p]; try lia.
  - split; [lia|]. now rewrite shr_m_of_loc, rec_exact_of_loc.
  - split; [reflexivity|]. apply iter_shr_located.
    now rewrite shr_m_of_loc, rec_exact_of_loc.
Qed.

Lemma round_nearest_even_spec m l :
  (m <= round_nearest_even m l <= m + 1)%Z /\
  (loc_exact l = true -> round_nearest_even m l = m).
Proof.
  destruct l as [|[| |]]; simpl; try (split; [lia|auto; discriminate]).
  destruct (Z.even m); split; try lia; discriminate.
Qed.

(** ** The format *)

Lemma fexp64_eq e : fexp64 e = Z.max (e - 53) (-1074).
Proof. reflexivity. Qed.

Lemma bounded_spec m e :
  bounded prec emax m e = true ->
  (-1074 <= e <= 971)%Z /\ (Zpos (digits2_pos m) <= 53)%Z /\
  (e = (-1074)%Z \/ Zpos (digits2_pos m) = 53%Z).
Proof.
  unfold bounded, canonical_mantissa. rewrite andb_true_iff, Z.eqb_eq, Z.leb_le.
  rewrite fexp64_eq. change (emax - prec)%Z with 971%Z. lia.
Qed.

Lemma Rep_pos f : Rep f -> (0 < f)%R.
Proof.
  intros (m & e & _ & ->). unfold F2R.
  assert (0 < IZR (Zpos m))%R by (apply IZR_lt; lia).
  pose proof (bpow_pos e). nra.
Qed.

(** A number of the format on the grid of step [2^e1], or below [2^(52+e1)]. *)
Lemma Rep_grid f e1 :
  Rep f -> (-1074 <= e1)%Z ->
  (exists k, (0 < k)%Z /\ f = F2R k e1) \/
  ((-1074 < e1)%Z /\ (f < bpow (52 + e1))%R).
Proof.
  intros (m & e & Hb & ->) He1. apply bounded_spec in Hb.
  destruct Hb as (He & Hd & Hc).
  destruct (Z_le_gt_dec e1 e) as [L|L].
  - left. exists (Zpos m * 2 ^ (e - e1))%Z. split.
    + assert (0 < 2 ^ (e - e1))%Z by (apply Z.pow_pos_nonneg; lia). lia.
    + rewrite F2R_shift by lia. f_equal. lia.
  - right. split; [lia|].
    pose proof (Zdigits2_upper (Zpos m) ltac:(lia)) as U. cbn [Zdigits2] in U.
    unfold F2R. pose proof (bpow_pos e).
    apply Rlt_le_trans with (bpow (Zpos (digits2_pos m)) * bpow e)%R; [nra|].
    rewrite <- bpow_add. apply bpow_le. lia.
Qed.

Lemma binary_round_aux_rounded s mx ex lx v :
  located v mx ex (loc_exact lx) ->
  (ex <= fexp64 (Zdigits2 mx + ex))%Z ->
  rounded s v (binary_round_aux prec emax s mx ex lx).
Proof.
  intros Hloc Hn. unfold binary_round_aux, shr_fexp.
  set (e1 := fexp64 (Zdigits2 mx + ex)) in *.
  assert (Hmx : (0 <= mx)%Z) by apply Hloc.
  pose proof (@shr_located v mx ex lx (e1 - ex) Hloc ltac:(lia)) as H1.
  destruct (shr (shr_record_of_loc mx lx) ex (e1 - ex)) as [r1 e'].
  destruct H1 as [Ee' (Hm' & Hv' & Hx')].
  replace (ex + (e1 - ex))%Z with e1 in Ee' by lia. subst e'.
  set (m' := shr_m r1) in *.
  assert (He1 : (-1074 <= e1)%Z) by (unfold e1; rewrite fexp64_eq; lia).
  pose proof (bpow_pos e1) as Hb1.
  (* the shifted mantissa has 53 digits unless the exponent is the least one *)
  assert (Hlow : e1 = (-1074)%Z \/ (2 ^ 52 <= m')%Z).
  { destruct (Z.eq_dec e1 (-1074)) as [|Hne]; [now left|right].
    assert (Hpos : (0 < mx)%Z).
    { destruct (Z.eq_dec mx 0) as [->|]; [|lia].
      unfold e1 in Hne, Hn. rewrite fexp64_eq in Hne, Hn. cbn [Zdigits2] in Hne, Hn. lia. }
    assert (Ee1 : e1 = (Zdigits2 mx + ex - 53)%Z)
      by (unfold e1 in *; rewrite fexp64_eq in *; lia).
    pose proof (Zdigits2_bpow mx Hpos) as [L _].
    assert (bpow (52 + e1) <= v)%R.
    { apply Rle_trans with (F2R mx ex); [|apply Hloc].
      unfold F2R. replace (52 + e1)%Z with (Zdigits2 mx - 1 + ex)%Z by lia.
      rewrite bpow_add. pose proof (bpow_pos ex). nra. }
    assert (F2R (2 ^ 52) e1 < F2R (m' + 1) e1)%R.
    { unfold F2R at 1. rewrite <- bpow_IZR, <- bpow_add by lia. lra. }
    apply F2R_lt_inv in H0. lia. }
  assert (Hup : (m' < 2 ^ 53)%Z).
  { apply (F2R_lt_inv _ _ e1).
    apply Rle_lt_trans with v; [tauto|].
    apply Rlt_le_trans with (F2R (mx + 1) ex); [apply Hloc|].
    unfold F2R at 2. rewrite <- bpow_IZR, <- bpow_add by lia.
    apply Rle_trans with (bpow (Zdigits2 mx + ex)).
    - rewrite bpow_add. unfold F2R. pose proof (bpow_pos ex).
      assert (IZR (mx + 1) <= bpow (Zdigits2 mx))%R.
      { rewrite bpow_IZR by apply Zdigits2_nonneg. apply IZR_le.
        assert (mx < 2 ^ Zdigits2 mx)%Z; [|lia].
        apply lt_IZR. rewrite <- bpow_IZR by apply Zdigits2_nonneg.
        now apply Zdigits2_upper. }
      nra.
    - apply bpow_le. unfold e1. rewrite fexp64_eq. lia. }
  destruct (round_nearest_even_spec m' (loc_of_shr_record r1)) as [Hr Hrx].
  rewrite loc_exact_of_rec in Hrx.
  set (m1 := round_nearest_even m' (loc_of_shr_record r1)) in *.
  assert (Hstrict : m1 = (m' + 1)%Z -> (F2R m' e1 < v)%R).
  { intros E. destruct (rec_exact r1) eqn:X.
    - specialize (Hrx eq_refl). lia.
    - destruct (Req_dec v (F2R m' e1)) as [Ev|Ev].
      + apply Hx' in Ev. discriminate.
      + lra. }
  (* the magnitude of the result, between the neighbours of v *)
  assert (Blow : forall f, Rep f -> (f <= v)%R -> (f <= F2R m1 e1)%R).
  { intros f Hf Hfv. apply Rle_trans with (F2R m' e1); [|apply F2R_le; lia].
    destruct (Rep_grid f e1 Hf He1) as [(k & Hk & ->)|[Hgt Hsmall]].
    - apply F2R_le. assert (F2R k e1 < F2R (m' + 1) e1)%R by lra.
      apply F2R_lt_inv in H. lia.
    - destruct Hlow as [E|L]; [lia|].
      left. apply Rlt_le_trans with (1 := Hsmall).
      rewrite bpow_add, bpow_IZR by lia. unfold F2R.
      apply IZR_le in L. nra. }
  assert (Bup : forall f, Rep f -> (v <= f)%R -> (F2R m1 e1 <= f)%R).
  { intros f Hf Hfv.
    assert (Hcase : m1 = m' \/ m1 = (m' + 1)%Z) by lia.
    destruct Hcase as [->|E]; [lra|].
    specialize (Hstrict E). rewrite E.
    destruct (Rep_grid f e1 Hf He1) as [(k & Hk & ->)|[Hgt Hsmall]].
    - apply F2R_le. assert (F2R m' e1 < F2R k e1)%R by lra.
      apply F2R_lt_inv in H. lia.
    - exfalso. destruct Hlow as [E'|L]; [lia|].
      assert (bpow (52 + e1) <= F2R m' e1)%R.
      { rewrite bpow_add, bpow_IZR by lia. unfold F2R. apply IZR_le in L. nra. }
      lra. }
  (* the second shift *)
  assert (Hm1 : (0 <= m1 <= 2 ^ 53)%Z) by lia.
  destruct (Z.eq_dec m1 (2 ^ 53)) as [E53|N53].
  - (* a carry: one more shift *)
    rewrite E53 in *.
    assert (E2 : (fexp64 (Zdigits2 (2 ^ 53) + e1) - e1 = 1)%Z)
      by (rewrite fexp64_eq; change (Zdigits2 (2 ^ 53)) with 54%Z; lia).
    assert (Eshr : shr_m (shr_1 (shr_record_of_loc (2 ^ 53) loc_Exact))
                   = Zpos 4503599627370496) by reflexivity.
    rewrite E2. unfold shr. cbn [iter_pos]. rewrite Eshr. cbv iota.
    assert (Ev : F2R (2 ^ 53) e1 = F2R (Zpos 4503599627370496) (e1 + 1)).
    { rewrite F2R_succ_exp. reflexivity. }
    destruct (Z.leb_spec (e1 + 1) (emax - prec)) as [Hle|Hgt].
    + apply rounded_finite; intros f Hf Hfv; rewrite <- Ev; auto.
    + apply rounded_infinity. intros f Hf Hfv.
      specialize (Bup f Hf Hfv). rewrite Ev in Bup.
      destruct Hf as (mf & ef & Hbf & ->). apply bounded_spec in Hbf.
      destruct Hbf as (Hef & Hdf & _).
      pose proof (Zdigits2_upper (Zpos mf) ltac:(lia)) as U. cbn [Zdigits2] in U.
      change (emax - prec)%Z with 971%Z in Hgt.
      assert (F2R (Zpos mf) ef < bpow 1024)%R.
      { unfold F2R. pose proof (bpow_pos ef).
        apply Rlt_le_trans with (bpow (Zpos (digits2_pos mf)) * bpow ef)%R; [nra|].
        rewrite <- bpow_add. apply bpow_le. lia. }
      assert (bpow 1024 <= F2R (Zpos 4503599627370496) (e1 + 1))%R.
      { change (Zpos 4503599627370496) with (2 ^ 52)%Z.
        unfold F2R. rewrite <- bpow_IZR, <- bpow_add by lia. apply bpow_le. lia. }
      lra.
  - (* no carry: the exponent stays *)
    assert (E2 : (fexp64 (Zdigits2 m1 + e1) - e1 <= 0)%Z).
    { rewrite fexp64_eq.
      destruct (Z.eq_dec m1 0) as [->|Hne]; [cbn [Zdigits2]; lia|].
      assert (Zdigits2 m1 <= 53)%Z; [|lia].
      apply Zdigits2_le; [lia|]. rewrite bpow_IZR by lia. apply IZR_lt. lia. }
    assert (Es : shr (shr_record_of_loc m1 loc_Exact) e1
                   (fexp64 (Zdigits2 m1 + e1) - e1)
                 = (shr_record_of_loc m1 loc_Exact, e1)).
    { unfold shr. destruct (fexp64 (Zdigits2 m1 + e1) - e1)%Z; try reflexivity. lia. }
    rewrite Es. cbn [shr_record_of_loc shr_m].
    destruct m1 as [|p|p]; try lia.
    + apply rounded_zero. intros f Hf Hfv.
      specialize (Blow f Hf Hfv). rewrite F2R_0 in Blow.
      apply Rep_pos in Hf. lra.
    + destruct (Z.leb_spec e1 (emax - prec)) as [Hle|Hgt].
      * now apply rounded_finite.
      * apply rounded_infinity. intros f Hf Hfv.
        specialize (Bup f Hf Hfv).
        destruct Hf as (mf & ef & Hbf & ->). apply bounded_spec in Hbf.
        destruct Hbf as (Hef & Hdf & _).
        pose proof (Zdigits2_upper (Zpos mf) ltac:(lia)) as U. cbn [Zdigits2] in U.
        change (emax - prec)%Z with 971%Z in Hgt.
        assert (F2R (Zpos mf) ef < bpow 1024)%R.
        { unfold F2R. pose proof (bpow_pos ef).
          apply Rlt_le_trans with (bpow (Zpos (digits2_pos mf)) * bpow ef)%R; [nra|].
          rewrite <- bpow_add. apply bpow_le. lia. }
        assert (bpow 1024 <= F2R (Zpos p) e1)%R.
        { destruct Hlow as [E|L]; [lia|].
          unfold F2R. apply Rle_trans with (IZR (2 ^ 52) * bpow e1)%R.
          - rewrite <- bpow_IZR, <- bpow_add by lia. apply bpow_le. lia.
          - assert (2 ^ 52 <= Zpos p)%Z by lia. apply IZR_le in H0. nra. }
        lra.
Qed.

(** ** Rounding an exact value *)

Lemma iter_xO m d : Zpos (Pos.iter xO m d) = (Zpos m * 2 ^ Zpos d)%Z.
Proof.
  induction d as [|d IH] using Pos.peano_ind.
  - simpl. lia.
  - rewrite Pos.iter_succ, Pos2Z.inj_succ, Z.pow_succ_r by lia.
    rewrite Pos2Z.inj_xO, IH. lia.
Qed.

Lemma shl_align_spec mx ex e' :
  let '(mz, ez) := shl_align mx ex e' in
  ez = Z.min ex e' /\ Zpos mz = (Zpos mx * 2 ^ (ex - ez))%Z.
Proof.
  unfold shl_align. destruct (e' - ex)%Z as [|d|d] eqn:E.
  - split; [lia|]. replace (ex - ex)%Z with 0%Z by lia. simpl. lia.
  - split; [lia|]. replace (ex - ex)%Z with 0%Z by lia. simpl. lia.
  - split; [lia|]. rewrite iter_xO. f_equal. f_equal. lia.
Qed.

Lemma Zdigits2_shift m k :
  (0 < m)%Z -> (0 <= k)%Z -> Zdigits2 (m * 2 ^ k) = (Zdigits2 m + k)%Z.
Proof.
  intros Hm Hk.
  assert (Hp : (0 < 2 ^ k)%Z) by (apply Z.pow_pos_nonneg; lia).
  pose proof (Zdigits2_bpow m Hm) as [L U].
  pose proof (bpow_pos k) as Hb.
  assert (E : IZR (m * 2 ^ k) = (IZR m * bpow k)%R)
    by (rewrite mult_IZR, bpow_IZR by assumption; reflexivity).
  apply Z.le_antisymm.
  - apply Zdigits2_le; [lia|]. rewrite E, bpow_add. nra.
  - assert (Zdigits2 m + k - 1 < Zdigits2 (m * 2 ^ k))%Z; [|lia].
    apply Zdigits2_ge; [lia|]. rewrite E.
    replace (Zdigits2 m + k - 1)%Z with (Zdigits2 m - 1 + k)%Z by lia.
    rewrite bpow_add. nra.
Qed.

Lemma located_exact m e : (0 <= m)%Z -> located (F2R m e) m e true.
Proof.
  intros H. split; [assumption|]. split; [|tauto].
  split; [lra|]. apply F2R_lt. lia.
Qed.

Lemma binary_round_rounded s mx ex :
  rounded s (F2R (Zpos mx) ex) (binary_round prec emax s mx ex).
Proof.
  unfold binary_round.
  pose proof (shl_align_spec mx ex (fexp64 (Zpos (digits2_pos mx) + ex))) as H.
  destruct (shl_align mx ex (fexp64 (Zpos (digits2_pos mx) + ex))) as [mz ez].
  destruct H as [Ez Em].
  assert (Ev : F2R (Zpos mx) ex = F2R (Zpos mz) ez).
  { rewrite Em, F2R_shift by lia. f_equal. lia. }
  rewrite Ev. apply binary_round_aux_rounded.
  - apply (located_exact (Zpos mz) ez). lia.
  - rewrite Em, Zdigits2_shift by lia. cbn [Zdigits2].
    replace (Zpos (digits2_pos mx) + (ex - ez) + ez)%Z
      with (Zpos (digits2_pos mx) + ex)%Z by lia. lia.
Qed.

(** The sign and magnitude of a nonzero integer multiple of [2^e]. *)
Lemma binary_normalize_pos m e sz :
  (0 < m)%Z -> rounded false (F2R m e) (binary_normalize prec emax m e sz).
Proof.
  intros H. destruct m as [|p|p]; try lia. apply binary_round_rounded.
Qed.

Lemma binary_normalize_neg m e sz :
  (m < 0)%Z -> rounded true (F2R (- m) e) (binary_normalize prec emax m e sz).
Proof.
  intros H. destruct m as [|p|p]; try lia. apply binary_round_rounded.
Qed.

(** ** The four operations on finite numbers *)

Lemma signed_cond_Zopp s m e : signed s m e = F2R (cond_Zopp s (Zpos m)) e.
Proof.
  unfold signed, cond_Zopp, F2R. destruct s; [|reflexivity].
  rewrite opp_IZR. lra.
Qed.

Lemma aligned_value mx ex ez :
  (ez <= ex)%Z -> F2R (Zpos (fst (shl_align mx ex ez))) ez = F2R (Zpos mx) ex.
Proof.
  intros H. pose proof (shl_align_spec mx ex ez) as S.
  destruct (shl_align mx ex ez) as [mz e']. destruct S as [E Em]. cbn [fst].
  assert (e' = ez) by lia. subst e'.
  rewrite Em, F2R_shift by lia. f_equal. lia.
Qed.

Lemma F2R_add m m' e : F2R (m + m') e = (F2R m e + F2R m' e)%R.
Proof. unfold F2R. rewrite plus_IZR. lra. Qed.

Lemma F2R_opp m e : F2R (- m) e = (- F2R m e)%R.
Proof. unfold F2R. rewrite opp_IZR. lra. Qed.

Lemma F2R_cond_Zopp s m e : F2R (cond_Zopp s m) e = if s then (- F2R m e)%R else F2R m e.
Proof. destruct s; [apply F2R_opp|reflexivity]. Qed.

Lemma F2R_sign m e : (0 < F2R m e)%R -> (0 < m)%Z.
Proof. intros H. rewrite <- (F2R_0 e) in H. now apply F2R_lt_inv in H. Qed.

Lemma SFadd_finite sx mx ex sy my ey :
  let x := S754_finite sx mx ex in
  let y := S754_finite sy my ey in
  let v := (signed sx mx ex + signed sy my ey)%R in
  (v = 0%R -> SF64add x y = S754_zero false) /\
  ((0 < v)%R -> rounded false v (SF64add x y)) /\
  ((v < 0)%R -> rounded true (- v) (SF64add x y)).
Proof.
  intros x y v. unfold SF64add, SFadd, x, y.
  set (ez := Z.min ex ey).
  set (D := (cond_Zopp sx (Zpos (fst (shl_align mx ex ez))) +
             cond_Zopp sy (Zpos (fst (shl_align my ey ez))))%Z).
  assert (Ev : v = F2R D ez).
  { unfold v, D, signed. rewrite F2R_add, !F2R_cond_Zopp.
    rewrite !aligned_value by (unfold ez; lia). reflexivity. }
  split; [|split]; intros Hv.
  - assert (D = 0%Z).
    { rewrite Ev in Hv. apply Z.le_antisymm; apply (F2R_le_inv _ _ ez);
        rewrite F2R_0; lra. }
    now rewrite H.
  - rewrite Ev. apply binary_normalize_pos. apply (F2R_sign D ez). lra.
  - rewrite Ev, <- F2R_opp. apply binary_normalize_neg.
    assert (0 < - D)%Z; [|lia]. apply (F2R_sign _ ez). rewrite F2R_opp. lra.
Qed.

Lemma SFsub_finite sx mx ex sy my ey :
  let x := S754_finite sx mx ex in
  let y := S754_finite sy my ey in
  let v := (signed sx mx ex - signed sy my ey)%R in
  (v = 0%R -> SF64sub x y = S754_zero false) /\
  ((0 < v)%R -> rounded false v (SF64sub x y)) /\
  ((v < 0)%R -> rounded true (- v) (SF64sub x y)).
Proof.
  intros x y v. unfold SF64sub, SFsub, x, y.
  set (ez := Z.min ex ey).
  set (D := (cond_Zopp sx (Zpos (fst (shl_align mx ex ez))) -
             cond_Zopp sy (Zpos (fst (shl_align my ey ez))))%Z).
  assert (Ev : v = F2R D ez).
  { unfold v, D, signed. unfold Z.sub. rewrite F2R_add, F2R_opp, !F2R_cond_Zopp.
    rewrite !aligned_value by (unfold ez; lia). destruct sx, sy; lra. }
  split; [|split]; intros Hv.
  - assert (D = 0%Z).
    { rewrite Ev in Hv. apply Z.le_antisymm; apply (F2R_le_inv _ _ ez);
        rewrite F2R_0; lra. }
    now rewrite H.
  - rewrite Ev. apply binary_normalize_pos. apply (F2R_sign D ez). lra.
  - rewrite Ev, <- F2R_opp. apply binary_normalize_neg.
    assert (0 < - D)%Z; [|lia]. apply (F2R_sign _ ez). rewrite F2R_opp. lra.
Qed.

Lemma F2R_mul m m' e e' : (F2R m e * F2R m' e' = F2R (m * m') (e + e'))%R.
Proof. unfold F2R. rewrite mult_IZR, bpow_add. lra. Qed.

Lemma SFmul_finite sx mx ex sy my ey :
  bounded prec emax mx ex = true -> bounded prec emax my ey = true ->
  rounded (xorb sx sy) (F2R (Zpos mx) ex * F2R (Zpos my) ey)
    (SF64mul (S754_finite sx mx ex) (S754_finite sy my ey)).
Proof.
  intros Hx Hy. unfold SF64mul, SFmul. rewrite F2R_mul.
  change (Zpos mx * Zpos my)%Z with (Zpos (mx * my)).
  apply binary_round_aux_rounded.
  - apply (located_exact (Zpos (mx * my))). lia.
  - apply bounded_spec in Hx, Hy.
    pose proof (Zdigits2_bpow (Zpos mx) ltac:(lia)) as [Lx _].
    pose proof (Zdigits2_bpow (Zpos my) ltac:(lia)) as [Ly _].
    cbn [Zdigits2] in Lx, Ly.
    assert (D : (Zpos (digits2_pos mx) + Zpos (digits2_pos my) - 2
                 < Zdigits2 (Zpos (mx * my)))%Z).
    { apply Zdigits2_ge; [lia|].
      replace (Zpos (digits2_pos mx) + Zpos (digits2_pos my) - 2)%Z
        with ((Zpos (digits2_pos mx) - 1) + (Zpos (digits2_pos my) - 1))%Z by lia.
      rewrite bpow_add, Pos2Z.inj_mul, mult_IZR.
      pose proof (bpow_pos (Zpos (digits2_pos mx) - 1)).
      pose proof (bpow_pos (Zpos (digits2_pos my) - 1)). nra. }
    rewrite fexp64_eq. lia.
Qed.

Lemma loc_exact_new_location nb k :
  loc_exact (new_location nb k) = (k =? 0)%Z.
Proof.
  unfold new_location, new_location_even, new_location_odd.
  destruct (Z.even nb); destruct (k =? 0)%Z; reflexivity.
Qed.

Lemma SFdiv_core_located mx ex my ey :
  let '(q, e', l) := SFdiv_core_binary prec emax (Zpos mx) ex (Zpos my) ey in
  located (F2R (Zpos mx) ex / F2R (Zpos my) ey) q e' (loc_exact l) /\
  (e' <= fexp64 (Zdigits2 q + e'))%Z.
Proof.
  unfold SFdiv_core_binary.
  set (d1 := Zdigits2 (Zpos mx)). set (d2 := Zdigits2 (Zpos my)).
  set (e' := Z.min (fexp64 (d1 + ex - (d2 + ey))) (ex - ey)).
  set (s := (ex - ey - e')%Z).
  assert (Hs : (0 <= s)%Z) by (unfold s, e'; lia).
  set (m' := match s with
             | 0%Z => Zpos mx
             | Zpos _ => Z.shiftl (Zpos mx) s
             | Zneg _ => 0%Z
             end).
  assert (Em : m' = (Zpos mx * 2 ^ s)%Z).
  { unfold m'. clearbody s. destruct s as [|p|p]; try lia.
    now rewrite Z.shiftl_mul_pow2 by lia. }
  pose proof (Z_div_mod m' (Zpos my) ltac:(lia)) as Hdm.
  destruct (Z.div_eucl m' (Zpos my)) as [q r]. destruct Hdm as [Eq Hr].
  assert (Hp : (0 < 2 ^ s)%Z) by (apply Z.pow_pos_nonneg; lia).
  assert (Hq : (0 <= q)%Z) by nia.
  pose proof (bpow_pos e') as Hb'. pose proof (bpow_pos ey) as Hby.
  assert (Hmy : (0 < IZR (Zpos my))%R) by (apply IZR_lt; lia).
  assert (Ev : (F2R (Zpos mx) ex / F2R (Zpos my) ey
                = IZR m' / IZR (Zpos my) * bpow e')%R).
  { replace ex with (ey + e' + s)%Z by (unfold s; lia).
    rewrite <- F2R_shift, <- Em by lia. unfold F2R. rewrite bpow_add.
    field. split; lra. }
  assert (Eqr : (IZR m' = IZR q * IZR (Zpos my) + IZR r)%R).
  { rewrite Eq, plus_IZR, mult_IZR. lra. }
  assert (Hr0 : (0 <= IZR r < IZR (Zpos my))%R)
    by (split; [apply IZR_le|apply IZR_lt]; lia).
  assert (Equo : (IZR m' / IZR (Zpos my) = IZR q + IZR r / IZR (Zpos my))%R)
    by (rewrite Eqr; field; lra).
  assert (Hfrac : (0 <= IZR r / IZR (Zpos my) < 1)%R).
  { split.
    - apply Rmult_le_reg_r with (IZR (Zpos my)); [lra|].
      replace (IZR r / IZR (Zpos my) * IZR (Zpos my))%R with (IZR r) by (field; lra).
      lra.
    - apply Rmult_lt_reg_r with (IZR (Zpos my)); [lra|].
      replace (IZR r / IZR (Zpos my) * IZR (Zpos my))%R with (IZR r) by (field; lra).
      lra. }
  split.
  - rewrite loc_exact_new_location. rewrite Ev, Equo.
    split; [assumption|]. unfold F2R. rewrite plus_IZR. split; [nra|].
    rewrite Z.eqb_eq. split.
    + intros ->. simpl. unfold Rdiv. rewrite Rmult_0_l. lra.
    + intros E. assert (IZR r / IZR (Zpos my) = 0)%R by nra.
      assert (IZR r = 0%R).
      { replace (IZR r) with (IZR r / IZR (Zpos my) * IZR (Zpos my))%R
          by (field; lra). rewrite H. lra. }
      now apply eq_IZR in H0.
  - rewrite fexp64_eq.
    destruct (Z_le_gt_dec e' (-1074)) as [L|G]; [lia|].
    assert (He' : (e' <= d1 + ex - (d2 + ey) - 53)%Z).
    { unfold e' in *. rewrite fexp64_eq in *. lia. }
    assert (Hs2 : (d2 - d1 + 53 <= s)%Z) by (unfold s; lia).
    pose proof (Zdigits2_bpow (Zpos mx) ltac:(lia)) as [L1 _].
    pose proof (Zdigits2_bpow (Zpos my) ltac:(lia)) as [_ U2].
    fold d1 in L1. fold d2 in U2.
    assert (Hd1 : (1 <= d1)%Z) by (unfold d1; simpl; lia).
    assert (Hd2 : (1 <= d2)%Z) by (unfold d2; simpl; lia).
    assert (Hbig : (bpow (d2 + 52) <= IZR m')%R).
    { rewrite Em, mult_IZR, <- bpow_IZR by lia.
      apply Rle_trans with (bpow (d1 - 1) * bpow s)%R.
      - rewrite <- bpow_add. apply bpow_le. lia.
      - pose proof (bpow_pos s). nra. }
    assert (H52 : (bpow 52 <= IZR q)%R).
    { rewrite bpow_add in Hbig.
      assert (IZR (q + 1) > bpow 52)%R; [|].
      { rewrite plus_IZR. pose proof (bpow_pos 52). nra. }
      rewrite bpow_IZR by lia. apply IZR_le.
      rewrite bpow_IZR in H by lia. apply lt_IZR in H. lia. }
    assert (52 < Zdigits2 q)%Z by (apply Zdigits2_ge; assumption). lia.
Qed.

Lemma SFdiv_finite sx mx ex sy my ey :
  rounded (xorb sx sy) (F2R (Zpos mx) ex / F2R (Zpos my) ey)
    (SF64div (S754_finite sx mx ex) (S754_finite sy my ey)).
Proof.
  unfold SF64div, SFdiv.
  pose proof (SFdiv_core_located mx ex my ey) as H.
  destruct (SFdiv_core_binary prec emax (Zpos mx) ex (Zpos my) ey) as [[q e'] l].
  destruct H as [Hloc Hn]. now apply binary_round_aux_rounded.
Qed.

(** ** Comparisons *)

Lemma bounded_Rep m e : bounded prec emax m e = true -> Rep (F2R (Zpos m) e).
Proof. intros H. now exists m, e. Qed.

Lemma bounded_range m e :
  bounded prec emax m e = true ->
  (F2R (Zpos m) e < bpow (53 + e))%R /\
  (e = (-1074)%Z \/ (bpow (52 + e) <= F2R (Zpos m) e)%R).
Proof.
  intros H. apply bounded_spec in H. destruct H as (He & Hd & Hc).
  pose proof (Zdigits2_bpow (Zpos m) ltac:(lia)) as [L U]. cbn [Zdigits2] in L, U.
  pose proof (bpow_pos e) as Hb. unfold F2R. split.
  - rewrite bpow_add.
    assert (bpow (Zpos (digits2_pos m)) <= bpow 53)%R by (apply bpow_le; lia). nra.
  - destruct Hc as [E|E]; [now left|right].
    rewrite bpow_add. rewrite E in L. change (53 - 1)%Z with 52%Z in L. nra.
Qed.

Lemma SFcompare_pos m e m' e' :
  bounded prec emax m e = true -> bounded prec emax m' e' = true ->
  match SFcompare (S754_finite false m e) (S754_finite false m' e') with
  | Some Lt => (F2R (Zpos m) e < F2R (Zpos m') e')%R
  | Some Eq => m = m' /\ e = e'
  | Some Gt => (F2R (Zpos m') e' < F2R (Zpos m) e)%R
  | None => False
  end.
Proof.
  intros H H'. cbn [SFcompare].
  pose proof (bounded_range m e H) as [U L].
  pose proof (bounded_range m' e' H') as [U' L'].
  apply bounded_spec in H, H'.
  destruct (Z.compare_spec e e') as [E|E|E].
  - subst e'. rewrite Pos.compare_cont_spec. cbn [Pos.switch_Eq].
    destruct (Pos.compare_spec m m') as [Em|Em|Em].
    + now split.
    + apply F2R_lt. lia.
    + apply F2R_lt. lia.
  - destruct L' as [L'|L']; [lia|].
    apply Rlt_le_trans with (1 := U). apply Rle_trans with (2 := L').
    apply bpow_le. lia.
  - destruct L as [L|L]; [lia|].
    apply Rlt_le_trans with (1 := U'). apply Rle_trans with (2 := L).
    apply bpow_le. lia.
Qed.

Lemma SFleb_pos m e m' e' :
  bounded prec emax m e = true -> bounded prec emax m' e' = true ->
  SFleb (S754_finite false m e) (S754_finite false m' e') = true <->
  (F2R (Zpos m) e <= F2R (Zpos m') e')%R.
Proof.
  intros H H'. pose proof (SFcompare_pos m e m' e' H H') as C. unfold SFleb.
  destruct (SFcompare (S754_finite false m e) (S754_finite false m' e'))
    as [[| |]|]; split; intros X; try reflexivity; try discriminate;
    try lra; try contradiction.
  destruct C as [-> ->]. lra.
Qed.

Lemma SFltb_pos m e m' e' :
  bounded prec emax m e = true -> bounded prec emax m' e' = true ->
  SFltb (S754_finite false m e) (S754_finite false m' e') = true <->
  (F2R (Zpos m) e < F2R (Zpos m') e')%R.
Proof.
  intros H H'. pose proof (SFcompare_pos m e m' e' H H') as C. unfold SFltb.
  destruct (SFcompare (S754_finite false m e) (S754_finite false m' e'))
    as [[| |]|]; split; intros X; try reflexivity; try discriminate;
    try lra; try contradiction.
  destruct C as [-> ->]. lra.
Qed.

(** ** Primitive floats *)

Lemma Prim2SF_zero : Prim2SF 0%float = S754_zero false.
Proof. reflexivity. Qed.

Lemma Prim2SF_one : Prim2SF 1%float = S754_finite false 4503599627370496 (-52).
Proof. reflexivity. Qed.

Lemma F2R_one : F2R (Zpos 4503599627370496) (-52) = 1%R.
Proof.
  change (Zpos 4503599627370496) with (2 ^ 52)%Z. unfold F2R.
  rewrite <- bpow_IZR, <- bpow_add by lia. reflexivity.
Qed.

Lemma bounded_one : bounded prec emax 4503599627370496 (-52) = true.
Proof. reflexivity. Qed.

Lemma valid_finite (x : float) s m e :
  Prim2SF x = S754_finite s m e -> bounded prec emax m e = true.
Proof.
  intros E. pose proof (Prim2SF_valid x) as V. now rewrite E in V.
Qed.

(** ** The filtered spikes stay nonnegative and bounded *)

Lemma filtered_ok_geb a : filtered_ok a -> (0 <=? a)%float = true.
Proof.
  unfold filtered_ok. rewrite leb_spec, Prim2SF_zero.
  destruct (Prim2SF a) as [s|s| |[|] m e]; try contradiction; reflexivity.
Qed.

Lemma positive_le_one dt :
  (0 <? dt)%float = true -> (dt <=? 1)%float = true ->
  exists m e, Prim2SF dt = S754_finite false m e /\ (F2R (Zpos m) e <= 1)%R.
Proof.
  rewrite ltb_spec, leb_spec, Prim2SF_zero, Prim2SF_one.
  pose proof (Prim2SF_valid dt) as V.
  destruct (Prim2SF dt) as [s|[|]| |[|] m e]; try discriminate.
  intros _ H. exists m, e. split; [reflexivity|].
  rewrite <- F2R_one. apply SFleb_pos; [assumption|reflexivity|assumption].
Qed.

Lemma bounded_2_53 : bounded prec emax 4503599627370496 1 = true.
Proof. reflexivity. Qed.

Lemma F2R_2_53 : F2R (Zpos 4503599627370496) 1 = bpow 53.
Proof.
  change (Zpos 4503599627370496) with (2 ^ 52)%Z. unfold F2R.
  rewrite <- bpow_IZR, <- bpow_add by lia. reflexivity.
Qed.

Lemma Rep_2_53 : Rep (bpow 53).
Proof. rewrite <- F2R_2_53. apply bounded_Rep, bounded_2_53. Qed.

Lemma Rep_one : Rep 1.
Proof. rewrite <- F2R_one. apply bounded_Rep, bounded_one. Qed.

(** Below [2^53] the numbers of the format end with [2^53 - 1]. *)
Lemma below_2_53 m e :
  bounded prec emax m e = true -> (F2R (Zpos m) e <= bpow 53)%R ->
  (m = 4503599627370496%positive /\ e = 1%Z) \/ (F2R (Zpos m) e + 1 <= bpow 53)%R.
Proof.
  intros H Hle. apply bounded_spec in H. destruct H as (He & Hd & Hc).
  pose proof (digits2_pos_spec m) as [L U].
  pose proof (bpow_pos e) as Hb.
  assert (E53 : bpow 53 = IZR (2 ^ 53)) by (apply bpow_IZR; lia).
  destruct (Z_le_gt_dec e 0) as [H0|H0].
  - right. assert (Hm : (Zpos m <= 2 ^ 53 - 1)%Z).
    { assert (2 ^ Zpos (digits2_pos m) <= 2 ^ 53)%Z
        by (apply Z.pow_le_mono_r; lia). lia. }
    apply IZR_le in Hm. rewrite minus_IZR in Hm.
    assert (bpow e <= 1)%R by (rewrite <- bpow_0; apply bpow_le; lia).
    assert (0 < IZR (Zpos m))%R by (apply IZR_lt; lia).
    unfold F2R. rewrite E53. nra.
  - left. destruct Hc as [Hc|Hc]; [lia|]. rewrite Hc in L.
    change (53 - 1)%Z with 52%Z in L.
    assert (Lr : (IZR (2 ^ 52) <= IZR (Zpos m))%R) by now apply IZR_le.
    assert (E1 : e = 1%Z).
    { destruct (Z.eq_dec e 1) as [|Hne]; [assumption|exfalso].
      assert (bpow 2 <= bpow e)%R by (apply bpow_le; lia).
      assert (bpow 2 = 4)%R by (unfold bpow; simpl; lra).
      assert (bpow 53 = 2 * IZR (2 ^ 52))%R.
      { rewrite E53. change (2 ^ 53)%Z with (2 * 2 ^ 52)%Z. now rewrite mult_IZR. }
      assert (0 < IZR (2 ^ 52))%R by (apply IZR_lt; lia).
      unfold F2R in Hle. nra. }
    split; [|assumption]. subst e.
    assert (bpow 53 = 2 * IZR (2 ^ 52))%R.
    { rewrite E53. change (2 ^ 53)%Z with (2 * 2 ^ 52)%Z. now rewrite mult_IZR. }
    unfold F2R in Hle. rewrite bpow_1 in Hle.
    assert (Hfin : (IZR (Zpos m) <= IZR (2 ^ 52))%R) by lra.
    apply le_IZR in Hfin.
    assert (Em : Zpos m = Zpos 4503599627370496)
      by (change (Zpos 4503599627370496) with (2 ^ 52)%Z; lia).
    now inversion Em.
Qed.

Lemma filtered_ok_add_zero a : filtered_ok a -> filtered_ok (a + 0)%float.
Proof.
  unfold filtered_ok. rewrite add_spec, Prim2SF_zero.
  destruct (Prim2SF a) as [[|]|s| |[|] m e]; try contradiction; cbn; auto.
Qed.

Lemma filtered_ok_add_one a : filtered_ok a -> filtered_ok (a + 1)%float.
Proof.
  unfold filtered_ok. intros H.
  pose proof (Prim2SF_valid (a + 1)%float) as V1.
  rewrite add_spec, Prim2SF_one in *.
  destruct (Prim2SF a) as [s|s| |[|] m e] eqn:Ea; try contradiction.
  - cbn. rewrite F2R_one, <- (bpow_0). apply bpow_le. lia.
  - pose proof (valid_finite a _ _ _ Ea) as Hb.
    destruct (below_2_53 m e Hb H) as [[-> ->]|Hlt].
    + assert (E : SF64add (S754_finite false 4503599627370496 1)
                    (S754_finite false 4503599627370496 (-52))
                  = S754_finite false 4503599627370496 1)
        by (vm_compute; reflexivity).
      rewrite E, F2R_2_53. apply Rle_refl.
    + destruct (SFadd_finite false m e false 4503599627370496 (-52))
        as (_ & Hpos & _).
      cbn [signed] in Hpos. rewrite F2R_one in Hpos.
      assert (Hv : (0 < F2R (Zpos m) e + 1)%R).
      { pose proof (Rep_pos _ (bounded_Rep m e Hb)). lra. }
      specialize (Hpos Hv).
      destruct Hpos as [Hz|m2 e2 Hlo Hup|Hinf].
      * exact I.
      * exact (Hup _ Rep_2_53 Hlt).
      * exact (Hinf _ Rep_2_53 Hlt).
Qed.

Lemma filtered_ok_decay dt a :
  (0 <? dt)%float = true -> (dt <=? 1)%float = true ->
  filtered_ok a -> filtered_ok (a + dt * (- a))%float.
Proof.
  intros Hdt0 Hdt1 H.
  destruct (positive_le_one dt Hdt0 Hdt1) as (md & ed & Ed & Hd1).
  pose proof (valid_finite dt _ _ _ Ed) as Bd.
  unfold filtered_ok in *.
  pose proof (Prim2SF_valid (dt * - a)%float) as Vy.
  rewrite add_spec. rewrite mul_spec, opp_spec, Ed in *.
  destruct (Prim2SF a) as [s|s| |[|] m e] eqn:Ea; try contradiction.
  - cbn. destruct s; exact I.
  - pose proof (valid_finite a _ _ _ Ea) as Ba.
    pose proof (Rep_pos _ (bounded_Rep m e Ba)) as Pa.
    pose proof (Rep_pos _ (bounded_Rep md ed Bd)) as Pd.
    cbn [SFopp negb] in *.
    pose proof (SFmul_finite false md ed true m e Bd Ba) as Hy.
    cbn [xorb] in Hy.
    assert (Hprod : (F2R (Zpos md) ed * F2R (Zpos m) e <= F2R (Zpos m) e)%R) by nra.
    destruct Hy as [Hz|my ey Hlo Hup|Hinf].
    + cbn. assumption.
    + cbn [valid_binary] in Vy.
      pose proof (Hup _ (bounded_Rep m e Ba) Hprod) as Hyle.
      destruct (SFadd_finite false m e true my ey) as (Hzero & Hpos & _).
      cbn [signed] in Hzero, Hpos.
      destruct (Req_dec (F2R (Zpos m) e + - F2R (Zpos my) ey) 0) as [E0|N0].
      * rewrite (Hzero E0). exact I.
      * assert (Hv : (0 < F2R (Zpos m) e + - F2R (Zpos my) ey)%R) by lra.
        specialize (Hpos Hv).
        pose proof (Rep_pos _ (bounded_Rep my ey Vy)) as Py.
        destruct Hpos as [Hz2|m2 e2 Hlo2 Hup2|Hinf2].
        -- exact I.
        -- apply Rle_trans with (F2R (Zpos m) e); [|assumption].
           apply Hup2; [now apply bounded_Rep|lra].
        -- apply (Hinf2 (F2R (Zpos m) e)); [now apply bounded_Rep|lra].
    + exfalso. exact (Hinf _ (bounded_Rep m e Ba) Hprod).
Qed.

Lemma filtered_ok_step dt a c :
  (0 <? dt)%float = true -> (dt <=? 1)%float = true ->
  filtered_ok a -> c = 0%float \/ c = 1%float ->
  filtered_ok (a + dt * (- a) + c)%float.
Proof.
  intros H0 H1 Ha [->| ->].
  - apply filtered_ok_add_zero. now apply filtered_ok_decay.
  - apply filtered_ok_add_one. now apply filtered_ok_decay.
Qed.

(** ** The quotient below the threshold *)

Lemma quotient_class_spec (q : float) (z : spec_float) :
  Prim2SF q = z ->
  match z with
  | S754_finite false m e => (F2R (Zpos m) e <= 1)%R
  | _ => True
  end -> quotient_class q.
Proof.
  intros E H. destruct z as [s|[|]| |[|] m e].
  - now apply (q_zero q s).
  - now apply q_neg_infinity.
  - now apply q_infinity.
  - now apply q_nan.
  - now apply (q_negative q m e).
  - now apply (q_le_one q m e).
Qed.

(** A quotient of two numbers of one sign, the divisor at least as large. *)
Lemma SFdiv_le_one s mu eu md ed :
  (F2R (Zpos mu) eu <= F2R (Zpos md) ed)%R ->
  match SF64div (S754_finite s mu eu) (S754_finite s md ed) with
  | S754_finite false m e => (F2R (Zpos m) e <= 1)%R
  | S754_zero _ => True
  | _ => False
  end.
Proof.
  intros Hle. pose proof (SFdiv_finite s mu eu s md ed) as H.
  rewrite xorb_nilpotent in H.
  assert (Pd : (0 < F2R (Zpos md) ed)%R).
  { unfold F2R. assert (0 < IZR (Zpos md))%R by (apply IZR_lt; lia).
    pose proof (bpow_pos ed). nra. }
  assert (Hv : (F2R (Zpos mu) eu / F2R (Zpos md) ed <= 1)%R).
  { apply Rmult_le_reg_r with (F2R (Zpos md) ed); [assumption|].
    replace (F2R (Zpos mu) eu / F2R (Zpos md) ed * F2R (Zpos md) ed)%R
      with (F2R (Zpos mu) eu) by (field; lra). lra. }
  destruct H as [Hz|m e Hlo Hup|Hinf].
  - exact I.
  - exact (Hup _ Rep_one Hv).
  - exact (Hinf _ Rep_one Hv).
Qed.

Lemma SFdiv_mixed_sign mu eu md ed :
  match SF64div (S754_finite false mu eu) (S754_finite true md ed) with
  | S754_finite false _ _ | S754_infinity false | S754_nan => False
  | _ => True
  end.
Proof.
  pose proof (SFdiv_finite false mu eu true md ed) as H. cbn [xorb] in H.
  now destruct H.
Qed.

Lemma F2R_pos m e : (0 < F2R (Zpos m) e)%R.
Proof.
  unfold F2R. assert (0 < IZR (Zpos m))%R by (apply IZR_lt; lia).
  pose proof (bpow_pos e). nra.
Qed.

Lemma subthreshold_quotient (u T : float) :
  (0 <=? T)%float = true -> (u <=? T)%float = true ->
  quotient_class (u / (u - T))%float.
Proof.
  rewrite !leb_spec, Prim2SF_zero. intros HT Hu.
  pose proof (Prim2SF_valid (u - T)%float) as Vd.
  assert (Eq : Prim2SF (u / (u - T))%float
               = SF64div (Prim2SF u) (SF64sub (Prim2SF u) (Prim2SF T)))
    by now rewrite div_spec, sub_spec.
  rewrite sub_spec in Vd.
  apply (quotient_class_spec _ _ Eq). clear Eq.
  destruct (Prim2SF T) as [sT|[|]| |[|] mT eT] eqn:ET; try discriminate HT;
    destruct (Prim2SF u) as [su|[|]| |[|] mu eu] eqn:Eu; try discriminate Hu;
    try (cbn; destruct su; exact I); try (cbn; destruct sT; exact I);
    try (cbn; exact I).
  - destruct su, sT; cbn; exact I.
  - (* T = 0, u < 0 *)
    change (SF64sub (S754_finite true mu eu) (S754_zero sT))
      with (S754_finite true mu eu).
    pose proof (SFdiv_le_one true mu eu mu eu (Rle_refl _)) as H.
    destruct (SF64div _ _) as [s|[|]| |[|] m e]; try contradiction; auto.
  - (* T > 0, u < 0 *)
    destruct (SFsub_finite true mu eu false mT eT) as (_ & _ & Hneg).
    cbn [signed] in Hneg.
    pose proof (F2R_pos mu eu) as Pu. pose proof (F2R_pos mT eT) as PT.
    specialize (Hneg ltac:(lra)).
    destruct Hneg as [Hz|md ed Hlo Hup|Hinf].
    + cbn. exact I.
    + cbn [valid_binary] in Vd.
      assert (Hle : (F2R (Zpos mu) eu <= F2R (Zpos md) ed)%R).
      { apply Hlo; [apply bounded_Rep; now apply (valid_finite u true)|lra]. }
      pose proof (SFdiv_le_one true mu eu md ed Hle) as H.
      destruct (SF64div _ _) as [s|[|]| |[|] m e]; try contradiction; auto.
    + cbn. exact I.
  - (* 0 < u <= T *)
    pose proof (valid_finite u _ _ _ Eu) as Bu.
    pose proof (valid_finite T _ _ _ ET) as BT.
    apply (SFleb_pos mu eu mT eT Bu BT) in Hu.
    destruct (SFsub_finite false mu eu false mT eT) as (Hzero & _ & Hneg).
    cbn [signed] in Hzero, Hneg.
    destruct (Req_dec (F2R (Zpos mu) eu - F2R (Zpos mT) eT) 0) as [E0|N0].
    + rewrite (Hzero E0). cbn. exact I.
    + specialize (Hneg ltac:(lra)).
      destruct Hneg as [Hz|md ed Hlo Hup|Hinf].
      * cbn. exact I.
      * pose proof (SFdiv_mixed_sign mu eu md ed) as H.
        destruct (SF64div _ _) as [s|[|]| |[|] m e]; try contradiction; auto.
      * cbn. exact I.
Qed.

(** ** The logarithm and the masks *)

Lemma SFeqb_refl z : z <> S754_nan -> SFeqb z z = true.
Proof.
  intros H. unfold SFeqb. destruct z as [s|[|]| |[|] m e]; try reflexivity;
    try contradiction; cbn [SFcompare];
    now rewrite Z.compare_refl, Pos.compare_cont_refl.
Qed.

Lemma is_nan_spec y : PrimFloat.is_nan y = true <-> Prim2SF y = S754_nan.
Proof.
  unfold PrimFloat.is_nan. rewrite eqb_spec.
  destruct (Prim2SF y) as [s|s| |s m e] eqn:E.
  - rewrite SFeqb_refl by discriminate. split; discriminate.
  - rewrite SFeqb_refl by discriminate. split; discriminate.
  - split; reflexivity.
  - rewrite SFeqb_refl by discriminate. split; discriminate.
Qed.

(** The last three lines of [LIF_io] on binary64. *)
Lemma masked_rate_float (out : float) :
  masked_rate out =
  (let rate := (1 / out)%float in
   let rate' := if (out <=? 0)%float then 0%float else rate in
   if PrimFloat.is_nan rate' then 0%float else rate').
Proof. reflexivity. Qed.

Lemma masked_rate_nan out : PrimFloat.is_nan out = true -> masked_rate out = 0%float.
Proof.
  intros H. rewrite masked_rate_float. cbv zeta.
  assert (E : Prim2SF out = S754_nan) by now apply is_nan_spec.
  assert (L : (out <=? 0)%float = false) by now rewrite leb_spec, E.
  rewrite L.
  assert (N : PrimFloat.is_nan (1 / out)%float = true).
  { apply is_nan_spec. now rewrite div_spec, E, Prim2SF_one. }
  now rewrite N.
Qed.

Lemma masked_rate_nonpositive out :
  (out <=? 0)%float = true -> masked_rate out = 0%float.
Proof. intros H. rewrite masked_rate_float. cbv zeta. now rewrite H. Qed.

Lemma masked_rate_infinity : masked_rate infinity = 0%float.
Proof. reflexivity. Qed.

(** For a quotient of one of these classes the logarithm is NaN, [-inf],
    non-positive or [+inf], and the masks leave the rate 0. *)
Lemma quotient_class_rate (log : float -> float) (q : float) :
  log_spec log -> quotient_class q -> masked_rate (log q) = 0%float.
Proof.
  intros L [E|s E|m e E|E|m e E Hle|E].
  - apply masked_rate_nan, (log_nan L). now apply is_nan_spec.
  - rewrite (log_zero L); [reflexivity|].
    rewrite eqb_spec, E, Prim2SF_zero. now destruct s.
  - apply masked_rate_nan, (log_negative L).
    now rewrite ltb_spec, E, Prim2SF_zero.
  - apply masked_rate_nan, (log_negative L).
    now rewrite ltb_spec, E, Prim2SF_zero.
  - apply masked_rate_nonpositive, (log_le_one L).
    + now rewrite ltb_spec, E, Prim2SF_zero.
    + rewrite leb_spec, E, Prim2SF_one.
      apply SFleb_pos; [exact (valid_finite _ _ _ _ E)|reflexivity|].
      now rewrite F2R_one.
  - assert (Einf : q = infinity).
    { apply Prim2SF_inj. now rewrite E. }
    rewrite Einf, (log_infinity L). reflexivity.
Qed.

Lemma subthreshold_rate (log : float -> float) (u T : float) :
  log_spec log ->
  (0 <=? T)%float = true -> (u <=? T)%float = true ->
  masked_rate (log (u / (u - T))%float) = 0%float.
Proof.
  intros L HT Hu. apply quotient_class_rate; [assumption|].
  now apply subthreshold_quotient.
Qed.

(** The masked rate is [1/out] where [out] is positive, and 0 elsewhere;
    it is never negative and never NaN. *)
Lemma masked_rate_eq out :
  masked_rate out = if (0 <? out)%float then (1 / out)%float else 0%float.
Proof.
  rewrite masked_rate_float. cbv zeta.
  pose proof (Prim2SF_valid out) as V.
  destruct (0 <? out)%float eqn:P.
  - rewrite ltb_spec, Prim2SF_zero in P.
    assert (L : (out <=? 0)%float = false).
    { rewrite leb_spec, Prim2SF_zero.
      destruct (Prim2SF out) as [s|[|]| |[|] m e]; try discriminate P; reflexivity. }
    rewrite L.
    assert (N : PrimFloat.is_nan (1 / out)%float = false).
    { destruct (PrimFloat.is_nan (1 / out)%float) eqn:N; [|reflexivity].
      apply is_nan_spec in N. rewrite div_spec, Prim2SF_one in N.
      destruct (Prim2SF out) as [s|[|]| |[|] m e]; try discriminate P;
        try discriminate N.
      pose proof (SFdiv_finite false 4503599627370496 (-52) false m e) as H.
      rewrite N in H. inversion H. }
    now rewrite N.
  - destruct (out <=? 0)%float eqn:L; [reflexivity|].
    rewrite ltb_spec, Prim2SF_zero in P. rewrite leb_spec, Prim2SF_zero in L.
    assert (E : Prim2SF out = S754_nan).
    { destruct (Prim2SF out) as [s|[|]| |[|] m e]; try discriminate P;
        try discriminate L; reflexivity. }
    assert (N : PrimFloat.is_nan (1 / out)%float = true).
    { apply is_nan_spec. now rewrite div_spec, E, Prim2SF_one. }
    now rewrite N.
Qed.

Lemma masked_rate_nonneg out : (0 <=? masked_rate out)%float = true.
Proof.
  rewrite masked_rate_eq. destruct (0 <? out)%float eqn:P; [|reflexivity].
  rewrite ltb_spec, Prim2SF_zero in P.
  rewrite leb_spec, Prim2SF_zero, div_spec, Prim2SF_one.
  destruct (Prim2SF out) as [s|[|]| |[|] m e]; try discriminate P.
  - reflexivity.
  - pose proof (SFdiv_finite false 4503599627370496 (-52) false m e) as H.
    cbn [xorb] in H. now destruct H.
Qed.

Set Implicit Arguments.

(** * The simulator on binary64: spikes and filtered spikes *)

(** C10: on binary64, for a time step [0 < dt <= 1], whatever the other
    arguments (NaN and infinities included), the spike array a call
    returns holds only 0 and 1, and the filtered spikes it returns are all
    nonnegative ([0 <= r[j, i]], which also says that none is NaN); and
    a call with a one-dimensional input and [F], [b], [T] of one length
    does return. *)
Theorem spikes_binary_filtered_nonnegative (dt : float) :
  (0 <? dt)%float = true -> (dt <=? 1)%float = true ->
  (forall (x F : ndarray float) (b T : list float) (V s r : matrix float),
     run_LIF_network x F b T dt = Ok (V, s, r) ->
     Forall (Forall (fun e => e = 0%float \/ e = 1%float)) s /\
     Forall (Forall (fun e => (0 <=? e)%float = true)) r) /\
  (forall x F b T : list float,
     length b = length F -> length T = length F ->
     exists V s r,
       run_LIF_network (Vec x) (Vec F) b T dt = Ok (V, s, r) /\
       Forall (Forall (fun e => e = 0%float \/ e = 1%float)) s /\
       Forall (Forall (fun e => (0 <=? e)%float = true)) r).
Proof.
  intros H0 H1.
  assert (G : forall (x F : ndarray float) (b T : list float) (V s r : matrix float),
             run_LIF_network x F b T dt = Ok (V, s, r) ->
             Forall (Forall (fun e => e = 0%float \/ e = 1%float)) s /\
             Forall (Forall (fun e => (0 <=? e)%float = true)) r).
  { intros x F b T V s r E.
    set (P := fun e : float => e = 0%float \/ e = 1%float).
    assert (P0 : P zero) by now left.
    assert (P1 : P one) by now right.
    assert (Q0 : filtered_ok zero) by exact I.
    assert (Qs : forall a c, filtered_ok a -> P c ->
                   filtered_ok (add (add a (mul dt (neg a))) c)).
    { intros a c Ha Hc. now apply filtered_ok_step. }
    destruct (@run_keeps float float64 P filtered_ok dt P0 P1 Q0 Qs x F b T V s r E)
      as [Hs Hr].
    split; [assumption|].
    eapply Forall_impl; [|eassumption]. intros row Hrow.
    eapply Forall_impl; [|eassumption]. intros e He.
    now apply filtered_ok_geb. }
  split; [exact G|].
  intros x F b T Hb HT.
  destruct (run_vec x F b T dt eq_refl eq_refl Hb HT) as (V & s & r & E & _).
  exists V, s, r. split; [assumption|]. eapply G; eassumption.
Qed.

Lemma spikes_binary_filtered_nonnegative_witness :
  (forall (x F : ndarray float) (b T : list float) (V s r : matrix float),
     run_LIF_network x F b T 0.5%float = Ok (V, s, r) ->
     Forall (Forall (fun e => e = 0%float \/ e = 1%float)) s /\
     Forall (Forall (fun e => (0 <=? e)%float = true)) r) /\
  (forall x F b T : list float,
     length b = length F -> length T = length F ->
     exists V s r,
       run_LIF_network (Vec x) (Vec F) b T 0.5%float = Ok (V, s, r) /\
       Forall (Forall (fun e => e = 0%float \/ e = 1%float)) s /\
       Forall (Forall (fun e => (0 <=? e)%float = true)) r).
Proof.
  exact (@spikes_binary_filtered_nonnegative 0.5%float eq_refl eq_refl).
Defined.

(** * The analytical rate function: broadcasting *)

Section RateFacts.

Context {num : Type} {dtype : Dtype num} {elementary : Elementary num}.

Variable log : num -> num.

Lemma binop_scalar_array (op : num -> num -> num) p c (a : ndarray num) :
  binop op (scalar p c) (Numpy a) = fmap Numpy (lift2 op (Scalar c) a).
Proof. now destruct p. Qed.

Lemma binop_array_scalar (op : num -> num -> num) (a : ndarray num) p c :
  binop op (Numpy a) (scalar p c) = fmap Numpy (lift2 op a (Scalar c)).
Proof. now destruct p. Qed.

Lemma LIF_io_vec (x : list num) (pf pb pT : bool) (f b T : num) :
  LIF_io log (Numpy (Vec x)) (scalar pf f) (scalar pb b) (scalar pT T)
  = Ok (Vec (map (rate1 log f b T) x)).
Proof.
  unfold LIF_io, drive.
  rewrite binop_scalar_array. cbn [lift2 fmap bind].
  rewrite binop_array_scalar. cbn [lift2 fmap bind].
  rewrite binop_array_scalar. cbn [lift2 fmap bind truediv as_numpy].
  rewrite zipB_same_length by now rewrite !length_map.
  cbn [fmap bind lift1 lift2 assign_mask as_numpy]. unfold assign_row_mask.
  rewrite !map_map.
  rewrite (zip_with_map_same div).
  rewrite !map_map.
  rewrite !length_map, Nat.eqb_refl. cbn [fmap bind lift1 assign_mask].
  rewrite (zip_with_map_same (where_ zero)).
  unfold assign_row_mask. rewrite !map_map, !length_map, Nat.eqb_refl.
  cbn [fmap bind].
  rewrite (zip_with_map_same (where_ zero)).
  reflexivity.
Qed.

Lemma LIF_io_mat (x : list (list num)) (pf pb pT : bool) (f b T : num) :
  LIF_io log (Numpy (Mat x)) (scalar pf f) (scalar pb b) (scalar pT T)
  = Ok (Mat (map (map (rate1 log f b T)) x)).
Proof.
  unfold LIF_io, drive.
  rewrite binop_scalar_array. cbn [lift2 fmap bind].
  rewrite binop_array_scalar. cbn [lift2 fmap bind].
  rewrite binop_array_scalar. cbn [lift2 fmap bind truediv as_numpy].
  unfold zipB at 1. rewrite !length_map, Nat.eqb_refl. rewrite !map_map.
  rewrite (mapM_combine_map _ _ _
             (fun row => map (fun e => div (drive1 f b e) (sub (drive1 f b e) T)) row)).
  2:{ intros row. cbn [fst snd].
      rewrite zipB_same_length by now rewrite !length_map.
      now rewrite !map_map, (zip_with_map_same div). }
  cbn [fmap bind lift1 lift2 assign_mask as_numpy].
  rewrite !map_map, !length_map, Nat.eqb_refl.
  rewrite (mapM_combine_map _ _ _
             (fun row => map (fun e =>
                where_ zero
                  (div one (log (div (drive1 f b e) (sub (drive1 f b e) T))))
                  (leb (log (div (drive1 f b e) (sub (drive1 f b e) T))) zero))
                row)).
  2:{ intros row. cbn [fst snd]. unfold assign_row_mask.
      rewrite !map_map, !length_map, Nat.eqb_refl.
      now rewrite (zip_with_map_same (where_ zero)). }
  cbn [fmap bind lift1 assign_mask].
  rewrite !map_map, !length_map, Nat.eqb_refl.
  rewrite (mapM_combine_map _ _ _ (map (rate1 log f b T))).
  2:{ intros row. cbn [fst snd]. unfold assign_row_mask.
      rewrite !map_map, !length_map, Nat.eqb_refl.
      now rewrite (zip_with_map_same (where_ zero)). }
  reflexivity.
Qed.

(** Scalars only: Python divides two Python floats, and raises at a zero
    divisor; in every other case [rate] is a numpy scalar, and the first
    mask assignment raises. *)
Lemma LIF_io_scalar (px pf pb pT : bool) (x f b T : num) :
  LIF_io log (scalar px x) (scalar pf f) (scalar pb b) (scalar pT T)
  = Raise (if px && pf && pb && pT && eqb (sub (drive1 f b x) T) zero
           then ZeroDivisionError else TypeError).
Proof.
  unfold LIF_io, drive, drive1.
  destruct px, pf, pb, pT; cbn [scalar binop bind fmap lift2 as_numpy truediv andb];
    try reflexivity.
  now destruct (eqb _ zero).
Qed.

End RateFacts.

(** ** A function with the properties of the logarithm *)

Lemma sign_log_spec : log_spec sign_log.
Proof.
  split.
  - intros y H. unfold sign_log. now rewrite H.
  - intros y H. unfold sign_log. destruct (PrimFloat.is_nan y); [reflexivity|].
    now rewrite H.
  - intros y H. unfold sign_log. rewrite H.
    assert (N : PrimFloat.is_nan y = false).
    { destruct (PrimFloat.is_nan y) eqn:N; [|reflexivity].
      apply is_nan_spec in N. rewrite eqb_spec, N in H. discriminate H. }
    assert (L : (y <? 0)%float = false).
    { rewrite ltb_spec. rewrite eqb_spec in H.
      unfold SFltb. unfold SFeqb in H.
      now destruct (SFcompare _ _) as [[| |]|]. }
    now rewrite N, L.
  - intros y H0 H1. unfold sign_log.
    assert (N : PrimFloat.is_nan y = false).
    { destruct (PrimFloat.is_nan y) eqn:N; [|reflexivity].
      apply is_nan_spec in N. rewrite ltb_spec, N in H0. discriminate H0. }
    assert (L : (y <? 0)%float = false).
    { rewrite ltb_spec, Prim2SF_zero. rewrite ltb_spec, Prim2SF_zero in H0.
      destruct (Prim2SF y) as [s|[|]| |[|] m e]; try discriminate H0; reflexivity. }
    assert (Z : (y =? 0)%float = false).
    { rewrite eqb_spec, Prim2SF_zero. rewrite ltb_spec, Prim2SF_zero in H0.
      destruct (Prim2SF y) as [s|[|]| |[|] m e]; try discriminate H0; reflexivity. }
    rewrite N, L, Z.
    destruct (y <? 1)%float eqn:L1; [reflexivity|].
    assert (E1 : (y =? 1)%float = true).
    { rewrite eqb_spec. rewrite ltb_spec in L1. rewrite leb_spec in H1.
      unfold SFeqb. unfold SFltb in L1. unfold SFleb in H1.
      now destruct (SFcompare _ _) as [[| |]|]. }
    now rewrite E1.
  - reflexivity.
Qed.

(** * The analytical rate function on binary64: masking *)

(** The rate of one input is zero below a threshold [T >= 0]. *)
Lemma rate1_subthreshold (log : float -> float) (f b T x : float) :
  log_spec log -> (0 <=? T)%float = true -> (f * x + b <=? T)%float = true ->
  rate1 log f b T x = 0%float.
Proof. intros L HT Hu. now apply subthreshold_rate. Qed.

(** C1, as stated, fails for a negative threshold: with [f = 1], [b = 0],
    [T = -1] and [x = -2] the drive [-2] is below the threshold, the
    quotient [(-2)/(-2 - -1)] is 2, its logarithm is positive, and no mask
    applies: with [log 2 = 0.6931471805599453] ([0x1.62e42fefa39efp-1]),
    the returned rate is [1/log 2 = 1.4426950408889634], not 0. *)
Lemma negative_threshold_counterexample :
  (1 * -2 + 0 <=? -1)%float = true /\
  forall log : float -> float,
    log 2%float = 0x1.62e42fefa39efp-1%float ->
    LIF_io log (Numpy (Vec [-2]%float)) (PyFloat 1%float) (PyFloat 0%float)
      (PyFloat (-1)%float)
    = Ok (Vec [0x1.71547652b82fep+0]%float) /\
    (0x1.71547652b82fep+0 =? 0)%float = false.
Proof.
  split; [reflexivity|]. intros log H. split; [|reflexivity].
  pose proof (LIF_io_vec log [-2]%float true true true 1%float 0%float (-1)%float)
    as E.
  cbn [scalar] in E. rewrite E. cbn [map].
  unfold rate1, rate_of_drive, drive1.
  change (div (add (mul 1 (-2)) 0) (sub (add (mul 1 (-2)) 0) (-1)))%float
    with 2%float.
  rewrite H. reflexivity.
Qed.

(** C1, amended: on binary64, for a threshold [T >= 0], every array [x]
    (one- or two-dimensional) and all scalars [f] and [b], the call returns
    (it raises nothing) an array of the shape of [x] that is exactly 0 at
    every position where the computed drive [f*x + b] is [<= T], whatever
    the quotient and its logarithm are there (a non-positive value, an
    infinity or NaN). *)
Theorem LIF_io_subthreshold_zero (log : float -> float)
    (x : list float) (xm : list (list float)) (pf pb pT : bool) (f b T : float) :
  log_spec log ->
  (0 <=? T)%float = true ->
  (exists rate,
     LIF_io log (Numpy (Vec x)) (scalar pf f) (scalar pb b) (scalar pT T)
     = Ok (Vec rate) /\
     length rate = length x /\
     forall k, k < length x ->
       (f * nth k x nan + b <=? T)%float = true -> nth k rate nan = 0%float) /\
  (exists rate,
     LIF_io log (Numpy (Mat xm)) (scalar pf f) (scalar pb b) (scalar pT T)
     = Ok (Mat rate) /\
     length rate = length xm /\
     forall j k, j < length xm -> k < length (nth j xm []) ->
       length (nth j rate []) = length (nth j xm []) /\
       ((f * nth k (nth j xm []) nan + b <=? T)%float = true ->
        nth k (nth j rate []) nan = 0%float)).
Proof.
  intros L HT. split.
  - exists (map (rate1 log f b T) x).
    split; [apply LIF_io_vec|]. split; [apply length_map|].
    intros k Hk Hsub.
    rewrite (nth_map_in (rate1 log f b T) nan) by assumption.
    now apply rate1_subthreshold.
  - exists (map (map (rate1 log f b T)) xm).
    split; [apply LIF_io_mat|]. split; [apply length_map|].
    intros j k Hj Hk.
    rewrite (nth_map_in (map (rate1 log f b T)) []) by assumption.
    split; [apply length_map|]. intros Hsub.
    rewrite (nth_map_in (rate1 log f b T) nan) by assumption.
    now apply rate1_subthreshold.
Qed.

Lemma LIF_io_subthreshold_zero_witness :
  (exists rate,
     LIF_io sign_log (Numpy (Vec [-5; 1; 5; nan; neg_infinity]%float))
       (scalar true 0.5%float) (scalar true 0%float) (scalar true 1%float)
     = Ok (Vec rate) /\
     length rate = 5 /\
     forall k, k < 5 ->
       (0.5 * nth k [-5; 1; 5; nan; neg_infinity] nan + 0 <=? 1)%float = true ->
       nth k rate nan = 0%float) /\
  (exists rate,
     LIF_io sign_log (Numpy (Mat [[-5; 1]; [5; infinity]]%float))
       (scalar true 0.5%float) (scalar true 0%float) (scalar true 1%float)
     = Ok (Mat rate) /\
     length rate = 2 /\
     forall j k, j < 2 -> k < length (nth j [[-5; 1]; [5; infinity]]%float []) ->
       length (nth j rate []) = length (nth j [[-5; 1]; [5; infinity]]%float []) /\
       ((0.5 * nth k (nth j [[-5; 1]; [5; infinity]] []) nan + 0 <=? 1)%float = true ->
        nth k (nth j rate []) nan = 0%float)).
Proof.
  exact (@LIF_io_subthreshold_zero sign_log [-5; 1; 5; nan; neg_infinity]%float
           [[-5; 1]; [5; infinity]]%float true true true 0.5%float 0%float 1%float
           sign_log_spec eq_refl).
Defined.

(** * The analytical rate function: arrays and scalars *)

(** C8, as stated, fails: for scalars [x], [f], [b], [T] (here the input 5
    and the parameters 0.5, 0 and 1, as Python floats or as numpy scalars)
    the value [rate] is a numpy scalar, and the first mask assignment
    [rate[out<=0] = 0] raises a [TypeError], whatever the logarithm is. *)
Lemma scalar_input_counterexample :
  (forall log : float -> float,
     LIF_io log (PyFloat 5%float) (PyFloat 0.5%float) (PyFloat 0%float)
       (PyFloat 1%float) = Raise TypeError) /\
  (forall log : float -> float,
     LIF_io log (Numpy (Scalar 5%float)) (Numpy (Scalar 0.5%float))
       (Numpy (Scalar 0%float)) (Numpy (Scalar 1%float)) = Raise TypeError).
Proof. split; intros log; reflexivity. Qed.

(** C8, amended: [LIF_io] takes an array [x].  For every one- or
    two-dimensional [x] and scalars [f], [b], [T] it returns, without
    raising, the array of the rates of the entries of [x]; on binary64 the
    rate of an entry is [1/out] where the computed logarithm
    [out = log(u/(u - T))] of the computed drive [u = f*x + b] is positive,
    and 0 everywhere else.  For a scalar [x] with scalar [f], [b], [T] it
    raises: a [ZeroDivisionError] when all four are Python floats and
    [f*x + b - T] is zero, a [TypeError] in every other case. *)
Theorem LIF_io_array_input (log : float -> float) :
  (forall (x : list float) (pf pb pT : bool) (f b T : float),
     LIF_io log (Numpy (Vec x)) (scalar pf f) (scalar pb b) (scalar pT T)
     = Ok (Vec (map (rate1 log f b T) x))) /\
  (forall (x : list (list float)) (pf pb pT : bool) (f b T : float),
     LIF_io log (Numpy (Mat x)) (scalar pf f) (scalar pb b) (scalar pT T)
     = Ok (Mat (map (map (rate1 log f b T)) x))) /\
  (forall f b T x : float,
     rate1 log f b T x =
     let u := (f * x + b)%float in
     let out := log (u / (u - T))%float in
     if (0 <? out)%float then (1 / out)%float else 0%float) /\
  (forall (px pf pb pT : bool) (x f b T : float),
     LIF_io log (scalar px x) (scalar pf f) (scalar pb b) (scalar pT T)
     = Raise (if px && pf && pb && pT && (f * x + b - T =? 0)%float
              then ZeroDivisionError else TypeError)).
Proof.
  split; [|split; [|split]].
  - apply LIF_io_vec.
  - apply LIF_io_mat.
  - intros f b T x. apply masked_rate_eq.
  - intros px pf pb pT x f b T.
    exact (LIF_io_scalar log px pf pb pT x f b T).
Qed.

(** * The decoder: invertibility and optimality *)

Module DecoderTheory.

Import mathcomp.boot.boot mathcomp.order.order mathcomp.algebra.algebra.
Import GRing.Theory Num.Theory Order.Theory.
Import Decoder.
Local Open Scope ring_scope.

Section Norm.

Variable K : realFieldType.

Lemma sqnormE m n (A : 'M[K]_(m, n)) : sqnorm A = \tr (A *m A^T).
Proof.
rw /sqnorm /mxtrace; apply: eq_bigr => i _.
by rw mxE; apply: eq_bigr => j _; rw mxE expr2.
Qed.

Lemma sqnorm_ge0 m n (A : 'M[K]_(m, n)) : 0 <= sqnorm A.
Proof.
rw /sqnorm; apply: sumr_ge0 => i _; apply: sumr_ge0 => j _.
exact: sqr_ge0.
Qed.

Lemma sqnorm_eq0 m n (A : 'M[K]_(m, n)) : sqnorm A = 0 -> A = 0.
Proof.
move=> A0; apply/matrixP => i j; rw mxE.
have Hi : \sum_j (A i j) ^+ 2 = 0.
  apply: (@psumr_eq0P _ _ _ (fun i => \sum_j (A i j) ^+ 2) _ A0 i isT) => k _.
  by apply: sumr_ge0 => l _; apply: sqr_ge0.
have := @psumr_eq0P _ _ _ _ (fun k _ => sqr_ge0 (A i k)) Hi j isT.
by move/eqP; rw sqrf_eq0 => /eqP.
Qed.

Lemma sqnormD m n (A B : 'M[K]_(m, n)) :
  sqnorm (A + B) = sqnorm A + \tr (A *m B^T) *+ 2 + sqnorm B.
Proof.
rw !sqnormE linearD /= mulmxDl !mulmxDr !linearD /=.
have -> : \tr (B *m A^T) = \tr (A *m B^T) by rw -mxtrace_tr trmx_mul trmxK.
by rw mulr2n !addrA.
Qed.

Lemma sqnormN m n (A : 'M[K]_(m, n)) : sqnorm (- A) = sqnorm A.
Proof. by rw !sqnormE linearN /= mulNmx mulmxN opprK. Qed.

End Norm.

Arguments sqnormE {K m n} A.
Arguments sqnorm_ge0 {K m n} A.
Arguments sqnorm_eq0 {K m n} A _.
Arguments sqnormD {K m n} A B.
Arguments sqnormN {K m n} A.

Section Ridge.

Variable K : realFieldType.
Variables (N nSamples p : nat).
Variables (Y : 'M[K]_(p, nSamples)) (R : 'M[K]_(N, nSamples)) (lam : K).
Hypothesis lam_gt0 : 0 < lam.

(** The quadratic form of [R R^T + lambda I]. *)
Lemma gram_form (v : 'rV[K]_N) :
  \tr (v *m gram R lam *m v^T) = sqnorm (v *m R) + lam * sqnorm v.
Proof.
rw /gram mulmxDr mulmxDl linearD /= !sqnormE trmx_mul !mulmxA.
by rw mul_mx_scalar -scalemxAl linearZ.
Qed.

Lemma gram_unit : gram R lam \in unitmx.
Proof.
rw -row_free_unit; apply: inj_row_free => v vG.
apply: sqnorm_eq0.
have := gram_form v; rw vG mul0mx mxtrace0 => /esym H.
apply/eqP; rw eq_le sqnorm_ge0 andbT -(pmulr_rle0 _ lam_gt0).
by rw -H lerDr sqnorm_ge0.
Qed.

(** The normal equation [D (R R^T + lambda I) = Y R^T]. *)
Lemma normal_equation : decoder Y R lam *m gram R lam = Y *m R^T.
Proof. by rw /decoder mulmxKV // gram_unit. Qed.

(** The loss of any [D'] exceeds the loss of the decoder by
    [|(D' - D) R|^2 + lambda |D' - D|^2]. *)
Lemma loss_split (D' : 'M[K]_(p, N)) :
  loss Y R lam D' =
  loss Y R lam (decoder Y R lam)
  + (sqnorm ((D' - decoder Y R lam) *m R) + lam * sqnorm (D' - decoder Y R lam)).
Proof.
set D := decoder Y R lam; set E := D' - D.
have -> : D' = D + E by rw /E addrC subrK.
rw /loss mulmxDl opprD addrA sqnormD sqnormN (sqnormD D E).
have zero : lam *: D - (Y - D *m R) *m R^T = 0.
  rw mulmxBl opprB addrA -mulmxA -mul_mx_scalar -mulmxDr.
  by rw [lam%:M + _]addrC -/(gram R lam) normal_equation subrr.
have cross : lam * \tr (D *m E^T) + \tr ((Y - D *m R) *m (- (E *m R))^T) = 0.
  rw -mxtraceZ scalemxAl linearN /= mulmxN (linearN mxtrace) /=.
  rw trmx_mul mulmxA.
  by rw -(linearB mxtrace) /= -mulmxBl zero mul0mx mxtrace0.
have -> : \tr ((Y - D *m R) *m (- (E *m R))^T) = - (lam * \tr (D *m E^T)).
  by apply/eqP; rw -addr_eq0 addrC cross.
by ring.
Qed.

(** C6: for [lambda > 0] the matrix [R R^T + lambda I] is invertible,
    whatever the rank of [R] and however many neurons and samples there
    are, and the decoder [Y R^T (R R^T + lambda I)^-1] is the minimiser of
    the loss [|Y - D R|^2 + lambda |D|^2]: no [D] has a smaller loss, and
    only the decoder attains its loss. *)
Theorem decoder_minimizes :
  gram R lam \in unitmx /\
  forall D : 'M[K]_(p, N),
    loss Y R lam (decoder Y R lam) <= loss Y R lam D /\
    (loss Y R lam D = loss Y R lam (decoder Y R lam) -> D = decoder Y R lam).
Proof.
split; first exact: gram_unit.
move=> D'.
have Hs := loss_split D'.
have H1 := sqnorm_ge0 ((D' - decoder Y R lam) *m R).
have H2 := sqnorm_ge0 (D' - decoder Y R lam).
split.
  by rw Hs lerDl; apply: addr_ge0 => //; apply: mulr_ge0 => //; exact: ltW.
move=> Heq; apply/eqP; rw -subr_eq0; apply/eqP; apply: sqnorm_eq0.
move/eqP: Hs; rw Heq -subr_eq0 opprD addrA subrr sub0r oppr_eq0.
rw paddr_eq0 ?pmulr_rge0 //.
by case/andP => _; rw mulf_eq0 (gt_eqF lam_gt0) /= => /eqP.
Qed.

End Ridge.

(** Two neurons, one sample: [R R^T] is singular, and the regularised
    matrix is invertible all the same. *)
Lemma decoder_minimizes_witness :
  @gram rat 2 1 (const_mx 1) 1 \in unitmx /\
  forall D : 'M[rat]_(1, 2),
    @loss rat 2 1 1 (const_mx 1) (const_mx 1) 1
      (@decoder rat 2 1 1 (const_mx 1) (const_mx 1) 1)
    <= @loss rat 2 1 1 (const_mx 1) (const_mx 1) 1 D /\
    (@loss rat 2 1 1 (const_mx 1) (const_mx 1) 1 D
     = @loss rat 2 1 1 (const_mx 1) (const_mx 1) 1
         (@decoder rat 2 1 1 (const_mx 1) (const_mx 1) 1) ->
     D = @decoder rat 2 1 1 (const_mx 1) (const_mx 1) 1).
Proof.
exact: (@decoder_minimizes rat 2 1 1 (const_mx 1) (const_mx 1) 1 ltr01).
Defined.

End DecoderTheory.

(** * Further properties of the simulator *)

(** ** Traces are determined neuron by neuron and step by step *)

Section Traces.

Context {num : Type} {dtype : Dtype num}.

(** Two runs, possibly of different populations and on different inputs,
    store the same values for two neurons of equal parameters as long as
    the inputs agree. *)
Lemma stored_agree (x x' F F' b b' T T' : list num) (dt : num)
    (V s r V' s' r' : matrix num) (j j' m : nat) :
  nth j F zero = nth j' F' zero ->
  nth j b zero = nth j' b' zero ->
  nth j T zero = nth j' T' zero ->
  (forall k, k < m -> nth k x zero = nth k x' zero) ->
  (get V j 0 = zero /\ get s j 0 = zero /\ get r j 0 = zero) ->
  (get V' j' 0 = zero /\ get s' j' 0 = zero /\ get r' j' 0 = zero) ->
  (forall i, 1 <= i <= m -> stored x F b T dt V s r j i) ->
  (forall i, 1 <= i <= m -> stored x' F' b' T' dt V' s' r' j' i) ->
  forall i, i <= m ->
    get V j i = get V' j' i /\ get s j i = get s' j' i /\ get r j i = get r' j' i.
Proof.
  intros HF Hb HT Hx (V0 & s0 & r0) (V0' & s0' & r0') Hst Hst'.
  induction i as [|i IH]; intros Hi.
  - rewrite V0, s0, r0, V0', s0', r0'. now repeat split.
  - destruct IH as (EV & Es & Er); [lia|].
    destruct (Hst (S i)) as (AV & As & Ar); [lia|].
    destruct (Hst' (S i)) as (AV' & As' & Ar'); [lia|].
    unfold pre_reset in *. simpl in *. rewrite Nat.sub_0_r in *.
    rewrite AV, As, Ar, AV', As', Ar'.
    rewrite <- EV, <- Es, <- Er, <- HF, <- Hb, <- HT, <- (Hx i) by lia.
    now repeat split.
Qed.

Lemma row_ext (l l' : list num) :
  length l = length l' ->
  (forall i, i < length l -> nth i l zero = nth i l' zero) -> l = l'.
Proof. intros Hlen Hnth. now apply (nth_ext l l' zero zero). Qed.

End Traces.

(** X1: the neurons of a population do not interact: the three traces of a
    neuron depend on the input and on its own weight, bias and threshold
    only.  Two neurons with the same parameters have the same rows, in one
    population or in two of different sizes. *)
Theorem neurons_independent {num : Type} {dtype : Dtype num}
    (x F b T F' b' T' : list num) (dt : num) (j j' : nat) :
  length b = length F -> length T = length F ->
  length b' = length F' -> length T' = length F' ->
  j < length F -> j' < length F' ->
  nth j F zero = nth j' F' zero ->
  nth j b zero = nth j' b' zero ->
  nth j T zero = nth j' T' zero ->
  exists V s r V' s' r',
    run_LIF_network (Vec x) (Vec F) b T dt = Ok (V, s, r) /\
    run_LIF_network (Vec x) (Vec F') b' T' dt = Ok (V', s', r') /\
    nth j V [] = nth j' V' [] /\
    nth j s [] = nth j' s' [] /\
    nth j r [] = nth j' r' [].
Proof.
  intros Hb HT Hb' HT' Hj Hj' EF Eb ET.
  destruct (run_vec x F b T dt eq_refl eq_refl Hb HT)
    as (V & s & r & E & HV & Hs & Hr & H0 & Hst).
  destruct (run_vec x F' b' T' dt eq_refl eq_refl Hb' HT')
    as (V' & s' & r' & E' & HV' & Hs' & Hr' & H0' & Hst').
  exists V, s, r, V', s', r'. split; [assumption|]. split; [assumption|].
  assert (Hall : forall i, i < length x ->
            get V j i = get V' j' i /\ get s j i = get s' j' i /\
            get r j i = get r' j' i).
  { intros i Hi.
    apply (@stored_agree num dtype x x F F' b b' T T' dt V s r V' s' r'
             j j' (length x - 1)); auto; try lia.
    - intros k Hk. apply Hst; [assumption|lia].
    - intros k Hk. apply Hst'; [assumption|lia]. }
  repeat split; apply row_ext;
    rewrite ?(shape_row HV Hj), ?(shape_row Hs Hj), ?(shape_row Hr Hj),
            ?(shape_row HV' Hj'), ?(shape_row Hs' Hj'), ?(shape_row Hr' Hj');
    try reflexivity; intros i Hi; now apply Hall.
Qed.

Lemma neurons_independent_witness :
  exists V s r V' s' r' : matrix float,
    run_LIF_network (Vec [2; 2; 2]%float) (Vec [1; 0.25]%float)
      [0; 0]%float [1; 1]%float 0.5%float = Ok (V, s, r) /\
    run_LIF_network (Vec [2; 2; 2]%float) (Vec [0.25]%float)
      [0]%float [1]%float 0.5%float = Ok (V', s', r') /\
    nth 1 V [] = nth 0 V' [] /\
    nth 1 s [] = nth 0 s' [] /\
    nth 1 r [] = nth 0 r' [].
Proof.
  refine (@neurons_independent float float64 [2; 2; 2]%float
            [1; 0.25]%float [0; 0]%float [1; 1]%float
            [0.25]%float [0]%float [1]%float 0.5%float 1 0
            eq_refl eq_refl eq_refl eq_refl _ _ _ _ _);
    simpl; solve [lia | reflexivity].
Defined.

(** X2: the simulation is causal: the run on the first [m] inputs is the
    run on the whole input cut to its first [m] columns. *)
Theorem run_prefix {num : Type} {dtype : Dtype num}
    (x F b T : list num) (dt : num) (m : nat) :
  length b = length F -> length T = length F -> m <= length x ->
  exists V s r Vm sm rm,
    run_LIF_network (Vec x) (Vec F) b T dt = Ok (V, s, r) /\
    run_LIF_network (Vec (firstn m x)) (Vec F) b T dt = Ok (Vm, sm, rm) /\
    forall j, j < length F ->
      nth j Vm [] = firstn m (nth j V []) /\
      nth j sm [] = firstn m (nth j s []) /\
      nth j rm [] = firstn m (nth j r []).
Proof.
  intros Hb HT Hm.
  assert (Lm : length (firstn m x) = m) by (rewrite length_firstn; lia).
  destruct (run_vec x F b T dt eq_refl eq_refl Hb HT)
    as (V & s & r & E & HV & Hs & Hr & H0 & Hst).
  destruct (run_vec (firstn m x) F b T dt Lm eq_refl Hb HT)
    as (Vm & sm & rm & Em & HVm & Hsm & Hrm & H0m & Hstm).
  exists V, s, r, Vm, sm, rm. split; [assumption|]. split; [assumption|].
  intros j Hj.
  assert (Hall : forall i, i < m ->
            get Vm j i = get V j i /\ get sm j i = get s j i /\
            get rm j i = get r j i).
  { intros i Hi.
    apply (@stored_agree num dtype (firstn m x) x F F b b T T dt
             Vm sm rm V s r j j (m - 1)); auto; try lia.
    - intros k Hk. rewrite nth_firstn.
      now rewrite (proj2 (Nat.ltb_lt k m)) by lia.
    - intros k Hk. apply Hstm; [assumption|lia].
    - intros k Hk. apply Hst; [assumption|lia]. }
  repeat split; apply row_ext;
    rewrite ?length_firstn, ?(shape_row HVm Hj), ?(shape_row Hsm Hj),
            ?(shape_row Hrm Hj), ?(shape_row HV Hj), ?(shape_row Hs Hj),
            ?(shape_row Hr Hj); try lia;
    intros i Hi; rewrite nth_firstn, (proj2 (Nat.ltb_lt i m)) by lia;
    now apply Hall.
Qed.

Lemma run_prefix_witness :
  exists V s r Vm sm rm : matrix float,
    run_LIF_network (Vec [2; 2; 2; 2]%float) (Vec [1; 0.25]%float)
      [0; 0]%float [1; 1]%float 0.5%float = Ok (V, s, r) /\
    run_LIF_network (Vec [2; 2]%float) (Vec [1; 0.25]%float)
      [0; 0]%float [1; 1]%float 0.5%float = Ok (Vm, sm, rm) /\
    forall j, j < 2 ->
      nth j Vm [] = firstn 2 (nth j V []) /\
      nth j sm [] = firstn 2 (nth j s []) /\
      nth j rm [] = firstn 2 (nth j r []).
Proof.
  refine (@run_prefix float float64 [2; 2; 2; 2]%float [1; 0.25]%float
            [0; 0]%float [1; 1]%float 0.5%float 2 eq_refl eq_refl _).
  simpl. lia.
Defined.

(** ** Reset and regular firing *)

Lemma nth_repeat_in {A : Type} (c d : A) (n k : nat) :
  k < n -> nth k (repeat c n) d = c.
Proof.
  revert k. induction n as [|n IH]; intros k Hk; [lia|].
  destruct k as [|k]; simpl; [reflexivity|]. apply IH. lia.
Qed.

(** X3: the stored voltage never reaches the threshold: for a neuron whose
    threshold is not reached by the reset value 0 (a positive threshold),
    [V[j, i] >= T[j]] is false at every time point. *)
Theorem voltage_below_threshold {num : Type} {dtype : Dtype num}
    (x F b T : list num) (dt : num) :
  length b = length F -> length T = length F ->
  exists V s r,
    run_LIF_network (Vec x) (Vec F) b T dt = Ok (V, s, r) /\
    forall j i, j < length F -> i < length x ->
      geb zero (nth j T zero) = false ->
      geb (get V j i) (nth j T zero) = false.
Proof.
  intros Hb HT.
  destruct (run_vec x F b T dt eq_refl eq_refl Hb HT)
    as (V & s & r & E & _ & _ & _ & H0 & Hst).
  exists V, s, r. split; [assumption|].
  intros j i Hj Hi Hz.
  destruct i as [|i].
  - destruct (H0 j Hj) as (-> & _). assumption.
  - destruct (Hst j (S i) Hj) as (EV & _); [lia|].
    rewrite EV.
    destruct (geb (pre_reset x F b dt V j (S i)) (nth j T zero)) eqn:G;
      assumption.
Qed.

Lemma voltage_below_threshold_witness :
  exists V s r : matrix float,
    run_LIF_network (Vec [2; 2; 2]%float) (Vec [1; 0.25]%float)
      [0; 0]%float [1; 1]%float 0.5%float = Ok (V, s, r) /\
    forall j i, j < 2 -> i < 3 ->
      PrimFloat.leb (nth j [1; 1]%float 0%float) 0%float = false ->
      PrimFloat.leb (nth j [1; 1]%float 0%float) (get V j i) = false.
Proof.
  exact (voltage_below_threshold [2; 2; 2]%float [1; 0.25]%float
           [0; 0]%float [1; 1]%float 0.5%float eq_refl eq_refl).
Defined.

(** X4: under a constant input a neuron fires regularly: if it spikes at
    step [p], its voltage repeats with period [p] from the start, and its
    spike train repeats with period [p] from step 1 on. *)
Theorem constant_input_periodic {num : Type} {dtype : Dtype num}
    (c : num) (F b T : list num) (dt : num) (nT j p : nat)
    (V s r : matrix num) :
  one <> zero ->
  length b = length F -> length T = length F ->
  j < length F -> 1 <= p < nT ->
  run_LIF_network (Vec (repeat c nT)) (Vec F) b T dt = Ok (V, s, r) ->
  get s j p = one ->
  forall i, i + p < nT ->
    get V j (i + p) = get V j i /\
    (1 <= i -> get s j (i + p) = get s j i).
Proof.
  intros H10 Hb HT Hj Hp E Hsp.
  destruct (run_vec (repeat c nT) F b T dt (repeat_length c nT) eq_refl Hb HT)
    as (V0 & s0 & r0 & E0 & _ & _ & _ & H0 & Hst).
  rewrite E in E0. inversion E0; subst V0 s0 r0; clear E0.
  assert (Hreset : get V j p = zero).
  { destruct (Hst j p Hj Hp) as (EV & Es & _).
    rewrite Hsp in Es.
    destruct (geb (pre_reset (repeat c nT) F b dt V j p) (nth j T zero));
      [assumption|congruence]. }
  assert (Hpre : forall i, i + p < nT -> get V j (i + p) = get V j i ->
            pre_reset (repeat c nT) F b dt V j (S i + p) =
            pre_reset (repeat c nT) F b dt V j (S i)).
  { intros i Hi EV. unfold pre_reset.
    replace (S i + p - 1) with (i + p) by lia.
    replace (S i - 1) with i by lia.
    now rewrite EV, !nth_repeat_in by lia. }
  assert (G : forall i, i + p < nT ->
            get V j (i + p) = get V j i /\
            (1 <= i -> get s j (i + p) = get s j i)).
  { induction i as [|i IH]; intros Hi.
    - split; [|lia]. simpl. rewrite Hreset.
      now destruct (H0 j Hj) as (-> & _).
    - destruct IH as [EV _]; [lia|].
      destruct (Hst j (S i + p) Hj) as (EV1 & Es1 & _); [lia|].
      destruct (Hst j (S i) Hj) as (EV2 & Es2 & _); [lia|].
      rewrite (Hpre i) in EV1, Es1 by (lia || assumption).
      split; [|intros _]; congruence. }
  exact G.
Qed.

Lemma constant_input_periodic_witness :
  exists V s r : matrix float,
    run_LIF_network (Vec (repeat 1.5%float 7)) (Vec [1]%float)
      [0]%float [1]%float 0.5%float = Ok (V, s, r) /\
    get s 0 2 = 1%float /\
    forall i, i + 2 < 7 ->
      get V 0 (i + 2) = get V 0 i /\
      (1 <= i -> get s 0 (i + 2) = get s 0 i).
Proof.
  eexists _, _, _.
  split; [vm_compute; reflexivity|].
  split; [reflexivity|].
  refine (@constant_input_periodic float float64 1.5%float [1]%float
            [0]%float [1]%float 0.5%float 7 0 2 _ _ _ _ eq_refl eq_refl
            _ _ _ _).
  - vm_compute. discriminate.
  - simpl. lia.
  - lia.
  - vm_compute. reflexivity.
  - reflexivity.
Defined.

(** ** Biases and thresholds of other lengths *)

Lemma mapM_stretch {A B C : Type} (f : A -> B -> result C) (l : list A) (c : B) :
  mapM (fun a => f a c) l =
  mapM (fun p => f (fst p) (snd p)) (combine l (repeat c (length l))).
Proof.
  induction l as [|a l IH]; simpl; [reflexivity|]. now rewrite IH.
Qed.

(** An axis of size one on the right is stretched: it behaves as the value
    repeated along the other axis. *)
Lemma zipB_stretch {A B C : Type} (f : A -> B -> result C) (l : list A) (c : B) :
  zipB f l [c] = zipB f l (repeat c (length l)).
Proof.
  unfold zipB at 2. rewrite repeat_length, Nat.eqb_refl.
  rewrite <- mapM_stretch. unfold zipB.
  destruct l as [|a [|a' l]]; reflexivity.
Qed.

Lemma zipB_mismatch {A B C : Type} (f : A -> B -> result C)
    (v : list A) (w : list B) :
  length v <> length w -> length v <> 1 -> length w <> 1 ->
  zipB f v w = Raise ValueError.
Proof.
  intros Hvw Hv Hw. unfold zipB.
  rewrite (proj2 (Nat.eqb_neq _ _) Hvw).
  destruct v as [|a [|a' v]]; simpl in Hv; try lia;
    destruct w as [|c [|c' w]]; simpl in Hw; try lia; reflexivity.
Qed.

Lemma zipB_one_l {A B C : Type} (f : A -> B -> C) (a : A) (w : list B) :
  zipB (fun a b => Ok (f a b)) [a] w = Ok (map (f a) w).
Proof.
  unfold zipB. destruct (length [a] =? length w) eqn:E.
  - apply Nat.eqb_eq in E. destruct w as [|c [|c' w]]; try discriminate.
    reflexivity.
  - apply mapM_pure.
Qed.

Lemma fit_length {A : Type} (n : nat) (v vals : list A) :
  fit n v = Ok vals -> length vals = n.
Proof.
  unfold fit. destruct (Nat.eqb_spec (length v) n) as [E|E].
  - intros H. inversion H. now subst.
  - destruct v as [|c [|c' v]]; try discriminate.
    intros H. inversion H. apply repeat_length.
Qed.

Lemma fit_mismatch {A : Type} (n : nat) (v : list A) :
  length v <> n -> length v <> 1 -> fit n v = Raise ValueError.
Proof.
  intros Hn H1. unfold fit. rewrite (proj2 (Nat.eqb_neq _ _) Hn).
  destruct v as [|c [|c' v]]; simpl in H1; try lia; reflexivity.
Qed.

Lemma broadcast_to_length {A : Type} (n : nat) (a : ndarray A) (vals : list A) :
  broadcast_to n a = Ok vals -> length vals = n.
Proof.
  destruct a as [c|v|m]; simpl.
  - intros H. inversion H. apply repeat_length.
  - apply fit_length.
  - destruct m as [|row [|row' m]]; try discriminate. apply fit_length.
Qed.

Section OtherLengths.

Context {num : Type} {dtype : Dtype num}.

Lemma assign_column_length (M M' : matrix num) k a :
  assign_column M k a = Ok M' -> length M' = length M.
Proof.
  unfold assign_column.
  destruct (broadcast_to (length M) a) as [vals| |] eqn:E; [|discriminate..].
  cbn [bind]. intros H. inversion H.
  rewrite zip_with_length; [reflexivity|].
  now rewrite (broadcast_to_length _ _ E).
Qed.

Lemma update_voltage_length (x F : ndarray num) b dt i (V V1 : matrix num) :
  update_voltage x F b dt i V = Ok V1 -> length V1 = length V.
Proof.
  unfold update_voltage. intros E.
  destruct (item x (i - 1)); [|discriminate..]. cbn [bind] in E.
  destruct (mul_ F _); [|discriminate..]. cbn [bind] in E.
  destruct (add_ _ _); [|discriminate..]. cbn [bind] in E.
  destruct (add_ _ _); [|discriminate..]. cbn [bind] in E.
  destruct (mul_ _ _); [|discriminate..]. cbn [bind] in E.
  destruct (add_ _ _); [|discriminate..]. cbn [bind] in E.
  now apply assign_column_length in E.
Qed.

(** A step that succeeds keeps the number of rows of [V]. *)
Lemma step_length (x F : ndarray num) (b T : list num) dt N i
    (V s r V' s' r' : matrix num) :
  step x F b T dt N i (V, s, r) = Ok (V', s', r') -> length V' = length V.
Proof.
  unfold step. intros E.
  destruct (update_voltage x F b dt i V) as [V1| |] eqn:EV; [|discriminate..].
  cbn [bind] in E.
  destruct (update_filtered dt i s r); [|discriminate..]. cbn [bind] in E.
  destruct (zipB _ (column V1 i) T); [|discriminate..]. cbn [bind] in E.
  destruct (bool_index (seq 0 N) _); [|discriminate..]. cbn [bind] in E.
  inversion E. rewrite assign_entries_length.
  now apply update_voltage_length in EV.
Qed.

Lemma for_range_ext_inv {S : Type} (P : S -> Prop) lo hi
    (body body' : nat -> S -> result S) st :
  P st ->
  (forall i st0, P st0 -> body i st0 = body' i st0) ->
  (forall i st0 st1, P st0 -> body i st0 = Ok st1 -> P st1) ->
  for_range lo hi body st = for_range lo hi body' st.
Proof.
  intros H0 Hext Hkeep. unfold for_range.
  generalize (seq lo (hi - lo)). intros l. revert st H0.
  induction l as [|i l IH]; simpl; intros st H0; [reflexivity|].
  rewrite <- Hext by assumption.
  destruct (body i st) as [st1|e|] eqn:E.
  - apply IH. eapply Hkeep; eassumption.
  - now rewrite !fold_raise.
  - now rewrite !fold_undefined.
Qed.

Lemma update_voltage_stretch (x F : list num) (c : num) dt i (V : matrix num) :
  length V = length F ->
  update_voltage (Vec x) (Vec F) [c] dt i V =
  update_voltage (Vec x) (Vec F) (repeat c (length F)) dt i V.
Proof.
  intros HV. unfold update_voltage. cbn [item].
  destruct (nth_error x (i - 1)) as [xi|]; [|reflexivity]. cbn [bind].
  unfold add_, mul_, neg_. cbn [lift1 lift2 bind].
  rewrite zipB_same_length by lens. cbn [fmap bind lift2].
  rewrite zipB_stretch, zip_with_length by lens.
  now rewrite length_map, column_length, HV.
Qed.

End OtherLengths.

(** X5: a bias array of length one is broadcast over the neurons: the call
    gives the same result as with the bias repeated [N] times. *)
Theorem bias_broadcast {num : Type} {dtype : Dtype num}
    (x F : list num) (c : num) (T : list num) (dt : num) :
  run_LIF_network (Vec x) (Vec F) [c] T dt =
  run_LIF_network (Vec x) (Vec F) (repeat c (length F)) T dt.
Proof.
  unfold run_LIF_network. cbn [len bind].
  apply (for_range_ext_inv
           (fun st : matrix num * matrix num * matrix num =>
              let '(V, _, _) := st in length V = length F)).
  - unfold zeros. apply repeat_length.
  - intros i [[V s] r] HV. unfold step.
    now rewrite update_voltage_stretch.
  - intros i [[V s] r] [[V' s'] r'] HV E.
    apply step_length in E. congruence.
Qed.

(** X6: a threshold array of length one is broadcast over the neurons, for
    every input [x] and bias [b] (also when the call raises). *)
Theorem threshold_broadcast {num : Type} {dtype : Dtype num}
    (x : ndarray num) (F b : list num) (t : num) (dt : num) :
  run_LIF_network x (Vec F) b [t] dt =
  run_LIF_network x (Vec F) b (repeat t (length F)) dt.
Proof.
  unfold run_LIF_network. cbn [len].
  destruct (len x) as [nT| |]; [|reflexivity..]. cbn [bind].
  apply (for_range_ext_inv
           (fun st : matrix num * matrix num * matrix num =>
              let '(V, _, _) := st in length V = length F)).
  - unfold zeros. apply repeat_length.
  - intros i [[V s] r] HV. unfold step.
    destruct (update_voltage x (Vec F) b dt i V) as [V1| |] eqn:E; [|reflexivity..].
    cbn [bind]. destruct (update_filtered dt i s r); [|reflexivity..].
    cbn [bind]. rewrite zipB_stretch.
    apply update_voltage_length in E.
    now rewrite column_length, E, HV.
  - intros i [[V s] r] [[V' s'] r'] HV E.
    apply step_length in E. congruence.
Qed.

Lemma length_one {A : Type} (l : list A) : length l = 1 -> exists a, l = [a].
Proof.
  destruct l as [|a [|a' l]]; try discriminate. intros _. now exists a.
Qed.

Section Mismatch.

Context {num : Type} {dtype : Dtype num}.

Lemma for_range_first {S : Type} (body : nat -> S -> result S) (st : S) nT e :
  2 <= nT -> body 1 st = Raise e -> for_range 1 nT body st = Raise e.
Proof.
  intros HnT E. unfold for_range.
  replace (nT - 1) with (Datatypes.S (nT - 2)) by lia.
  cbn [seq fold_left bind]. rewrite E. apply fold_raise.
Qed.

Lemma for_range_none {S : Type} (body : nat -> S -> result S) (st : S) nT :
  nT <= 1 -> for_range 1 nT body st = Ok st.
Proof.
  intros HnT. unfold for_range. now replace (nT - 1) with 0 by lia.
Qed.

Lemma update_voltage_bias_mismatch (x F b : list num) dt (V : matrix num) :
  length V = length F -> 1 <= length x ->
  length b <> length F -> length b <> 1 ->
  update_voltage (Vec x) (Vec F) b dt 1 V = Raise ValueError.
Proof.
  intros HV Hx Hb Hb1. unfold update_voltage. cbn [item].
  rewrite (nth_error_nth' x zero) by (simpl; lia). cbn [bind].
  unfold add_, mul_, neg_. cbn [lift1 lift2 bind].
  rewrite zipB_same_length by lens. cbn [fmap bind lift2].
  destruct (Nat.eq_dec (length F) 1) as [E1|E1].
  - destruct (length_one F E1) as [f ->].
    destruct (length_one V HV) as [row ->].
    cbn [column map zip_with combine fst snd].
    rewrite zipB_one_l. cbn [fmap bind lift2 map].
    rewrite zipB_one_l. cbn [fmap bind].
    unfold assign_column. cbn [length broadcast_to].
    rewrite fit_mismatch by (rewrite !length_map; simpl in Hb; lia).
    reflexivity.
  - rewrite zipB_mismatch; [reflexivity| | |assumption];
      rewrite zip_with_length by lens; rewrite length_map, column_length; lia.
Qed.

Lemma threshold_mismatch (V1 : matrix num) (T : list num) N i :
  length V1 = N -> length T <> N -> length T <> 1 -> N <> 1 ->
  zipB (fun v t => Ok (geb v t)) (column V1 i) T = Raise ValueError.
Proof.
  intros HV HT HT1 HN.
  apply zipB_mismatch; [| |assumption]; rewrite column_length; lia.
Qed.

End Mismatch.

(** X7: a bias array whose length is neither [N] nor 1 makes the call
    raise a [ValueError] in the first iteration; an input of fewer than two
    time points has no iteration, and the call returns the three zero
    arrays without looking at the bias. *)
Theorem bias_length_mismatch {num : Type} {dtype : Dtype num}
    (x F b T : list num) (dt : num) :
  length b <> length F -> length b <> 1 ->
  run_LIF_network (Vec x) (Vec F) b T dt =
  if 2 <=? length x then Raise ValueError
  else Ok (zeros (length F) (length x), zeros (length F) (length x),
           zeros (length F) (length x)).
Proof.
  intros Hb Hb1. unfold run_LIF_network. cbn [len bind].
  destruct (Nat.leb_spec 2 (length x)) as [HnT|HnT].
  - apply for_range_first; [assumption|]. unfold step.
    rewrite update_voltage_bias_mismatch; try assumption; try lia.
    + reflexivity.
    + unfold zeros. apply repeat_length.
  - apply for_range_none. lia.
Qed.

Lemma bias_length_mismatch_witness :
  run_LIF_network (Vec [2; 2; 2]%float) (Vec [1; 0.25]%float)
    [0; 0; 0]%float [1; 1]%float 0.5%float = Raise ValueError /\
  run_LIF_network (Vec [2]%float) (Vec [1; 0.25]%float)
    [0; 0; 0]%float [1; 1]%float 0.5%float =
  Ok ([[0]; [0]], [[0]; [0]], [[0]; [0]])%float.
Proof.
  split.
  - refine (@bias_length_mismatch float float64 [2; 2; 2]%float
              [1; 0.25]%float [0; 0; 0]%float [1; 1]%float 0.5%float _ _);
      simpl; lia.
  - refine (@bias_length_mismatch float float64 [2]%float
              [1; 0.25]%float [0; 0; 0]%float [1; 1]%float 0.5%float _ _);
      simpl; lia.
Defined.

(** X8: for a population of [N <> 1] neurons, a threshold array whose
    length is neither [N] nor 1 (with a bias of length [N]) makes the call
    raise a [ValueError] in the first iteration, from the comparison
    [V[:, i] >= T]; an input of fewer than two time points has no
    iteration, and the call returns the three zero arrays. *)
Theorem threshold_length_mismatch {num : Type} {dtype : Dtype num}
    (x F b T : list num) (dt : num) :
  length b = length F -> length T <> length F -> length T <> 1 ->
  length F <> 1 ->
  run_LIF_network (Vec x) (Vec F) b T dt =
  if 2 <=? length x then Raise ValueError
  else Ok (zeros (length F) (length x), zeros (length F) (length x),
           zeros (length F) (length x)).
Proof.
  intros Hb HT HT1 HN. unfold run_LIF_network. cbn [len bind].
  destruct (Nat.leb_spec 2 (length x)) as [HnT|HnT].
  - apply for_range_first; [assumption|]. unfold step.
    assert (LZ : length (zeros (length F) (length x)) = length F)
      by (unfold zeros; apply repeat_length).
    rewrite update_voltage_vec with (N := length F)
      by (assumption || reflexivity || lia).
    cbn [bind]. rewrite update_filtered_ok by reflexivity. cbn [bind].
    set (V1 := zip_with _ _ _).
    assert (LV1 : length V1 = length F).
    { unfold V1. rewrite zip_with_length; [assumption|].
      rewrite pre_column_length with (N := length F); auto. }
    now rewrite (threshold_mismatch V1 T 1 LV1 HT HT1 HN).
  - apply for_range_none. lia.
Qed.

Lemma threshold_length_mismatch_witness :
  run_LIF_network (Vec [2; 2; 2]%float) (Vec [1; 0.25]%float)
    [0; 0]%float [1; 1; 1]%float 0.5%float = Raise ValueError /\
  run_LIF_network (Vec [2]%float) (Vec [1; 0.25]%float)
    [0; 0]%float [1; 1; 1]%float 0.5%float =
  Ok ([[0]; [0]], [[0]; [0]], [[0]; [0]])%float.
Proof.
  split.
  - refine (@threshold_length_mismatch float float64 [2; 2; 2]%float
              [1; 0.25]%float [0; 0]%float [1; 1; 1]%float 0.5%float
              eq_refl _ _ _); simpl; lia.
  - refine (@threshold_length_mismatch float float64 [2]%float
              [1; 0.25]%float [0; 0]%float [1; 1; 1]%float 0.5%float
              eq_refl _ _ _); simpl; lia.
Defined.

(** ** One neuron and several thresholds *)

Lemma in_bounds_beyond (n : nat) (mask : list bool) (k : nat) :
  n <= k -> nth k mask false = true -> in_bounds n mask = false.
Proof.
  intros Hk Hm.
  assert (Hlen : k < length mask).
  { destruct (Nat.lt_ge_cases k (length mask)) as [H|H]; [assumption|].
    rewrite nth_overflow in Hm by assumption. discriminate. }
  assert (Hin : In (k, true) (combine (seq 0 (length mask)) mask)).
  { replace (k, true) with (nth k (combine (seq 0 (length mask)) mask) (0, false)).
    - apply nth_In. rewrite length_combine, length_seq. lia.
    - rewrite combine_nth by now rewrite length_seq.
      rewrite seq_nth by assumption. now rewrite Hm. }
  destruct (in_bounds n mask) eqn:E; [|reflexivity].
  unfold in_bounds in E. rewrite forallb_forall in E.
  specialize (E _ Hin). cbn [fst snd negb orb] in E.
  apply Nat.ltb_lt in E. lia.
Qed.

Lemma for_range_first_undefined {S : Type} (body : nat -> S -> result S) (st : S) nT :
  2 <= nT -> body 1 st = Undefined -> for_range 1 nT body st = Undefined.
Proof.
  intros HnT E. unfold for_range.
  replace (nT - 1) with (Datatypes.S (nT - 2)) by lia.
  cbn [seq fold_left bind]. rewrite E. apply fold_undefined.
Qed.

(** X21: one neuron with a threshold array of several entries.  The
    comparison [V[:, i] >= T] broadcasts the single voltage over [T], and
    the compiled code reads [np.arange(1)] at every position of the mask
    without checking its length: when the first voltage
    [0 + dt*(-0 + F*x[0] + b)] reaches a threshold [T[k]] with [k >= 1],
    the index leaves the array, and the behaviour of the call is
    undefined. *)
Theorem single_neuron_threshold_array {num : Type} {dtype : Dtype num}
    (x : list num) (f c : num) (T : list num) (dt : num) (k : nat) :
  2 <= length x -> 1 <= k < length T ->
  geb (add zero (mul dt (add (add (neg zero) (mul f (nth 0 x zero))) c)))
      (nth k T zero) = true ->
  run_LIF_network (Vec x) (Vec [f]) [c] T dt = Undefined.
Proof.
  intros Hx Hk Hgeb. unfold run_LIF_network. cbn [len bind length].
  apply for_range_first_undefined; [assumption|].
  destruct x as [|x0 [|x1 x]]; cbn [length] in Hx; try lia.
  unfold step.
  rewrite update_voltage_vec with (N := 1);
    [|reflexivity|reflexivity|reflexivity|cbn [length]; lia].
  cbn [bind]. rewrite update_filtered_ok by reflexivity. cbn [bind].
  cbn [zeros repeat length pre_column column map zip_with combine fst snd nth
       update Nat.sub].
  rewrite zipB_one_l. cbn [bind].
  unfold bool_index.
  rewrite (@in_bounds_beyond _ _ k); [reflexivity|cbn [length seq]; lia|].
  cbn [nth] in Hgeb.
  rewrite (nth_map_in _ zero) by lia. assumption.
Qed.

Lemma single_neuron_threshold_array_witness :
  run_LIF_network (Vec [2; 2]%float) (Vec [1]%float) [0]%float [5; 0.5]%float
    0.5%float = Undefined.
Proof.
  refine (@single_neuron_threshold_array float float64 [2; 2]%float 1%float
            0%float [5; 0.5]%float 0.5%float 1 _ _ _).
  - simpl. lia.
  - simpl. lia.
  - reflexivity.
Defined.

Lemma in_bounds_first (m0 : bool) (n : nat) :
  in_bounds 1 (m0 :: repeat false n) = true.
Proof.
  unfold in_bounds. apply forallb_forall. intros [k c] Hin.
  cbn [fst snd length seq combine] in *.
  destruct c; [|reflexivity]. cbn [negb orb].
  destruct Hin as [E|Hin].
  - now inversion E.
  - apply in_combine_r, repeat_spec in Hin. discriminate.
Qed.

Lemma bool_index_first (m0 : bool) (n : nat) :
  bool_index (seq 0 1) (m0 :: repeat false n) = bool_index (seq 0 1) [m0].
Proof.
  unfold bool_index. cbn [seq length]. rewrite in_bounds_first.
  change (in_bounds 1 [m0]) with (in_bounds 1 (m0 :: repeat false 0)).
  rewrite in_bounds_first. reflexivity.
Qed.

Lemma map_unreached {num : Type} {dtype : Dtype num} (a : num) (T' : list num) :
  Forall (fun c => forall v, geb v c = false) T' ->
  map (geb a) T' = repeat false (length T').
Proof.
  induction 1 as [|c T' Hc _ IH]; [reflexivity|].
  cbn [map length repeat]. now rewrite Hc, IH.
Qed.

(** X22: one neuron with a threshold array whose further entries are
    never reached (NaN thresholds, for which [V >= T] is false at every
    voltage).  The mask is longer than [np.arange(1)], but holds at
    position 0 only: the compiled code reads inside the array, and the call
    gives the result of the call with the first threshold alone. *)
Theorem single_neuron_unreached_thresholds {num : Type} {dtype : Dtype num}
    (x : ndarray num) (f : num) (b : list num) (t0 : num) (T' : list num) (dt : num) :
  Forall (fun c => forall v, geb v c = false) T' ->
  run_LIF_network x (Vec [f]) b (t0 :: T') dt =
  run_LIF_network x (Vec [f]) b [t0] dt.
Proof.
  intros HT. unfold run_LIF_network. cbn [len length].
  destruct (len x) as [nT| |]; [|reflexivity..]. cbn [bind].
  apply (for_range_ext_inv
           (fun st : matrix num * matrix num * matrix num =>
              let '(V, _, _) := st in length V = 1)).
  - reflexivity.
  - intros i [[V s] r] HV. unfold step.
    destruct (update_voltage x (Vec [f]) b dt i V) as [V1| |] eqn:E; [|reflexivity..].
    cbn [bind]. destruct (update_filtered dt i s r); [|reflexivity..].
    cbn [bind]. apply update_voltage_length in E.
    destruct (length_one (column V1 i)) as [v Ev];
      [rewrite column_length; lia|].
    rewrite Ev, !zipB_one_l. cbn [bind map].
    now rewrite (map_unreached v HT), bool_index_first.
  - intros i [[V s] r] [[V' s'] r'] HV E.
    apply step_length in E. congruence.
Qed.

Lemma single_neuron_unreached_thresholds_witness :
  run_LIF_network (Vec [2; 2]%float) (Vec [1]%float) [0]%float [1; nan]%float
    0.5%float =
  run_LIF_network (Vec [2; 2]%float) (Vec [1]%float) [0]%float [1]%float
    0.5%float.
Proof.
  refine (@single_neuron_unreached_thresholds float float64 (Vec [2; 2]%float)
            1%float [0]%float 1%float [nan]%float 0.5%float _).
  repeat constructor. intros v. cbn [geb float64]. now rewrite leb_spec.
Defined.

(** * Further properties on binary64 *)

(** ** The range of the filtered spikes *)

Lemma filtered_ok_bound a :
  filtered_ok a -> (a <=? 9007199254740992)%float = true.
Proof.
  unfold filtered_ok. intros H. rewrite leb_spec.
  change (Prim2SF 9007199254740992) with (S754_finite false 4503599627370496 1).
  pose proof (Prim2SF_valid a) as V.
  destruct (Prim2SF a) as [s|[|]| |[|] m e]; try contradiction; try reflexivity.
  apply SFleb_pos; [assumption|reflexivity|]. now rewrite F2R_2_53.
Qed.

(** X9: on binary64, for a time step [0 < dt <= 1], whatever the other
    arguments (NaN and infinities included), every filtered spike value a
    call returns is finite: it lies between 0 and [2^53]. *)
Theorem filtered_spikes_bounded
    (x F : ndarray float) (b T : list float) (dt : float) (V s r : matrix float) :
  (0 <? dt)%float = true -> (dt <=? 1)%float = true ->
  run_LIF_network x F b T dt = Ok (V, s, r) ->
  Forall (Forall (fun e => (0 <=? e)%float = true /\
                           (e <=? 9007199254740992)%float = true)) r.
Proof.
  intros H0 H1 E.
  set (P := fun e : float => e = 0%float \/ e = 1%float).
  assert (P0 : P zero) by now left.
  assert (P1 : P one) by now right.
  assert (Q0 : filtered_ok zero) by exact I.
  assert (Qs : forall a c, filtered_ok a -> P c ->
                 filtered_ok (add (add a (mul dt (neg a))) c)).
  { intros a c Ha Hc. now apply filtered_ok_step. }
  destruct (@run_keeps float float64 P filtered_ok dt P0 P1 Q0 Qs x F b T V s r E)
    as [_ Hr].
  eapply Forall_impl; [|eassumption]. intros row Hrow.
  eapply Forall_impl; [|eassumption]. intros e He.
  split; [now apply filtered_ok_geb|now apply filtered_ok_bound].
Qed.

Lemma filtered_spikes_bounded_witness :
  Forall (Forall (fun e => (0 <=? e)%float = true /\
                           (e <=? 9007199254740992)%float = true))
    [[0; 0]]%float.
Proof.
  exact (@filtered_spikes_bounded (Vec [2; 2]%float) (Vec [1]%float) [0]%float
           [1]%float 0.5%float [[0; 0]]%float [[0; 1]]%float [[0; 0]]%float
           eq_refl eq_refl tie_spikes).
Defined.

(** ** The threshold zero *)

Lemma zero_threshold_quotient (u T : float) :
  (T =? 0)%float = true -> quotient_class (u / (u - T))%float.
Proof.
  rewrite eqb_spec, Prim2SF_zero. intros HT.
  assert (Eq : Prim2SF (u / (u - T))%float
               = SF64div (Prim2SF u) (SF64sub (Prim2SF u) (Prim2SF T)))
    by now rewrite div_spec, sub_spec.
  apply (quotient_class_spec _ _ Eq). clear Eq.
  destruct (Prim2SF T) as [sT|[|]| |[|] mT eT]; try discriminate HT.
  destruct (Prim2SF u) as [su|[|]| |su mu eu];
    try (cbn; destruct su, sT; exact I); try (cbn; destruct sT; exact I);
    try (cbn; exact I).
  change (SF64sub (S754_finite su mu eu) (S754_zero sT))
    with (S754_finite su mu eu).
  pose proof (SFdiv_le_one su mu eu mu eu (Rle_refl _)) as H.
  destruct (SF64div _ _) as [s|[|]| |[|] m e]; try contradiction; auto.
Qed.

Lemma neg_zero_add (y : float) : (- 0 + y)%float = y.
Proof.
  apply Prim2SF_inj. rewrite add_spec, opp_spec, Prim2SF_zero.
  now destruct (Prim2SF y) as [[|]|[|]| |s m e].
Qed.

Lemma zero_add_nonneg (w : float) :
  (0 <=? w)%float = true -> (0 <=? 0 + w)%float = true.
Proof.
  rewrite !leb_spec, add_spec, Prim2SF_zero.
  now destruct (Prim2SF w) as [[|]|[|]| |[|] m e].
Qed.

Lemma mul_nonneg (dt u : float) :
  (0 <? dt)%float = true -> (dt <=? 1)%float = true ->
  (0 <=? u)%float = true -> (0 <=? dt * u)%float = true.
Proof.
  intros H0 H1. destruct (positive_le_one dt H0 H1) as (m & e & E & _).
  pose proof (valid_finite dt _ _ _ E) as Bd.
  pose proof (Prim2SF_valid u) as Vu.
  rewrite !leb_spec, mul_spec, Prim2SF_zero, E.
  destruct (Prim2SF u) as [[|]|[|]| |[|] mu eu]; try discriminate; try reflexivity.
  intros _. pose proof (SFmul_finite false m e false mu eu Bd Vu) as H.
  cbn [xorb] in H. now destruct H.
Qed.

Lemma zero_leb (T p : float) :
  (T =? 0)%float = true -> (0 <=? p)%float = true -> (T <=? p)%float = true.
Proof.
  rewrite eqb_spec, !leb_spec, Prim2SF_zero.
  destruct (Prim2SF T) as [sT|[|]| |[|] mT eT]; try discriminate.
  intros _. now destruct (Prim2SF p) as [[|]|[|]| |[|] m e].
Qed.

(** X18: on binary64, at the threshold 0 the rate formula and the
    simulator part: [LIF_io] returns the rate 0 at every input, while the
    simulated neuron (for a time step [0 < dt <= 1]) spikes at every step
    as long as its computed drive [F*x + b] is not negative. *)
Theorem zero_threshold (log : float -> float)
    (x F b T : list float) (pf pb pT : bool) (dt f c t : float) (j : nat) :
  log_spec log ->
  (0 <? dt)%float = true -> (dt <=? 1)%float = true ->
  length b = length F -> length T = length F -> j < length F ->
  nth j F 0%float = f -> nth j b 0%float = c -> nth j T 0%float = t ->
  (t =? 0)%float = true ->
  (forall a, In a x -> (0 <=? f * a + c)%float = true) ->
  LIF_io log (Numpy (Vec x)) (scalar pf f) (scalar pb c) (scalar pT t)
  = Ok (Vec (map (fun _ => 0%float) x)) /\
  exists V s r,
    run_LIF_network (Vec x) (Vec F) b T dt = Ok (V, s, r) /\
    forall i, 1 <= i < length x -> get s j i = 1%float /\ get V j i = 0%float.
Proof.
  intros L H0 H1 Hb HT Hj EF Eb ET Ht Hdrive. split.
  - rewrite LIF_io_vec. do 2 f_equal.
    apply map_ext. intros a. apply quotient_class_rate; [assumption|].
    now apply zero_threshold_quotient.
  - destruct (run_vec x F b T dt eq_refl eq_refl Hb HT)
      as (V & s & r & E & _ & _ & _ & Hz & Hst).
    exists V, s, r. split; [assumption|].
    assert (G : forall i, i < length x -> get V j i = 0%float /\
                (1 <= i -> get s j i = 1%float)).
    { induction i as [|i IH]; intros Hi.
      - destruct (Hz j Hj) as (-> & _). split; [reflexivity|lia].
      - destruct IH as [EV _]; [lia|].
        destruct (Hst j (S i) Hj) as (EV1 & Es1 & _); [lia|].
        unfold pre_reset in EV1, Es1.
        replace (S i - 1) with i in EV1, Es1 by lia.
        cbn [add mul neg geb zero one float64] in EV1, Es1.
        rewrite EV, EF, Eb, ET, neg_zero_add in EV1, Es1.
        assert (Hp : (t <=? 0 + dt * (f * nth i x 0 + c))%float = true).
        { apply zero_leb; [assumption|].
          apply zero_add_nonneg, mul_nonneg; try assumption.
          apply Hdrive, nth_In. lia. }
        rewrite Hp in EV1, Es1. now split. }
    intros i Hi. destruct (G i) as [EV Es]; [lia|]. split; [apply Es; lia|assumption].
Qed.

Lemma zero_threshold_witness :
  LIF_io sign_log (Numpy (Vec [2; 2; 2]%float)) (scalar true 1%float)
    (scalar true 0%float) (scalar true 0%float)
  = Ok (Vec (map (fun _ => 0%float) [2; 2; 2]%float)) /\
  exists V s r,
    run_LIF_network (Vec [2; 2; 2]%float) (Vec [1]%float) [0]%float [0]%float
      0.5%float = Ok (V, s, r) /\
    forall i, 1 <= i < 3 -> get s 0 i = 1%float /\ get V 0 i = 0%float.
Proof.
  refine (@zero_threshold sign_log [2; 2; 2]%float [1]%float [0]%float [0]%float
            true true true 0.5%float 1%float 0%float 0%float 0
            sign_log_spec eq_refl eq_refl eq_refl eq_refl _ eq_refl eq_refl eq_refl
            eq_refl _).
  - simpl. lia.
  - intros a [<-|[<-|[<-|[]]]]; reflexivity.
Defined.

(** * Further properties of the analytical rate function *)

(** ** The range of the rates *)

(** X13: on binary64, whatever the logarithm returns, every rate that
    [LIF_io] returns for an array [x] and scalar parameters is nonnegative
    ([0 <= rate], which also says that it is not NaN). *)
Theorem LIF_io_nonnegative (log : float -> float)
    (x : list float) (xm : list (list float)) (pf pb pT : bool) (f b T : float) :
  (exists rate,
     LIF_io log (Numpy (Vec x)) (scalar pf f) (scalar pb b) (scalar pT T)
     = Ok (Vec rate) /\
     Forall (fun e => (0 <=? e)%float = true) rate) /\
  (exists rate,
     LIF_io log (Numpy (Mat xm)) (scalar pf f) (scalar pb b) (scalar pT T)
     = Ok (Mat rate) /\
     Forall (Forall (fun e => (0 <=? e)%float = true)) rate).
Proof.
  split.
  - exists (map (rate1 log f b T) x). split; [apply LIF_io_vec|].
    apply Forall_map, Forall_forall. intros e _. apply masked_rate_nonneg.
  - exists (map (map (rate1 log f b T)) xm). split; [apply LIF_io_mat|].
    apply Forall_map, Forall_forall. intros row _.
    apply Forall_map, Forall_forall. intros e _. apply masked_rate_nonneg.
Qed.

(** ** A population at one input *)

Section Population.

Context {num : Type} {dtype : Dtype num} {elementary : Elementary num}.

Variable log : num -> num.

Lemma LIF_io_params {A : Type} (l : list A) (g h k : A -> num) (px : bool) (x : num) :
  LIF_io log (scalar px x) (Numpy (Vec (map g l))) (Numpy (Vec (map h l)))
    (Numpy (Vec (map k l)))
  = Ok (Vec (map (fun a => rate1 log (g a) (h a) (k a) x) l)).
Proof.
  unfold LIF_io, drive.
  rewrite binop_array_scalar. cbn [lift2 fmap bind binop as_numpy].
  rewrite map_map.
  rewrite (zipB_same_length add) by now rewrite !length_map.
  cbn [fmap bind lift1 lift2 binop as_numpy].
  rewrite (zip_with_map_same add).
  rewrite (zipB_same_length sub) by now rewrite !length_map.
  cbn [fmap bind lift1 lift2 truediv as_numpy].
  rewrite (zip_with_map_same sub).
  rewrite (zipB_same_length div) by now rewrite !length_map.
  cbn [fmap bind lift1 lift2 assign_mask as_numpy]. unfold assign_row_mask.
  rewrite (zip_with_map_same div).
  rewrite !map_map.
  rewrite !length_map, Nat.eqb_refl. cbn [fmap bind lift1 assign_mask].
  rewrite (zip_with_map_same (where_ zero)).
  unfold assign_row_mask. rewrite !map_map, !length_map, Nat.eqb_refl.
  cbn [fmap bind].
  rewrite (zip_with_map_same (where_ zero)).
  reflexivity.
Qed.

End Population.

Lemma map_combine3 {A B C : Type} (f : list A) (b : list B) (T : list C) :
  length b = length f -> length T = length f ->
  map (fun p => fst (fst p)) (combine (combine f b) T) = f /\
  map (fun p => snd (fst p)) (combine (combine f b) T) = b /\
  map (fun p => snd p) (combine (combine f b) T) = T.
Proof.
  revert b T. induction f as [|a f IH]; intros [|c b] [|t T]; simpl;
    try discriminate; intros Hb HT; [now repeat split|].
  destruct (IH b T) as (E1 & E2 & E3); [lia|lia|].
  now rewrite E1, E2, E3.
Qed.

(** X17: a scalar input (a Python float or a numpy scalar) is accepted
    when the parameters are arrays: for parameter arrays of one length
    [N], [LIF_io] returns the [N] rates of the neurons at the input [x],
    for every element type and every logarithm. *)
Theorem LIF_io_population {num : Type} {dtype : Dtype num}
    {elementary : Elementary num} (log : num -> num)
    (px : bool) (x : num) (f b T : list num) :
  length b = length f -> length T = length f ->
  exists rate,
    LIF_io log (scalar px x) (Numpy (Vec f)) (Numpy (Vec b)) (Numpy (Vec T))
    = Ok (Vec rate) /\
    length rate = length f /\
    forall j, j < length f ->
      nth j rate zero = rate1 log (nth j f zero) (nth j b zero) (nth j T zero) x.
Proof.
  intros Hb HT.
  destruct (map_combine3 f b T Hb HT) as (Ef & Eb & ET).
  set (l := combine (combine f b) T) in *.
  assert (Ll : length l = length f).
  { unfold l. rewrite !length_combine. lia. }
  exists (map (fun p => rate1 log (fst (fst p)) (snd (fst p)) (snd p) x) l).
  split; [|split].
  - rewrite <- Ef at 1. rewrite <- Eb at 1. rewrite <- ET at 1.
    apply LIF_io_params.
  - now rewrite length_map.
  - intros j Hj.
    rewrite (nth_map_in _ (zero, zero, zero)) by lia.
    rewrite <- (nth_map_in (fun p => fst (fst p)) (zero, zero, zero) zero l) by lia.
    rewrite <- (nth_map_in (fun p => snd (fst p)) (zero, zero, zero) zero l) by lia.
    rewrite <- (nth_map_in (fun p => snd p) (zero, zero, zero) zero l) by lia.
    now rewrite Ef, Eb, ET.
Qed.

Lemma LIF_io_population_witness :
  exists rate,
    LIF_io sign_log (scalar true 5%float) (Numpy (Vec [0.5; -1]%float))
      (Numpy (Vec [0; 0]%float)) (Numpy (Vec [1; 1]%float)) = Ok (Vec rate) /\
    length rate = 2 /\
    forall j, j < 2 ->
      nth j rate 0%float =
      rate1 sign_log (nth j [0.5; -1]%float 0%float) (nth j [0; 0]%float 0%float)
        (nth j [1; 1]%float 0%float) 5%float.
Proof.
  exact (@LIF_io_population float float64 float64_elementary sign_log true 5%float
           [0.5; -1]%float [0; 0]%float [1; 1]%float eq_refl eq_refl).
Defined.

(** ** Arrays of different lengths *)

(** X19: an input array and a weight array of different lengths, neither
    of length one, do not broadcast: [LIF_io] raises a [ValueError] at the
    product [f*x], whatever the bias and the threshold, for every element
    type and every logarithm. *)
Theorem LIF_io_length_mismatch {num : Type} {dtype : Dtype num}
    {elementary : Elementary num} (log : num -> num)
    (x f : list num) (b T : value num) :
  length f <> length x -> length f <> 1 -> length x <> 1 ->
  LIF_io log (Numpy (Vec x)) (Numpy (Vec f)) b T = Raise ValueError.
Proof.
  intros Hfx Hf Hx. unfold LIF_io, drive. cbn [binop as_numpy lift2].
  now rewrite zipB_mismatch.
Qed.

Lemma LIF_io_length_mismatch_witness :
  LIF_io sign_log (Numpy (Vec [5; 1; 7]%float)) (Numpy (Vec [1; 2]%float))
    (PyFloat 0%float) (PyFloat 1%float) = Raise ValueError.
Proof.
  refine (@LIF_io_length_mismatch float float64 float64_elementary sign_log
            [5; 1; 7]%float [1; 2]%float (PyFloat 0%float) (PyFloat 1%float)
            _ _ _); simpl; lia.
Defined.

(** * The example cell *)

(** X20: in the example cell all neurons have the same weight, bias and
    threshold: the call returns, and every neuron's three traces are those
    of neuron 0, the one the cell plots. *)
Theorem example_neurons_identical {num : Type} {dtype : Dtype num}
    (nT N : nat) (w c x0 dt : num) :
  exists V s r,
    single_neuron_example nT N w c x0 dt = Ok (V, s, r) /\
    has_shape N nT V /\ has_shape N nT s /\ has_shape N nT r /\
    forall j, j < N ->
      nth j V [] = nth 0 V [] /\ nth j s [] = nth 0 s [] /\
      nth j r [] = nth 0 r [].
Proof.
  unfold single_neuron_example.
  set (x := times (ones nT) x0). set (F := times (ones N) w).
  set (b := times (repeat zero N) c). set (T := ones N).
  assert (Lx : length x = nT) by (unfold x, times, ones; now rewrite length_map, repeat_length).
  assert (LF : length F = N) by (unfold F, times, ones; now rewrite length_map, repeat_length).
  assert (Lb : length b = N) by (unfold b, times; now rewrite length_map, repeat_length).
  assert (LT : length T = N) by (unfold T, ones; now rewrite repeat_length).
  destruct (run_vec x F b T dt Lx LF Lb LT)
    as (V & s & r & E & HV & Hs & Hr & H0 & Hst).
  exists V, s, r. split; [assumption|].
  split; [assumption|]. split; [assumption|]. split; [assumption|].
  intros j Hj.
  assert (H0N : 0 < N) by lia.
  assert (EF : nth j F zero = nth 0 F zero).
  { unfold F, times, ones.
    rewrite !(nth_map_in (fun a => mul a w) zero) by (rewrite repeat_length; lia).
    now rewrite !nth_repeat_in by lia. }
  assert (Eb : nth j b zero = nth 0 b zero).
  { unfold b, times.
    rewrite !(nth_map_in (fun a => mul a c) zero) by (rewrite repeat_length; lia).
    now rewrite !nth_repeat_in by lia. }
  assert (ET : nth j T zero = nth 0 T zero).
  { unfold T, ones. now rewrite !nth_repeat_in by lia. }
  assert (Hall : forall i, i < nT ->
            get V j i = get V 0 i /\ get s j i = get s 0 i /\
            get r j i = get r 0 i).
  { intros i Hi.
    apply (@stored_agree num dtype x x F F b b T T dt V s r V s r
             j 0 (nT - 1)); auto; try lia.
    - intros k Hk. apply Hst; [assumption|lia].
    - intros k Hk. apply Hst; [assumption|lia]. }
  repeat split; apply row_ext;
    rewrite ?(shape_row HV Hj), ?(shape_row Hs Hj), ?(shape_row Hr Hj),
            ?(shape_row HV H0N), ?(shape_row Hs H0N), ?(shape_row Hr H0N);
    try reflexivity; intros i Hi; now apply Hall.
Qed.
